(** * The error-detection and auto-repair loop of the site builder

    A shallow embedding of the in-browser repair loop of the [AgentBuilder]
    page ([parseError], [fixCodeError], the terminal-output watcher and the
    runtime-error listener) and of [parseStackTrace] from the error reporter,
    together with the properties the design document states about them.

    JavaScript strings are sequences of UTF-16 code units; they are modelled
    as lists of [N].  Regular expressions are modelled by a small
    backtracking matcher with the priority semantics of ECMAScript (leftmost
    start, greedy quantifiers, first alternative first). *)

From Stdlib Require Import ZArith NArith Ascii String List Lia Bool.
From stdpp Require Import base option list gmap.

Local Open Scope N_scope.

(** ** JavaScript strings *)

Module JS.

(** A string is a list of UTF-16 code units. *)
Abbreviation jsstring := (list N).

(** An ASCII literal of the source, as code units. *)
Definition js (s : string) : jsstring :=
  map N_of_ascii (list_ascii_of_string s).

Definition str_eqb (a b : jsstring) : bool := bool_decide (a = b).

(** [s.startsWith(p)] *)
Fixpoint startsWith (p s : jsstring) : bool :=
  match p, s with
  | [], _ => true
  | _ :: _, [] => false
  | a :: p', b :: s' => (a =? b) && startsWith p' s'
  end.

(** [s.endsWith(p)] *)
Definition endsWith (p s : jsstring) : bool :=
  startsWith (rev p) (rev s).

(** [s.includes(p)] *)
Fixpoint includes (p s : jsstring) : bool :=
  startsWith p s ||
  match s with
  | [] => false
  | _ :: s' => includes p s'
  end.

(** [s.indexOf(p)], [None] standing for -1. *)
Fixpoint indexOf (p s : jsstring) : option nat :=
  if startsWith p s then Some O
  else match s with
       | [] => None
       | _ :: s' => S <$> indexOf p s'
       end.

(** [s.slice(-n)] for a positive literal [n]: the last [n] code units. *)
Definition slice_last {A} (n : nat) (s : list A) : list A :=
  drop (length s - n) s.

(** [s.slice(0, n)] *)
Definition slice_first {A} (n : nat) (s : list A) : list A := take n s.

(** [a.join(sep)] *)
Fixpoint join (sep : jsstring) (l : list jsstring) : jsstring :=
  match l with
  | [] => []
  | [x] => x
  | x :: rest => x ++ sep ++ join sep rest
  end.

(** [s.split(sep).pop()] for a non-empty separator: what follows the last
    piece boundary of the left-to-right, non-overlapping split.  [n] is the
    number of code units of the separator still to be skipped. *)
Fixpoint split_pop_aux (sep : jsstring) (n : nat) (s acc : jsstring) : jsstring :=
  match s with
  | [] => rev acc
  | c :: s' =>
      match n with
      | S n' => split_pop_aux sep n' s' acc
      | O => if startsWith sep s
             then split_pop_aux sep (length sep - 1) s' []
             else split_pop_aux sep O s' (c :: acc)
      end
  end.

Definition split_pop (sep s : jsstring) : jsstring :=
  split_pop_aux sep O s [].

(** Character classes of ECMAScript regular expressions (no [u] flag). *)
Definition is_digit (c : N) : bool := (48 <=? c) && (c <=? 57).

Definition is_upper (c : N) : bool := (65 <=? c) && (c <=? 90).
Definition is_lower (c : N) : bool := (97 <=? c) && (c <=? 122).

(** [\w] *)
Definition is_word (c : N) : bool :=
  is_digit c || is_upper c || is_lower c || (c =? 95).

(** Line terminators: LF, CR, LS, PS. *)
Definition is_line_terminator (c : N) : bool :=
  (c =? 10) || (c =? 13) || (c =? 8232) || (c =? 8233).

(** [\s]: WhiteSpace and LineTerminator. *)
Definition is_space (c : N) : bool :=
  (c =? 9) || (c =? 11) || (c =? 12) || (c =? 32) || (c =? 160) ||
  (c =? 5760) || ((8192 <=? c) && (c <=? 8202)) || (c =? 8239) ||
  (c =? 8287) || (c =? 12288) || (c =? 65279) || is_line_terminator c.

(** [.] *)
Definition is_dot (c : N) : bool := negb (is_line_terminator c).

(** Canonicalisation of the [i] flag, on a code unit: [toUpperCase], kept
    only where it does not map a non-ASCII unit into ASCII.  On ASCII this
    is the upper-casing of [a]-[z]; the literals of the patterns below are
    ASCII, and no non-ASCII code unit canonicalises to an ASCII one. *)
Definition canon (c : N) : N := if is_lower c then c - 32 else c.

(** [s.trim()] removes leading and trailing white space and line
    terminators. *)
Fixpoint trimStart (s : jsstring) : jsstring :=
  match s with
  | c :: s' => if is_space c then trimStart s' else s
  | [] => []
  end.

Definition trim (s : jsstring) : jsstring :=
  rev (trimStart (rev (trimStart s))).

(** [parseInt(s, 10)] on a string of decimal digits ([None] is [NaN]).
    Line numbers are far below 2^53, where the result is exact. *)
Fixpoint parseInt_acc (acc : N) (seen : bool) (s : jsstring) : option N :=
  match s with
  | c :: s' =>
      if is_digit c then parseInt_acc (10 * acc + (c - 48)) true s'
      else if seen then Some acc else None
  | [] => if seen then Some acc else None
  end.

Definition parseInt (s : jsstring) : option N :=
  parseInt_acc 0 false (trimStart s).

End JS.

Import JS.

(** ** Regular expressions

    The patterns of the source only repeat character classes, so [Star]
    ranges over a class.  A match is found by backtracking with a success
    continuation: the first success in priority order is the match that
    [RegExp.prototype.exec] reports. *)

Module Regex.

Inductive regex : Type :=
| Eps                                   (* the empty pattern *)
| Chr (p : N -> bool)                   (* one code unit of a class *)
| Seq (r1 r2 : regex)                   (* r1 r2 *)
| Alt (r1 r2 : regex)                   (* r1|r2 *)
| Opt (r : regex)                       (* r?, greedy *)
| Star (p : N -> bool)                  (* [class]*, greedy *)
| Grp (i : nat) (r : regex)             (* capture group number i *)
| Eos.                                  (* $ without the m flag *)

(** [class]+ *)
Definition Plus (p : N -> bool) : regex := Seq (Chr p) (Star p).

(** A literal character, and a literal string. *)
Definition Ch (c : N) : regex := Chr (N.eqb c).

Fixpoint Lit (s : jsstring) : regex :=
  match s with
  | [] => Eps
  | c :: s' => Seq (Ch c) (Lit s')
  end.

(** Literals under the [i] flag. *)
Definition ChI (c : N) : regex := Chr (fun d => canon d =? canon c).

Fixpoint LitI (s : jsstring) : regex :=
  match s with
  | [] => Eps
  | c :: s' => Seq (ChI c) (LitI s')
  end.

(** Classes written [[abc]] and [[^abc]]. *)
Definition one_of (l : jsstring) (c : N) : bool := existsb (N.eqb c) l.
Definition none_of (l : jsstring) (c : N) : bool := negb (one_of l c).

(** Captures: group number and captured text, most recent first. *)
Definition caps := list (nat * jsstring).

Fixpoint cap_get (i : nat) (cs : caps) : option jsstring :=
  match cs with
  | [] => None
  | (j, v) :: cs' => if Nat.eqb i j then Some v else cap_get i cs'
  end.

Section Matcher.
Context {A : Type}.

(** Greedy iteration of a class: consume as long as possible, then give
    code units back one at a time until the continuation succeeds. *)
Fixpoint star (p : N -> bool) (s : jsstring) (k : jsstring -> option A) : option A :=
  match s with
  | c :: s' =>
      if p c
      then match star p s' k with
           | Some a => Some a
           | None => k s
           end
      else k s
  | [] => k s
  end.

Fixpoint rmatch (r : regex) (s : jsstring) (cs : caps)
         (k : jsstring -> caps -> option A) : option A :=
  match r with
  | Eps => k s cs
  | Chr p =>
      match s with
      | c :: s' => if p c then k s' cs else None
      | [] => None
      end
  | Seq r1 r2 => rmatch r1 s cs (fun s1 c1 => rmatch r2 s1 c1 k)
  | Alt r1 r2 =>
      match rmatch r1 s cs k with
      | Some a => Some a
      | None => rmatch r2 s cs k
      end
  | Opt r1 =>
      match rmatch r1 s cs k with
      | Some a => Some a
      | None => k s cs
      end
  | Star p => star p s (fun s' => k s' cs)
  | Grp i r1 =>
      rmatch r1 s cs
        (fun s' c' => k s' ((i, take (length s - length s') s) :: c'))
  | Eos =>
      match s with
      | [] => k s cs
      | _ :: _ => None
      end
  end.
End Matcher.

(** A match at the start of [s]: the rest of the input and the captures. *)
Definition match_here (r : regex) (s : jsstring) : option (jsstring * caps) :=
  rmatch r s [] (fun s' cs => Some (s', cs)).

Record Match : Type := mkMatch {
  m_index : nat;          (* match.index *)
  m_text : jsstring;      (* match[0] *)
  m_caps : caps           (* match[1], match[2], ... *)
}.

(** [s.match(r)] without the [g] flag: the leftmost start position at
    which the pattern matches. *)
Fixpoint search_from (i : nat) (r : regex) (s : jsstring) : option Match :=
  match match_here r s with
  | Some (s', cs) =>
      Some (mkMatch i (take (length s - length s') s) cs)
  | None =>
      match s with
      | [] => None
      | _ :: s' => search_from (S i) r s'
      end
  end.

Definition regex_match (r : regex) (s : jsstring) : option Match :=
  search_from O r s.

(** [m[i]]; a group that did not take part reads as the empty string where
    the source only uses it for its truthiness or never reads it. *)
Definition group (m : Match) (i : nat) : jsstring :=
  default [] (cap_get i (m_caps m)).

(** Length of the match at the start of [s], if any. *)
Definition match_len (r : regex) (s : jsstring) : option nat :=
  match match_here r s with
  | Some (s', _) => Some (length s - length s')%nat
  | None => None
  end.

(** [s.replace(r, '')] with the [g] flag: every match of the left-to-right
    scan is deleted and the scan resumes after it.  [skip] counts the code
    units of the current match that are still to be dropped. *)
Fixpoint remove_all_aux (r : regex) (skip : nat) (s : jsstring) : jsstring :=
  match s with
  | [] => []
  | c :: s' =>
      match skip with
      | S n => remove_all_aux r n s'
      | O =>
          match match_len r s with
          | Some (S n) => remove_all_aux r n s'
          | Some O | None => c :: remove_all_aux r O s'
          end
      end
  end.

Definition remove_all (r : regex) (s : jsstring) : jsstring :=
  remove_all_aux r O s.

(** [s.replace(r, '')] without the [g] flag: the leftmost match is deleted. *)
Fixpoint remove_first (r : regex) (s : jsstring) : jsstring :=
  match match_len r s with
  | Some n => drop n s
  | None =>
      match s with
      | [] => []
      | c :: s' => c :: remove_first r s'
      end
  end.

(** [s.replace(pat, rep)] with a string pattern: the first occurrence. *)
Fixpoint replace_first (pat rep s : jsstring) : jsstring :=
  if startsWith pat s then rep ++ drop (length pat) s
  else match s with
       | [] => []
       | c :: s' => c :: replace_first pat rep s'
       end.

(** [s.replace(/^\//, '')]: one leading slash is dropped. *)
Definition strip_leading_slash (s : jsstring) : jsstring :=
  match s with
  | 47 :: s' => s'
  | _ => s
  end.

End Regex.

Import Regex.

(** ** The error classifier ([parseError]) *)

Module Classifier.

(** Concatenation of a pattern's parts, left to right. *)
Definition Cat (l : list regex) : regex := fold_right Seq Eps l.

Definition nl : jsstring := [10].

(** [/\x1B\[[0-9;]*[mGKHF]/g] *)
Definition ansiRe : regex :=
  Cat [Ch 27; Ch 91; Star (fun c => is_digit c || (c =? 59));
       Chr (one_of (js "mGKHF"))].

(** [/\[\d+m/g] *)
Definition bracketRe : regex :=
  Cat [Ch 91; Plus is_digit; Ch 109].

(** The output normalizer: the two chained [replace] calls. *)
Definition stripAnsi (rawText : jsstring) : jsstring :=
  remove_all bracketRe (remove_all ansiRe rawText).

(** Text is clean when neither pattern of the normalizer matches in it. *)
Definition isClean (s : jsstring) : bool :=
  match regex_match ansiRe s, regex_match bracketRe s with
  | None, None => true
  | _, _ => false
  end.

(** [(?:\/home\/[^\/]+\/)?] *)
Definition homePrefix : regex :=
  Opt (Cat [Lit (js "/home/"); Plus (none_of (js "/")); Ch 47]).

(** [[^\s:]] and [[^\s:)]] and [[\w\-\/]] *)
Definition path_char (c : N) : bool := negb (is_space c) && negb (c =? 58).
Definition inline_char (c : N) : bool :=
  negb (is_space c) && negb (c =? 58) && negb (c =? 41).
Definition strict_char (c : N) : bool := is_word c || (c =? 45) || (c =? 47).

(** [\.tsx?] *)
Definition tsExt : regex := Cat [Lit (js ".ts"); Opt (Ch 120)].

(** [/File:\s*(?:\/home\/[^\/]+\/)?(src\/[^\s:]+\.tsx?)(?::(\d+))?/] *)
Definition fileLineRe : regex :=
  Cat [Lit (js "File:"); Star is_space; homePrefix;
       Grp 1 (Cat [Lit (js "src/"); Plus path_char; tsExt]);
       Opt (Cat [Ch 58; Grp 2 (Plus is_digit)])].

(** [/(?:\/home\/[^\/]+\/)?(src\/[^\s:)]+\.tsx?)/] *)
Definition inlineFileRe : regex :=
  Cat [homePrefix; Grp 1 (Cat [Lit (js "src/"); Plus inline_char; tsExt])].

Definition quote (c : N) : bool := (c =? 34) || (c =? 39).
Definition not_quote (c : N) : bool := negb (quote c).

(** [/Failed to resolve import\s*[\x22']([^\x22']+)[\x22']\s*from\s*[\x22']([^\x22']+)[\x22']/]
    (the double quote of the source is written \x22 here) *)
Definition importRe : regex :=
  Cat [Lit (js "Failed to resolve import"); Star is_space; Chr quote;
       Grp 1 (Plus not_quote); Chr quote; Star is_space; Lit (js "from");
       Star is_space; Chr quote; Grp 2 (Plus not_quote); Chr quote].

(** [/(src\/[\w\-\/]+\.tsx?)\((\d+),(\d+)\):\s*error\s*(TS\d+):\s*(.+)/] *)
Definition tsRe : regex :=
  Cat [Grp 1 (Cat [Lit (js "src/"); Plus strict_char; tsExt]);
       Ch 40; Grp 2 (Plus is_digit); Ch 44; Grp 3 (Plus is_digit); Ch 41;
       Ch 58; Star is_space; Lit (js "error"); Star is_space;
       Grp 4 (Cat [Lit (js "TS"); Plus is_digit]); Ch 58; Star is_space;
       Grp 5 (Plus is_dot)].

(** [/(?:\/home\/[^\/]+\/)?(src\/[\w\-\/]+\.tsx?)/] *)
Definition srcFileRe : regex :=
  Cat [homePrefix; Grp 1 (Cat [Lit (js "src/"); Plus strict_char; tsExt])].

(** [/Cannot find module\s*[\x22']([^\x22']+)[\x22']/] *)
Definition moduleRe : regex :=
  Cat [Lit (js "Cannot find module"); Star is_space; Chr quote;
       Grp 1 (Plus not_quote); Chr quote].

Record ErrorCandidate : Type := mkCandidate {
  file : jsstring;
  error : jsstring
}.

(** The literal of the second success marker, as the code units the source
    file holds: U+00E2, U+0153, U+2026. *)
Definition doneMarker : jsstring := [226; 339; 8230].

(** Rule 1, the branch guarded by [text.includes('[plugin:vite:')]. *)
Definition viteRule (text : jsstring) : option ErrorCandidate :=
  if includes (js "[plugin:vite:") text then
    match regex_match fileLineRe text with
    | Some fileLineMatch =>
        let filePath := group fileLineMatch 1 in
        Some (mkCandidate filePath
                (js "Vite Error in " ++ filePath ++ nl ++ nl ++
                 js "Full error:" ++ nl ++ slice_last 1000 text))
    | None =>
        match regex_match inlineFileRe text with
        | Some inlineFileMatch =>
            Some (mkCandidate (group inlineFileMatch 1)
                    (js "Vite Error in " ++ group inlineFileMatch 1 ++ nl ++ nl ++
                     js "Full error:" ++ nl ++ slice_last 1000 text))
        | None => None
        end
    end
  else None.

(** Rule 2, failed import resolution. *)
Definition importRule (text : jsstring) : option ErrorCandidate :=
  match regex_match importRe text with
  | Some importMatch =>
      let sourceFile := strip_leading_slash (group importMatch 2) in
      let filePath :=
        if startsWith (js "src/") sourceFile then sourceFile
        else js "src/" ++ split_pop (js "src/") sourceFile in
      Some (mkCandidate filePath
              (js "Import Error: Cannot find " ++ [34] ++ group importMatch 1 ++
               [34] ++ js " in " ++ filePath ++ nl ++ nl ++
               js "Full error:" ++ nl ++ slice_last 800 text))
  | None => None
  end.

(** Rule 3, TypeScript diagnostics. *)
Definition tsRule (text : jsstring) : option ErrorCandidate :=
  match regex_match tsRe text with
  | Some tsMatch =>
      Some (mkCandidate (group tsMatch 1)
              (js "TypeScript " ++ group tsMatch 4 ++ js " at line " ++
               group tsMatch 2 ++ js ": " ++ group tsMatch 5 ++ nl ++ nl ++
               js "Full error:" ++ nl ++ slice_last 600 text))
  | None => None
  end.

(** Rule 4, syntax-error markers. *)
Definition syntaxRule (text : jsstring) : option ErrorCandidate :=
  if includes (js "SyntaxError") text || includes (js "Unexpected token") text then
    match regex_match srcFileRe text with
    | Some fileMatch =>
        Some (mkCandidate (group fileMatch 1)
                (js "Syntax Error in " ++ group fileMatch 1 ++ nl ++ nl ++
                 slice_last 600 text))
    | None => None
    end
  else None.

(** Rule 5, module not found. *)
Definition moduleRule (text : jsstring) : option ErrorCandidate :=
  match regex_match moduleRe text with
  | Some moduleMatch =>
      match regex_match srcFileRe text with
      | Some fileMatch =>
          Some (mkCandidate (group fileMatch 1)
                  (js "Module not found: " ++ group moduleMatch 1 ++ nl ++ nl ++
                   slice_last 500 text))
      | None => None
      end
  | None => None
  end.

(** The first rule that yields a candidate wins. *)
Fixpoint first_rule (rules : list (jsstring -> option ErrorCandidate))
         (text : jsstring) : option ErrorCandidate :=
  match rules with
  | [] => None
  | rule :: rest =>
      match rule text with
      | Some c => Some c
      | None => first_rule rest text
      end
  end.

(** The text the rules see: the last 80 lines, joined and normalized. *)
Definition classifierText (output : list jsstring) : jsstring :=
  stripAnsi (join nl (slice_last 80 output)).

Definition classify (text : jsstring) : option ErrorCandidate :=
  if includes (js "hmr update") text && negb (includes (js "[plugin:vite") text)
  then None
  else if includes doneMarker text && negb (includes (js "[plugin:vite") text)
  then None
  else first_rule [viteRule; importRule; tsRule; syntaxRule; moduleRule] text.

Definition parseError (output : list jsstring) : option ErrorCandidate :=
  classify (classifierText output).

(** The de-duplication key of a candidate:
    [`${file}:${error.slice(0, 100)}`]. *)
Definition errorKeyOf (errorFile errorText : jsstring) : jsstring :=
  errorFile ++ [58] ++ slice_first 100 errorText.

End Classifier.

Import Classifier.

(** ** The stack trace resolver ([parseStackTrace]) *)

Module Resolver.

(** A JavaScript number as far as line numbers go: [NaN] or a natural. *)
Inductive jsnum : Type :=
| NaN
| Num (n : N).

Definition parseInt10 (s : jsstring) : jsnum :=
  match parseInt s with
  | Some n => Num n
  | None => NaN
  end.

Record StackLocation : Type := mkLocation {
  filePath : option jsstring;       (* string | null *)
  lineNumber : option jsnum         (* number | null *)
}.

(** Pattern 1, [/\.io\/src\/([^\s:)]+\.tsx?):(\\d+)/].  In the regular
    expression literal [\\] is an escaped backslash, so the second group
    is a backslash followed by one or more letters d. *)
Definition srcPathRe : regex :=
  Cat [Lit (js ".io/src/"); Grp 1 (Cat [Plus inline_char; tsExt]); Ch 58;
       Grp 2 (Cat [Ch 92; Plus (N.eqb 100)])].

Definition tick (c : N) : bool := (c =? 96) || (c =? 39).

(** Pattern 2, [/Check the render method of [`']?(\w+)[`']?/i]. *)
Definition renderMethodRe : regex :=
  Cat [LitI (js "Check the render method of "); Opt (Chr tick);
       Grp 1 (Plus is_word); Opt (Chr tick)].

(** [new RegExp(`at ${componentName}\\s*\\([^)]*\\/src\\/([^\\s:)]+\\.tsx?):(\\d+)`)];
    in the template literal [\\] yields one backslash, so this is
    [at <componentName>\s*\([^)]*\/src\/([^\s:)]+\.tsx?):(\d+)]. *)
Definition componentFilePattern (componentName : jsstring) : regex :=
  Cat [Lit (js "at "); Lit componentName; Star is_space; Ch 40;
       Star (none_of (js ")")); Lit (js "/src/");
       Grp 1 (Cat [Plus inline_char; tsExt]); Ch 58; Grp 2 (Plus is_digit)].

(** [https?:\/\/] *)
Definition httpScheme : regex := Cat [Lit (js "http"); Opt (Ch 115); Lit (js "://")].

(** [(src\/[^:)]+)] *)
Definition srcUntilColon : regex :=
  Grp 1 (Cat [Lit (js "src/"); Plus (none_of (js ":)"))]).

(** Pattern 3, [/at\s+\w+\s+\(https?:\/\/[^)]+\/(src\/[^:)]+):(\d+):\d+\)/]. *)
Definition reactRe : regex :=
  Cat [Lit (js "at"); Plus is_space; Plus is_word; Plus is_space; Ch 40;
       httpScheme; Plus (none_of (js ")")); Ch 47; srcUntilColon; Ch 58;
       Grp 2 (Plus is_digit); Ch 58; Plus is_digit; Ch 41].

(** Pattern 4, [/at\s+https?:\/\/[^/]+\/(src\/[^:)]+):(\d+):\d+/]. *)
Definition urlRe : regex :=
  Cat [Lit (js "at"); Plus is_space; httpScheme; Plus (none_of (js "/")); Ch 47;
       srcUntilColon; Ch 58; Grp 2 (Plus is_digit); Ch 58; Plus is_digit].

(** Pattern 5, [/(src\/[\w\/.-]+\.(?:tsx?|jsx?))/]. *)
Definition simple_char (c : N) : bool :=
  is_word c || (c =? 47) || (c =? 46) || (c =? 45).

Definition simpleRe : regex :=
  Grp 1 (Cat [Lit (js "src/"); Plus simple_char; Ch 46;
              Alt (Cat [Lit (js "ts"); Opt (Ch 120)])
                  (Cat [Lit (js "js"); Opt (Ch 120)])]).

(** [m[2] ? parseInt(m[2], 10) : null] *)
Definition lineOf (m : Match) : option jsnum :=
  match group m 2 with
  | [] => None
  | g => Some (parseInt10 g)
  end.

(** [message] is optional; [message || ''] and [stack || ''] read an absent
    or empty argument as the empty string. *)
Definition parseStackTrace (stack : jsstring) (message : option jsstring) : StackLocation :=
  let combinedText := default [] message ++ [10] ++ stack in
  match trim combinedText with
  | [] => mkLocation None None
  | _ =>
  match regex_match srcPathRe combinedText with
  | Some srcPathMatch =>
      mkLocation (Some (js "src/" ++ group srcPathMatch 1)) (lineOf srcPathMatch)
  | None =>
  match regex_match renderMethodRe combinedText with
  | Some renderMethodMatch =>
      let componentName := group renderMethodMatch 1 in
      match regex_match (componentFilePattern componentName) combinedText with
      | Some componentFileMatch =>
          mkLocation (Some (js "src/" ++ group componentFileMatch 1))
                     (lineOf componentFileMatch)
      | None =>
          mkLocation (Some (js "src/components/features/" ++ componentName ++ js ".tsx"))
                     None
      end
  | None =>
  match regex_match reactRe combinedText with
  | Some reactMatch =>
      mkLocation (Some (group reactMatch 1)) (Some (parseInt10 (group reactMatch 2)))
  | None =>
  match regex_match urlRe combinedText with
  | Some urlMatch =>
      mkLocation (Some (group urlMatch 1)) (Some (parseInt10 (group urlMatch 2)))
  | None =>
  match regex_match simpleRe combinedText with
  | Some simpleMatch => mkLocation (Some (group simpleMatch 1)) None
  | None => mkLocation None None
  end end end end end end.

End Resolver.

Import Resolver.

(** ** The fix dispatcher ([fixCodeError])

    [fixCodeError] is an async function.  It runs synchronously up to its
    first [await], the request to the repair service; the rest runs when
    the request settles.  The two halves are [fixCodeError_start] and
    [fixCodeError_resume]; the outcome of the request is an input of the
    second.  The closure's [terminalOutput] is the argument [out].
    Persisting a fix to the project store is left out: its failures are
    swallowed on the spot and it touches none of the state below. *)

Module Dispatcher.

Definition MAX_FIX_ATTEMPTS : N := 50.
Definition FIX_COOLDOWN_MS : Z := 10000.

Record SourceFile : Type := mkFile {
  path : jsstring;
  content : jsstring
}.

(** The message types the loop uses: 'thinking', 'success', 'error'. *)
Inductive MessageType : Type :=
| MsgThinking
| MsgSuccess
| MsgError.

Record AgentMessage : Type := mkMessage {
  mtype : MessageType;
  mcontent : jsstring
}.

(** The body of a request to the repair service. *)
Record FixRequest : Type := mkRequest {
  req_error : jsstring;
  req_filePath : jsstring;
  req_fileContent : jsstring
}.

(** What [await response.json()] and the destructuring of [fixedCode] give:
    an exception (with its text), or the field, absent or a string. *)
Inductive ResponseBody : Type :=
| BodyRejected (err : jsstring)
| BodyObject (fixedCode : option jsstring).

(** What [await fetch(...)] gives: a rejection (network failure, with the
    text of the error), or a response with its [ok] flag and body. *)
Inductive FetchOutcome : Type :=
| FetchRejected (err : jsstring)
| FetchResponse (ok : bool) (body : ResponseBody).

(** A dispatch suspended at its request, with what its closure holds. *)
Inductive Pending : Type :=
| PendingCreate (out : list jsstring)
                (errorFile errorKey componentName filePath : jsstring)
| PendingRepair (out : list jsstring)
                (errorFile errorKey : jsstring) (targetFile : SourceFile).

Definition pendingKey (p : Pending) : jsstring :=
  match p with
  | PendingCreate _ _ errorKey _ _ => errorKey
  | PendingRepair _ _ errorKey _ => errorKey
  end.

(** The callbacks handed to [setTimeout]. *)
Inductive Task : Type :=
| TaskFix (out : list jsstring) (errorFile errorText : jsstring)
    (* () => fixCodeError(file, error) *)
| TaskExpire (errorKey : jsstring)
    (* () => fixedFilesRef.current.delete(errorKey) *)
| TaskRecheckOther (out : list jsstring) (errorFile : jsstring)
    (* the re-check 3 s after a fix, for other files *)
| TaskRecheckNew (out : list jsstring)
    (* the re-check 8 s after a fix, for new errors *)
| TaskQueued (out : list jsstring) (errorKey filePath errorContext : jsstring).
    (* the runtime report queued while a fix is in flight *)

Record State : Type := mkState {
  isRunning : bool;                              (* the dev server is reported running *)
  terminalOutput : list jsstring;                (* the rolling output log of the hook *)
  fixingRef : bool;                              (* fixingRef.current, the in-flight flag *)
  isFixing : bool;                               (* the React state mirror of the flag *)
  fixAttempts : N;                               (* fixAttempts.current *)
  fixedFilesRef : gset jsstring;                 (* fixedFilesRef.current, the fixed keys *)
  lastFixTimeRef : gmap jsstring Z;              (* lastFixTimeRef.current *)
  files : list SourceFile;                       (* the React state [files] *)
  filesRef : list SourceFile;                    (* filesRef.current *)
  fixCount : N;                                  (* the React state [fixCount] *)
  messages : list AgentMessage;                  (* addMessage calls, oldest first *)
  requests : list FixRequest;                    (* POSTs to /api/fix-error, oldest first *)
  sandboxWrites : list (jsstring * jsstring);    (* updateFile calls, oldest first *)
  inflight : list Pending;                       (* dispatches awaiting the service *)
  timers : list (Z * Task);                      (* pending setTimeout callbacks *)
  watchTimer : option (Z * Task);                (* the watcher's cancellable timeout *)
  clock : Z                                      (* Date.now(), in milliseconds *)
}.

(** Field updates. *)
Definition with_isRunning (v : bool) (st : State) : State :=
  mkState v (terminalOutput st) (fixingRef st) (isFixing st) (fixAttempts st) (fixedFilesRef st) (lastFixTimeRef st) (files st) (filesRef st) (fixCount st) (messages st) (requests st) (sandboxWrites st) (inflight st) (timers st) (watchTimer st) (clock st).

Definition with_terminalOutput (v : list jsstring) (st : State) : State :=
  mkState (isRunning st) v (fixingRef st) (isFixing st) (fixAttempts st) (fixedFilesRef st) (lastFixTimeRef st) (files st) (filesRef st) (fixCount st) (messages st) (requests st) (sandboxWrites st) (inflight st) (timers st) (watchTimer st) (clock st).

Definition with_fixingRef (v : bool) (st : State) : State :=
  mkState (isRunning st) (terminalOutput st) v (isFixing st) (fixAttempts st) (fixedFilesRef st) (lastFixTimeRef st) (files st) (filesRef st) (fixCount st) (messages st) (requests st) (sandboxWrites st) (inflight st) (timers st) (watchTimer st) (clock st).

Definition with_isFixing (v : bool) (st : State) : State :=
  mkState (isRunning st) (terminalOutput st) (fixingRef st) v (fixAttempts st) (fixedFilesRef st) (lastFixTimeRef st) (files st) (filesRef st) (fixCount st) (messages st) (requests st) (sandboxWrites st) (inflight st) (timers st) (watchTimer st) (clock st).

Definition with_fixAttempts (v : N) (st : State) : State :=
  mkState (isRunning st) (terminalOutput st) (fixingRef st) (isFixing st) v (fixedFilesRef st) (lastFixTimeRef st) (files st) (filesRef st) (fixCount st) (messages st) (requests st) (sandboxWrites st) (inflight st) (timers st) (watchTimer st) (clock st).

Definition with_fixedFilesRef (v : gset jsstring) (st : State) : State :=
  mkState (isRunning st) (terminalOutput st) (fixingRef st) (isFixing st) (fixAttempts st) v (lastFixTimeRef st) (files st) (filesRef st) (fixCount st) (messages st) (requests st) (sandboxWrites st) (inflight st) (timers st) (watchTimer st) (clock st).

Definition with_lastFixTimeRef (v : gmap jsstring Z) (st : State) : State :=
  mkState (isRunning st) (terminalOutput st) (fixingRef st) (isFixing st) (fixAttempts st) (fixedFilesRef st) v (files st) (filesRef st) (fixCount st) (messages st) (requests st) (sandboxWrites st) (inflight st) (timers st) (watchTimer st) (clock st).

Definition with_files (v : list SourceFile) (st : State) : State :=
  mkState (isRunning st) (terminalOutput st) (fixingRef st) (isFixing st) (fixAttempts st) (fixedFilesRef st) (lastFixTimeRef st) v (filesRef st) (fixCount st) (messages st) (requests st) (sandboxWrites st) (inflight st) (timers st) (watchTimer st) (clock st).

Definition with_filesRef (v : list SourceFile) (st : State) : State :=
  mkState (isRunning st) (terminalOutput st) (fixingRef st) (isFixing st) (fixAttempts st) (fixedFilesRef st) (lastFixTimeRef st) (files st) v (fixCount st) (messages st) (requests st) (sandboxWrites st) (inflight st) (timers st) (watchTimer st) (clock st).

Definition with_fixCount (v : N) (st : State) : State :=
  mkState (isRunning st) (terminalOutput st) (fixingRef st) (isFixing st) (fixAttempts st) (fixedFilesRef st) (lastFixTimeRef st) (files st) (filesRef st) v (messages st) (requests st) (sandboxWrites st) (inflight st) (timers st) (watchTimer st) (clock st).

Definition with_messages (v : list AgentMessage) (st : State) : State :=
  mkState (isRunning st) (terminalOutput st) (fixingRef st) (isFixing st) (fixAttempts st) (fixedFilesRef st) (lastFixTimeRef st) (files st) (filesRef st) (fixCount st) v (requests st) (sandboxWrites st) (inflight st) (timers st) (watchTimer st) (clock st).

Definition with_requests (v : list FixRequest) (st : State) : State :=
  mkState (isRunning st) (terminalOutput st) (fixingRef st) (isFixing st) (fixAttempts st) (fixedFilesRef st) (lastFixTimeRef st) (files st) (filesRef st) (fixCount st) (messages st) v (sandboxWrites st) (inflight st) (timers st) (watchTimer st) (clock st).

Definition with_sandboxWrites (v : list (jsstring * jsstring)) (st : State) : State :=
  mkState (isRunning st) (terminalOutput st) (fixingRef st) (isFixing st) (fixAttempts st) (fixedFilesRef st) (lastFixTimeRef st) (files st) (filesRef st) (fixCount st) (messages st) (requests st) v (inflight st) (timers st) (watchTimer st) (clock st).

Definition with_inflight (v : list Pending) (st : State) : State :=
  mkState (isRunning st) (terminalOutput st) (fixingRef st) (isFixing st) (fixAttempts st) (fixedFilesRef st) (lastFixTimeRef st) (files st) (filesRef st) (fixCount st) (messages st) (requests st) (sandboxWrites st) v (timers st) (watchTimer st) (clock st).

Definition with_timers (v : list (Z * Task)) (st : State) : State :=
  mkState (isRunning st) (terminalOutput st) (fixingRef st) (isFixing st) (fixAttempts st) (fixedFilesRef st) (lastFixTimeRef st) (files st) (filesRef st) (fixCount st) (messages st) (requests st) (sandboxWrites st) (inflight st) v (watchTimer st) (clock st).

Definition with_watchTimer (v : option (Z * Task)) (st : State) : State :=
  mkState (isRunning st) (terminalOutput st) (fixingRef st) (isFixing st) (fixAttempts st) (fixedFilesRef st) (lastFixTimeRef st) (files st) (filesRef st) (fixCount st) (messages st) (requests st) (sandboxWrites st) (inflight st) (timers st) v (clock st).

Definition with_clock (v : Z) (st : State) : State :=
  mkState (isRunning st) (terminalOutput st) (fixingRef st) (isFixing st) (fixAttempts st) (fixedFilesRef st) (lastFixTimeRef st) (files st) (filesRef st) (fixCount st) (messages st) (requests st) (sandboxWrites st) (inflight st) (timers st) (watchTimer st) v.

(** The operations of the source on that state. *)
Definition setFixing (b : bool) (st : State) : State :=
  with_isFixing b (with_fixingRef b st).

Definition addMessage (t : MessageType) (text : jsstring) (st : State) : State :=
  with_messages (messages st ++ [mkMessage t text]) st.

Definition post (r : FixRequest) (st : State) : State :=
  with_requests (requests st ++ [r]) st.

Definition setFiles (f : list SourceFile -> list SourceFile) (st : State) : State :=
  with_files (f (files st)) st.

Definition updateFile (p code : jsstring) (st : State) : State :=
  with_sandboxWrites (sandboxWrites st ++ [(p, code)]) st.

Definition setTimeout (delay : Z) (t : Task) (st : State) : State :=
  with_timers (timers st ++ [((clock st + delay)%Z, t)]) st.

Definition addFixed (key : jsstring) (st : State) : State :=
  with_fixedFilesRef ({[key]} ∪ fixedFilesRef st) st.

Definition deleteFixed (key : jsstring) (st : State) : State :=
  with_fixedFilesRef (fixedFilesRef st ∖ {[key]}) st.

(** The emoji that open the messages, as the code units the source holds. *)
Definition newMark : jsstring := [240; 376; 8224; 8226].
Definition wrenchMark : jsstring := [240; 376; 8221; 167].
Definition checkMark : jsstring := [226; 339; 8230].
Definition crossMark : jsstring := [226; 338].

(** [/Cannot find module [\x22']([^\x22']+)[\x22']|Failed to resolve import [\x22']([^\x22']+)[\x22']/i] *)
Definition missingImportRe : regex :=
  Alt (Cat [LitI (js "Cannot find module "); Chr quote;
            Grp 1 (Plus not_quote); Chr quote])
      (Cat [LitI (js "Failed to resolve import "); Chr quote;
            Grp 2 (Plus not_quote); Chr quote]).

(** [/\.(tsx?|jsx?)$/] *)
Definition sourceExtRe : regex :=
  Cat [Ch 46; Grp 1 (Alt (Cat [Lit (js "ts"); Opt (Ch 120)])
                         (Cat [Lit (js "js"); Opt (Ch 120)])); Eos].

(** [a || b] on strings. *)
Definition or_else (a b : jsstring) : jsstring :=
  match a with
  | [] => b
  | _ :: _ => a
  end.

Definition componentNameOf (missingPath : jsstring) : jsstring :=
  or_else (remove_first sourceExtRe (split_pop (js "/") missingPath))
          (js "Component").

Definition missingFilePath (missingPath : jsstring) : jsstring :=
  let filePath := missingPath in
  let filePath :=
    if startsWith (js "@/") filePath
    then replace_first (js "@/") (js "src/") filePath else filePath in
  let filePath :=
    if negb (endsWith (js ".tsx") filePath) && negb (endsWith (js ".ts") filePath)
    then filePath ++ js ".tsx" else filePath in
  if negb (startsWith (js "src/") filePath) then js "src/" ++ filePath else filePath.

(** [!targetFile?.content] *)
Definition unusable (o : option SourceFile) : bool :=
  match o with
  | Some f => match content f with [] => true | _ :: _ => false end
  | None => true
  end.

(** The target of a repair: the two [find] calls and their guards. *)
Definition findTarget (fs : list SourceFile) (errorFile : jsstring) : option SourceFile :=
  let targetFile :=
    find (fun f => str_eqb (path f) errorFile ||
                   endsWith errorFile (path f) ||
                   includes (replace_first (js "src/") [] errorFile) (path f)) fs in
  let targetFile :=
    if unusable targetFile then
      match split_pop (js "/") errorFile with
      | [] => targetFile
      | fileName => find (fun f => endsWith fileName (path f)) fs
      end
    else targetFile in
  if unusable targetFile then None else targetFile.

Inductive Started : Type :=
| Returned (result : bool) (st : State)    (* the promise is settled at once *)
| Awaiting (p : Pending) (st : State).     (* the request is in flight *)

(** [fixCodeError(errorFile, errorText)] up to the request. *)
Definition fixCodeError_start (out : list jsstring) (st : State)
           (errorFile errorText : jsstring) : Started :=
  if fixingRef st then Returned false st
  else
    let errorKey := errorKeyOf errorFile errorText in
    if bool_decide (errorKey ∈ fixedFilesRef st) then Returned false st
    else
      let st := with_fixAttempts (fixAttempts st + 1) (setFixing true st) in
      match regex_match missingImportRe errorText with
      | Some missingImportMatch =>
          let missingPath :=
            or_else (group missingImportMatch 1) (group missingImportMatch 2) in
          let componentName := componentNameOf missingPath in
          let filePath := missingFilePath missingPath in
          let st := addMessage MsgThinking
                      (newMark ++ js " Creating missing component: " ++
                       componentName ++ js "...") st in
          let st := post (mkRequest
                            (js "Create a new React component for: " ++ componentName ++
                             js ". The file path is " ++ filePath ++
                             js ". Make it a functional TypeScript component with proper props interface and modern styling using Tailwind CSS.")
                            filePath
                            (js "// NEW FILE - GENERATE COMPONENT")) st in
          Awaiting (PendingCreate out errorFile errorKey componentName filePath) st
      | None =>
          match findTarget (filesRef st) errorFile with
          | None => Returned false (setFixing false st)
          | Some targetFile =>
              let st := addMessage MsgThinking
                          (wrenchMark ++ js " Auto-fixing error in " ++
                           path targetFile ++ js "...") st in
              let st := post (mkRequest errorText (path targetFile)
                                        (content targetFile)) st in
              Awaiting (PendingRepair out errorFile errorKey targetFile) st
          end
      end.

(** The [catch] block. *)
Definition caught (err : jsstring) (st : State) : State :=
  addMessage MsgError (crossMark ++ js " Auto-fix failed: " ++ err) st.

(** The [finally] block, the scheduling of the two re-checks after a
    success, and the returned value. *)
Definition finish (fixSuccess : bool) (out : list jsstring) (errorFile : jsstring)
           (st : State) : bool * State :=
  let st := setFixing false st in
  (fixSuccess,
   if fixSuccess
   then setTimeout 8000 (TaskRecheckNew out)
          (setTimeout 3000 (TaskRecheckOther out errorFile) st)
   else st).

(** [fixCodeError] from the moment the request settles. *)
Definition fixCodeError_resume (st : State) (p : Pending) (o : FetchOutcome)
  : bool * State :=
  match p with
  | PendingCreate out errorFile errorKey componentName filePath =>
      match o with
      | FetchRejected err => finish false out errorFile (caught err st)
      | FetchResponse false _ => finish false out errorFile st
      | FetchResponse true (BodyRejected err) =>
          finish false out errorFile (caught err st)
      | FetchResponse true (BodyObject (Some (c :: code))) =>
          let fixedCode := c :: code in
          let st := setFiles (fun prev => prev ++ [mkFile ([47] ++ filePath) fixedCode]) st in
          let st := updateFile filePath fixedCode st in
          let st := with_fixCount (fixCount st + 1) st in
          let st := addFixed errorKey st in
          let st := addMessage MsgSuccess
                      (checkMark ++ js " Created missing component: " ++ componentName) st in
          finish true out errorFile st
      | FetchResponse true (BodyObject _) => finish false out errorFile st
      end
  | PendingRepair out errorFile errorKey targetFile =>
      match o with
      | FetchRejected err => finish false out errorFile (caught err st)
      | FetchResponse false _ =>
          finish false out errorFile (caught (js "Error: Backend failed") st)
      | FetchResponse true (BodyRejected err) =>
          finish false out errorFile (caught err st)
      | FetchResponse true (BodyObject (Some (c :: code))) =>
          let fixedCode := c :: code in
          if str_eqb fixedCode (content targetFile) then finish false out errorFile st
          else
            let st := setFiles
                        (map (fun f => if str_eqb (path f) (path targetFile)
                                       then mkFile (path f) fixedCode else f)) st in
            let st := updateFile (strip_leading_slash (path targetFile)) fixedCode st in
            let st := with_fixCount (fixCount st + 1) st in
            let st := addFixed errorKey st in
            let st := setTimeout 15000 (TaskExpire errorKey) st in
            let st := addMessage MsgSuccess
                        (checkMark ++ js " Fixed error in " ++ path targetFile) st in
            finish true out errorFile st
      | FetchResponse true (BodyObject _) => finish false out errorFile st
      end
  end.

(** The outcomes in which the service produced no fix: the request was
    rejected, the response is not ok, its body cannot be read, or the
    [fixedCode] field is absent or empty. *)
Definition noFixProduced (o : FetchOutcome) : bool :=
  match o with
  | FetchRejected _ => true
  | FetchResponse false _ => true
  | FetchResponse true (BodyRejected _) => true
  | FetchResponse true (BodyObject None) => true
  | FetchResponse true (BodyObject (Some [])) => true
  | FetchResponse true (BodyObject (Some (_ :: _))) => false
  end.

(** The outcomes that raise an exception inside the [try] block: a rejected
    request or an unreadable body, and in the repair flow a response that is
    not ok. *)
Definition raises (p : Pending) (o : FetchOutcome) : bool :=
  match o, p with
  | FetchRejected _, _ => true
  | FetchResponse true (BodyRejected _), _ => true
  | FetchResponse false _, PendingRepair _ _ _ _ => true
  | _, _ => false
  end.

(** The response carries no usable [fixedCode]. *)
Definition lacksFixedCode (o : FetchOutcome) : bool :=
  match o with
  | FetchResponse true (BodyObject None) => true
  | FetchResponse true (BodyObject (Some [])) => true
  | _ => false
  end.

End Dispatcher.

Import Dispatcher.

(** ** The orchestration loop

    The two triggers, the timer callbacks and the event loop that runs them.
    One session is modelled, from a project start to the next. *)

Module Loop.

(** The terminal-output watcher, a React effect: the cleanup of its
    previous run, then its body. *)
Definition watcherEffect (st : State) : State :=
  let st := with_watchTimer None st in
  if negb (isRunning st) || fixingRef st || isFixing st then st
  else if MAX_FIX_ATTEMPTS <=? fixAttempts st then st
  else
    match parseError (terminalOutput st) with
    | None => st
    | Some errorInfo =>
        match file errorInfo with
        | [] => st
        | _ :: _ =>
            let now := clock st in
            let lastFixTime := default 0%Z (lastFixTimeRef st !! file errorInfo) in
            if (now - lastFixTime <? FIX_COOLDOWN_MS)%Z then st
            else if bool_decide (errorKeyOf (file errorInfo) (error errorInfo)
                                   ∈ fixedFilesRef st) then st
            else
              let st := with_lastFixTimeRef
                          (<[file errorInfo := now]> (lastFixTimeRef st)) st in
              with_watchTimer
                (Some ((now + 1500)%Z,
                       TaskFix (terminalOutput st) (file errorInfo) (error errorInfo)))
                st
        end
    end.

(** A render after a change of the watched state: [filesRef] is brought in
    line with [files] and the watcher runs. *)
Definition rerender (st : State) : State :=
  watcherEffect (with_filesRef (files st) st).

(** A call of [fixCodeError] from a callback.  When the call suspends at its
    request the flag has changed and the component renders again; when it
    returns at once the flag is back to what it was. *)
Definition dispatch (out : list jsstring) (st : State)
           (errorFile errorText : jsstring) : State :=
  match fixCodeError_start out st errorFile errorText with
  | Returned _ st' => st'
  | Awaiting p st' => rerender (with_inflight (inflight st' ++ [p]) st')
  end.

(** The data of a [RUNTIME_ERROR] message; absent fields are [undefined]. *)
Record RuntimeErrorData : Type := mkRuntimeError {
  re_message : option jsstring;
  re_stack : option jsstring;
  re_errorType : option jsstring
}.

(** A field inside a template literal. *)
Definition shown (o : option jsstring) : jsstring := default (js "undefined") o.

(** [handleRuntimeError], for a message whose type is [RUNTIME_ERROR]. *)
Definition handleRuntimeError (d : RuntimeErrorData) (st : State) : State :=
  if negb (isRunning st) then st
  else if MAX_FIX_ATTEMPTS <=? fixAttempts st then st
  else
    match Resolver.filePath
            (parseStackTrace (default [] (re_stack d))
                             (Some (default [] (re_message d)))) with
    | Some (c :: fp) =>
        let filePath := c :: fp in
        let errorContext :=
          js "Runtime Error (" ++ shown (re_errorType d) ++ js ")" ++ nl ++
          shown (re_message d) ++ nl ++ nl ++ js "Stack trace:" ++ nl ++
          shown (re_stack d) in
        let errorKey := errorKeyOf filePath errorContext in
        if bool_decide (errorKey ∈ fixedFilesRef st) then st
        else if fixingRef st || isFixing st
        then setTimeout 3000
               (TaskQueued (terminalOutput st) errorKey filePath errorContext) st
        else setTimeout 1500 (TaskFix (terminalOutput st) filePath errorContext) st
    | _ => st
    end.

(** The key a pending timer will expire, if that is what it does. *)
Definition expiryOf (t : Z * Task) : option jsstring :=
  match snd t with
  | TaskExpire k => Some k
  | _ => None
  end.

(** The body of a timer callback. *)
Definition runTask (t : Task) (st : State) : State :=
  match t with
  | TaskFix out errorFile errorText => dispatch out st errorFile errorText
  | TaskExpire errorKey => deleteFixed errorKey st
  | TaskRecheckOther out errorFile =>
      match parseError out with
      | Some newErrorInfo =>
          match file newErrorInfo with
          | [] => st
          | _ :: _ =>
              if str_eqb (file newErrorInfo) errorFile then st
              else dispatch out st (file newErrorInfo) (error newErrorInfo)
          end
      | None => st
      end
  | TaskRecheckNew out =>
      match parseError out with
      | Some newErrorInfo =>
          match file newErrorInfo with
          | [] => st
          | _ :: _ =>
              if bool_decide (errorKeyOf (file newErrorInfo) (error newErrorInfo)
                                ∈ fixedFilesRef st) then st
              else dispatch out st (file newErrorInfo) (error newErrorInfo)
          end
      | None => st
      end
  | TaskQueued out errorKey filePath errorContext =>
      if bool_decide (errorKey ∈ fixedFilesRef st) then st
      else dispatch out st filePath errorContext
  end.

(** What the host event loop delivers. *)
Inductive Event : Type :=
| Output (out : list jsstring)          (* the hook publishes a new output log *)
| Running (b : bool)                    (* the dev server starts or stops *)
| RuntimeError (d : RuntimeErrorData)   (* a report from the preview frame *)
| Tick (t : Z)                          (* the clock reaches [t] *)
| FireWatch                             (* the watcher's timeout is due *)
| Fire (i : nat)                        (* the pending timer number [i] is due *)
| Settle (i : nat) (o : FetchOutcome).  (* the request number [i] settles *)

Definition step (st : State) (ev : Event) : State :=
  match ev with
  | Output out => rerender (with_terminalOutput out st)
  | Running b => rerender (with_isRunning b st)
  | RuntimeError d => handleRuntimeError d st
  | Tick t => if (clock st <=? t)%Z then with_clock t st else st
  | FireWatch =>
      match watchTimer st with
      | Some (due, t) =>
          if (due <=? clock st)%Z then runTask t (with_watchTimer None st) else st
      | None => st
      end
  | Fire i =>
      match timers st !! i with
      | Some (due, t) =>
          if (due <=? clock st)%Z
          then runTask t (with_timers (delete i (timers st)) st)
          else st
      | None => st
      end
  | Settle i o =>
      match inflight st !! i with
      | Some p =>
          rerender (snd (fixCodeError_resume
                           (with_inflight (delete i (inflight st)) st) p o))
      | None => st
      end
  end.

Definition run (st : State) (evs : list Event) : State := fold_left step evs st.

(** A session starts idle: nothing in flight, no timer, no fixed key. *)
Definition initial (running : bool) (out : list jsstring) (fs : list SourceFile)
           (now : Z) : State :=
  mkState running out false false 0 ∅ ∅ fs fs 0 [] [] [] [] [] None now.

(** The invariant of the loop: the flag is set exactly while one request
    is in flight, the key of that request is not marked fixed, and every
    fixed-key expiry that is pending belongs to a key that is marked, one
    expiry per key. *)
Record wf (st : State) : Prop := mkWf {
  wf_flight :
    if fixingRef st then exists p, inflight st = [p] else inflight st = [];
  wf_keys :
    forall p, p ∈ inflight st -> pendingKey p ∉ fixedFilesRef st;
  wf_expiry :
    forall t k, t ∈ timers st -> expiryOf t = Some k -> k ∈ fixedFilesRef st;
  wf_unique : NoDup (omap expiryOf (timers st));
  wf_watch : forall t, watchTimer st = Some t -> expiryOf t = None
}.

(** The key [k] is held until [bound]: it is marked fixed and no pending
    expiry can remove it before [bound]. *)
Definition held (k : jsstring) (bound : Z) (st : State) : Prop :=
  k ∈ fixedFilesRef st /\
  (forall t, t ∈ timers st -> expiryOf t = Some k -> (bound <= fst t)%Z) /\
  (bound - 15000 <= clock st)%Z.

End Loop.

Import Loop.

(** ** A declarative reading of the patterns *)

Section Words.

(** The words a pattern can consume, without priorities. *)
Inductive matches : regex -> jsstring -> Prop :=
| M_Eps : matches Eps []
| M_Chr p c : p c = true -> matches (Chr p) [c]
| M_Seq r1 r2 w1 w2 :
    matches r1 w1 -> matches r2 w2 -> matches (Seq r1 r2) (w1 ++ w2)
| M_AltL r1 r2 w : matches r1 w -> matches (Alt r1 r2) w
| M_AltR r1 r2 w : matches r2 w -> matches (Alt r1 r2) w
| M_OptNone r : matches (Opt r) []
| M_OptSome r w : matches r w -> matches (Opt r) w
| M_Star p w : forallb p w = true -> matches (Star p) w
| M_Grp i r w : matches r w -> matches (Grp i r) w
| M_Eos : matches Eos [].

(** The group numbers a pattern can set. *)
Fixpoint groups (r : regex) : list nat :=
  match r with
  | Eps | Chr _ | Star _ | Eos => []
  | Seq r1 r2 | Alt r1 r2 => groups r1 ++ groups r2
  | Opt r1 => groups r1
  | Grp i r1 => i :: groups r1
  end.

(** The run of a class stops at the end of the text or at a non-member. *)
Definition stops (p : N -> bool) (s : jsstring) : Prop :=
  match s with
  | [] => True
  | c :: _ => p c = false
  end.

(** A project-root prefix in front of a path: none, or [/home/<name>/]. *)
Definition homeRoot (root : jsstring) : Prop :=
  root = [] \/
  exists u, u <> [] /\ forallb (none_of (js "/")) u = true /\
            root = js "/home/" ++ u ++ js "/".

End Words.

(** ** Scenarios

    Concrete sessions used to exercise the model: a project with two
    files, a build error reported by the vite plugin, a runtime report from
    the preview frame, and a repair service that answers with new code. *)

Module Scenario.

Definition barFile : SourceFile :=
  mkFile (js "/src/pages/Bar.tsx") (js "export const Bar = 1").

Definition appFile : SourceFile :=
  mkFile (js "/src/App.tsx") (js "export default App").

(** The output log after the vite plugin reported an error in [p]. *)
Definition viteOut (p : string) : list jsstring :=
  [js "[plugin:vite:react-babel] Unexpected token (12:3)";
   js "File: /home/project/" ++ js p ++ js ":12:3"].

(** The candidate the classifier makes of that log. *)
Definition viteErrorText (p : string) : jsstring :=
  match parseError (viteOut p) with
  | Some c => error c
  | None => []
  end.

(** A runtime report that points into [src/pages/Bar.tsx]. *)
Definition barReport : RuntimeErrorData :=
  mkRuntimeError (Some (js "x is not defined"))
                 (Some (js "at Bar (https://x.io/src/pages/Bar.tsx:10:5)"))
                 (Some (js "GLOBAL_ERROR")).

Definition barContext : jsstring :=
  js "Runtime Error (GLOBAL_ERROR)" ++ nl ++ js "x is not defined" ++ nl ++ nl ++
  js "Stack trace:" ++ nl ++ js "at Bar (https://x.io/src/pages/Bar.tsx:10:5)".

(** The service answers with repaired code. *)
Definition okFix (code : string) : FetchOutcome :=
  FetchResponse true (BodyObject (Some (js code))).

(** A session in which the watcher sees a build error in [Bar.tsx] at
    100000 ms and dispatches it 1.5 s later. *)
Definition watcherDispatch : list Event :=
  [Output (viteOut "src/pages/Bar.tsx"); Tick 101500; FireWatch].

Definition watcherPending : Pending :=
  PendingRepair (viteOut "src/pages/Bar.tsx") (js "src/pages/Bar.tsx")
    (errorKeyOf (js "src/pages/Bar.tsx") (viteErrorText "src/pages/Bar.tsx"))
    barFile.

(** After the fix, the sandbox logs the update, and 4 s after the first
    report the preview frame reports a runtime error in the same file,
    which is dispatched 1.5 s later. *)
Definition runtimeFollowUp : list Event :=
  [Output (viteOut "src/pages/Bar.tsx" ++ [js "Updated: src/pages/Bar.tsx"]);
   Tick 104000; RuntimeError barReport; Tick 105500; Fire 3].

(** A session that has used 49 of its 50 attempts; the log shows a build
    error in [App.tsx] that the watcher tried a second ago. *)
Definition nearBudget : State :=
  with_lastFixTimeRef {[ js "src/App.tsx" := 99000%Z ]}
    (with_fixAttempts 49
       (initial true (viteOut "src/App.tsx") [barFile; appFile] 100000)).

(** A runtime report is dispatched (attempt 50) and fixed; three seconds
    later the re-check finds the build error of the other file. *)
Definition overBudget : list Event :=
  [RuntimeError barReport; Tick 101500; Fire 0; Tick 104000;
   Settle 0 (okFix "export const Bar = 2"); Tick 107000; Fire 1].

(** The whole session: the build error is fixed, then the runtime report
    on the same file is dispatched. *)
Definition sameFileSession : list Event :=
  watcherDispatch ++ [Tick 103000; Settle 0 (okFix "export const Bar = 2")] ++
  runtimeFollowUp.

(** The watcher's dispatch is answered by a response without [fixedCode]. *)
Definition silentSession : list Event :=
  watcherDispatch ++ [Tick 103000; Settle 0 (FetchResponse true (BodyObject None))].

End Scenario.

Import Scenario.

(** ** Captures of a pattern *)

Section Captures.

(** The groups of a pattern with their bodies. *)
Fixpoint subgroups (r : regex) : list (nat * regex) :=
  match r with
  | Eps | Chr _ | Star _ | Eos => []
  | Seq r1 r2 | Alt r1 r2 => subgroups r1 ++ subgroups r2
  | Opt r1 => subgroups r1
  | Grp i r1 => (i, r1) :: subgroups r1
  end.

(** Group [i] takes part in every match of the pattern. *)
Fixpoint sets (i : nat) (r : regex) : bool :=
  match r with
  | Eps | Chr _ | Star _ | Eos | Opt _ => false
  | Seq r1 r2 => sets i r1 || sets i r2
  | Alt r1 r2 => sets i r1 && sets i r2
  | Grp j r1 => Nat.eqb i j || sets i r1
  end.

(** A capture is sound for a pattern when it is a word of the body of a
    group with its number. *)
Definition sound_capture (r : regex) (e : nat * jsstring) : Prop :=
  exists r', In (fst e, r') (subgroups r) /\ matches r' (snd e).

(** The pattern matches at position [j] of the text. *)
Definition startsMatch (r : regex) (text : jsstring) (j : nat) : bool :=
  match match_here r (drop j text) with
  | Some _ => true
  | None => false
  end.

(** The pattern matches at none of the positions before [n]. *)
Definition noMatchBefore (r : regex) (text : jsstring) (n : nat) : bool :=
  forallb (fun j => negb (startsMatch r text j)) (seq 0 n).

(** The code units that can occur in a word of the pattern. *)
Fixpoint alphabet (r : regex) (c : N) : bool :=
  match r with
  | Eps | Eos => false
  | Chr p | Star p => p c
  | Seq r1 r2 | Alt r1 r2 => alphabet r1 c || alphabet r2 c
  | Opt r1 | Grp _ r1 => alphabet r1 c
  end.

(** The code units of escape sequences: ESC, the opening bracket, the
    digits, the semicolon and the final letters m, G, K, H and F. *)
Definition escapeUnit (c : N) : bool :=
  (c =? 27) || (c =? 91) || is_digit c || (c =? 59) || one_of (js "mGKHF") c.

End Captures.

(** ** The sandbox hook: the rolling output log and its helpers *)

Module Hook.

(** [s.split(sep)] for a non-empty string separator: the pieces between the
    occurrences found from left to right.  [n] counts the code units of the
    current separator that are still to be skipped. *)
Fixpoint split_aux (sep : jsstring) (n : nat) (s acc : jsstring) : list jsstring :=
  match s with
  | [] => [rev acc]
  | c :: s' =>
      match n with
      | S n' => split_aux sep n' s' acc
      | O =>
          if startsWith sep s
          then rev acc :: split_aux sep (length sep - 1) s' []
          else split_aux sep O s' (c :: acc)
      end
  end.

Definition split (sep s : jsstring) : list jsstring := split_aux sep O s [].

(** [s.split(r)] for a pattern without groups: a match that is empty does
    not split. *)
Fixpoint split_re_aux (r : regex) (skip : nat) (s acc : jsstring) : list jsstring :=
  match s with
  | [] => [rev acc]
  | c :: s' =>
      match skip with
      | S n => split_re_aux r n s' acc
      | O =>
          match match_len r s with
          | Some (S n) => rev acc :: split_re_aux r n s' []
          | Some O | None => split_re_aux r O s' (c :: acc)
          end
      end
  end.

Definition split_re (r : regex) (s : jsstring) : list jsstring :=
  split_re_aux r O s [].

(** [a.filter(Boolean)] on strings: the empty ones are dropped. *)
Definition nonEmpty (s : jsstring) : bool :=
  match s with
  | [] => false
  | _ :: _ => true
  end.

(** [appendOutput(line)], as the update of the log it queues:
    [prev => [...prev.slice(-100), line]], unless the line is filtered. *)
Definition filtered (line : jsstring) : bool :=
  includes (js "[0K") line || includes (js "[1G") line ||
  (length (trim line) <? 2)%nat.

Definition appendOutput (line : jsstring) (prev : list jsstring) : list jsstring :=
  if filtered line then prev else slice_last 100 prev ++ [line].

(** Several calls in a row. *)
Definition appendLines (lines : list jsstring) (prev : list jsstring) : list jsstring :=
  fold_left (fun log line => appendOutput line log) lines prev.

(** The [write(data)] of the stream a process output is piped to:
    [data.split('\n').filter(Boolean).forEach(line => appendOutput(line))]. *)
Definition writeChunk (data : jsstring) (prev : list jsstring) : list jsstring :=
  appendLines (filter (fun l => nonEmpty l) (split nl data)) prev.

(** [/--(\w+)\.local-credentialless/] *)
Definition sessionRe : regex :=
  Cat [Lit (js "--"); Grp 1 (Plus is_word); Lit (js ".local-credentialless")].

(** [urlMatch ? urlMatch[1] : 'latest'] *)
Definition sessionIdOf (url : jsstring) : jsstring :=
  match regex_match sessionRe url with
  | Some urlMatch => group urlMatch 1
  | None => js "latest"
  end.

(** [/\s+/] *)
Definition spacesRe : regex := Plus is_space.

(** [command.trim().split(/\s+/)], then [parts[0]] and [parts.slice(1)]. *)
Definition commandParts (command : jsstring) : list jsstring :=
  split_re spacesRe (trim command).

(** The text does not end in white space. *)
Definition wellEnded (s : jsstring) : Prop :=
  forall a c, s = a ++ [c] -> is_space c = false.

Definition programOf (command : jsstring) : jsstring :=
  hd [] (commandParts command).

Definition argsOf (command : jsstring) : list jsstring :=
  tl (commandParts command).

(** The keys of [BASE_PACKAGE_JSON.dependencies] and [.devDependencies]. *)
Definition basePackages : list jsstring :=
  map js ["react"; "react-dom"; "react-router-dom"; "framer-motion";
          "lucide-react"; "clsx"; "tailwind-merge"; "class-variance-authority";
          "axios"; "zustand"; "date-fns";
          "@vitejs/plugin-react"; "vite"; "typescript"; "@types/react";
          "@types/react-dom"; "tailwindcss"; "postcss"; "autoprefixer"]%string.

(** [basePackages.has(pkg)] *)
Definition isBase (pkg : jsstring) : bool :=
  existsb (str_eqb pkg) basePackages.

(** One of the two loops over [Object.entries(...)]: the entries outside the
    base set, each as [`${pkg}@${version}`]. *)
Definition newOf (entries : list (jsstring * jsstring)) : list jsstring :=
  map (fun e => fst e ++ [64] ++ snd e)
      (List.filter (fun e => negb (isBase (fst e))) entries).

(** The packages to install for the parsed [dependencies] and
    [devDependencies] of a mounted or updated [package.json]. *)
Definition newPackages (dependencies devDependencies : list (jsstring * jsstring))
  : list jsstring :=
  newOf dependencies ++ newOf devDependencies.

(** [p.split('@')[0]], the name shown in the log. *)
Definition shownName (p : jsstring) : jsstring := hd [] (split [64] p).

End Hook.

Import Hook.

(** ** The error reporter of the preview frame: throttling *)

Module Reporter.

Definition ERROR_THROTTLE_MS : Z := 2000.

(** [canReportError()] at time [now]: the answer and the new
    [lastErrorTime]. *)
Definition canReportError (now lastErrorTime : Z) : bool * Z :=
  if (now - lastErrorTime <? ERROR_THROTTLE_MS)%Z then (false, lastErrorTime)
  else (true, now).

(** The times at which [sendErrorToParent] goes on to post its message, for
    calls at the times [nows], oldest first. *)
Fixpoint sentAt (lastErrorTime : Z) (nows : list Z) : list Z :=
  match nows with
  | [] => []
  | now :: rest =>
      match canReportError now lastErrorTime with
      | (true, last') => now :: sentAt last' rest
      | (false, last') => sentAt last' rest
      end
  end.

(** Each time of [ts] is at least [ERROR_THROTTLE_MS] after the one before
    it, the first one after [prev]. *)
Fixpoint spaced (prev : Z) (ts : list Z) : Prop :=
  match ts with
  | [] => True
  | t :: rest => (prev + ERROR_THROTTLE_MS <= t)%Z /\ spaced t rest
  end.

End Reporter.

Import Reporter.

(** ** The terminal widget: what it writes of the output log *)

Module Terminal.

(** [colorLine(line)] *)
Definition colorLine (line : jsstring) : jsstring :=
  if includes (js "error") line || includes (js "Error") line ||
     includes (js "ERR!") line
  then [27] ++ js "[31m" ++ line ++ [27] ++ js "[0m"
  else if includes (js "warning") line || includes (js "Warning") line ||
          includes (js "WARN") line
  then [27] ++ js "[33m" ++ line ++ [27] ++ js "[0m"
  else if includes (js "success") line || includes (js "ready") line ||
          includes (js "compiled") line || includes (js "Ready") line
  then [27] ++ js "[32m" ++ line ++ [27] ++ js "[0m"
  else if startsWith (js "$") line || startsWith (js ">") line
  then [27] ++ js "[36m" ++ line ++ [27] ++ js "[0m"
  else line.

Record TermState : Type := mkTerm {
  lastOutputIndex : nat;        (* lastOutputIndexRef.current *)
  screen : list jsstring        (* the lines given to writeln, oldest first *)
}.

Definition historyHeader : jsstring := [27] ++ js "[36m--- Session History ---" ++ [27] ++ js "[0m".
Definition historyFooter : jsstring := [27] ++ js "[36m--- End History ---" ++ [27] ++ js "[0m".

(** The effect that follows [terminalOutput], once the terminal exists. *)
Definition writeOutput (t : TermState) (terminalOutput : list jsstring) : TermState :=
  if Nat.eqb (lastOutputIndex t) 0 && (0 <? length terminalOutput)%nat
  then mkTerm (length terminalOutput)
              (screen t ++ [historyHeader] ++ map colorLine terminalOutput ++
               [historyFooter])
  else
    match drop (lastOutputIndex t) terminalOutput with
    | [] => t
    | newOutput =>
        mkTerm (length terminalOutput) (screen t ++ map colorLine newOutput)
    end.

End Terminal.

Import Terminal.

(** ** The project files: edits and modifications from the chat *)

Module Project.

(** [path.startsWith('/') ? path : '/' + path] *)
Definition normalizePath (p : jsstring) : jsstring :=
  if startsWith [47] p then p else [47] ++ p.

(** The update of [files] for one entry of [modifiedFiles]:
    replace where the path exists, append otherwise. *)
Definition applyModified (p code : jsstring) (prev : list SourceFile) : list SourceFile :=
  match find (fun f => str_eqb (path f) p) prev with
  | Some _ =>
      map (fun f => if str_eqb (path f) p then mkFile (path f) code else f) prev
  | None => prev ++ [mkFile p code]
  end.

(** The loop over [modifiedFiles] of a [modify] answer. *)
Definition applyModifiedFiles (modifiedFiles prev : list SourceFile) : list SourceFile :=
  fold_left (fun fs m => applyModified (normalizePath (path m)) (content m) fs)
            modifiedFiles prev.

(** [handleFileChange(path, content)] on [files]. *)
Definition handleFileChange (p code : jsstring) (prev : list SourceFile) : list SourceFile :=
  map (fun f => if str_eqb (path f) p then mkFile (path f) code else f) prev.

(** The files of a loaded project: every path is made absolute. *)
Definition loadedFiles (projectFiles : list SourceFile) : list SourceFile :=
  map (fun f => mkFile (normalizePath (path f)) (content f)) projectFiles.

End Project.

Import Project.

(** ** Further invariants of the loop *)

Section LoopInvariants.

(** The counters agree: every fix counted and every dispatch in flight has
    its request, and every request has its attempt. *)
Definition accounted (st : State) : Prop :=
  fixCount st + N.of_nat (length (inflight st)) <= N.of_nat (length (requests st)) /\
  N.of_nat (length (requests st)) <= fixAttempts st.

(** The key [k] is kept for the session: it is marked fixed and no pending
    timer will expire it. *)
Definition kept (k : jsstring) (st : State) : Prop :=
  k ∈ fixedFilesRef st /\
  forall t, t ∈ timers st -> expiryOf t <> Some k.

(** The loop is switched off: the budget is used up, nothing is in flight
    and the only timers left are expiries of fixed keys. *)
Definition exhausted (st : State) : Prop :=
  MAX_FIX_ATTEMPTS <= fixAttempts st /\
  fixingRef st = false /\
  inflight st = [] /\
  watchTimer st = None /\
  forall t, t ∈ timers st -> expiryOf t <> None.

(** The watcher's timeout, when it is pending, is the dispatch of the
    candidate of the current output log, set 1.5 s ahead of the time
    recorded for its file. *)
Definition watchCurrent (st : State) : Prop :=
  forall due t,
    watchTimer st = Some (due, t) ->
    exists c,
      parseError (terminalOutput st) = Some c /\
      t = TaskFix (terminalOutput st) (file c) (error c) /\
      lastFixTimeRef st !! file c = Some (due - 1500)%Z.

(** The output log and the file a dispatch in flight was made with: the
    variables its re-checks close over. *)
Definition pendingOut (p : Pending) : list jsstring :=
  match p with
  | PendingCreate out _ _ _ _ => out
  | PendingRepair out _ _ _ => out
  end.

Definition pendingFile (p : Pending) : jsstring :=
  match p with
  | PendingCreate _ errorFile _ _ _ => errorFile
  | PendingRepair _ errorFile _ _ => errorFile
  end.

(** The error text [handleRuntimeError] makes of a report. *)
Definition runtimeContext (d : RuntimeErrorData) : jsstring :=
  js "Runtime Error (" ++ shown (re_errorType d) ++ js ")" ++ nl ++
  shown (re_message d) ++ nl ++ nl ++ js "Stack trace:" ++ nl ++
  shown (re_stack d).

(** The file [handleRuntimeError] reads off a report. *)
Definition runtimeFile (d : RuntimeErrorData) : option jsstring :=
  Resolver.filePath
    (parseStackTrace (default [] (re_stack d)) (Some (default [] (re_message d)))).

(** The state a call of [fixCodeError] leaves when it returns or suspends. *)
Definition stateOf (s : Started) : State :=
  match s with
  | Returned _ st => st
  | Awaiting _ st => st
  end.

(** The request a call of [fixCodeError] is suspended at, if it is. *)
Definition pendingOf (s : Started) : option Pending :=
  match s with
  | Returned _ _ => None
  | Awaiting p _ => Some p
  end.




(** The project of [st'] extends the project of [st]: the same paths in the
    same order, then new ones. *)
Definition grows (st st' : State) : Prop :=
  exists more, map path (files st') = map path (files st) ++ more.

End LoopInvariants.

(** ** A session that creates a missing component *)

Module Sessions.

(** The output log of the design document's missing-import scenario. *)
Definition widgetOut : list jsstring :=
  [js "Failed to resolve import './Widget' from 'src/App.tsx'"].

Definition widgetErrorText : jsstring :=
  match parseError widgetOut with
  | Some c => error c
  | None => []
  end.

(** The watcher sees the error at 100000 ms and dispatches it 1.5 s later. *)
Definition widgetDispatch : list Event :=
  [Output widgetOut; Tick 101500; FireWatch].

(** A day later the same error is in the log again; every timer that was
    pending has fired. *)
Definition nextDay : list Event :=
  [Tick 86400000; Fire 0; Fire 0; Output []; Output widgetOut;
   Tick 86401500; FireWatch].

End Sessions.

(** ** Sample data for the project and the reporter *)

Module Samples.

Definition cardFile : SourceFile :=
  mkFile (js "src/Card.tsx") (js "export const Card = 1").

Definition newBar : SourceFile :=
  mkFile (js "/src/pages/Bar.tsx") (js "export const Bar = 3").

End Samples.
(** ** Facts about strings *)

Section StringFacts.

Lemma startsWith_spec (p s : jsstring) :
  startsWith p s = true <-> exists t, s = p ++ t.
Proof.
  revert s. induction p as [|a p IH]; intros s; simpl.
  - split; [intros _; exists s; reflexivity | reflexivity].
  - destruct s as [|b s]; simpl.
    + split; [discriminate | intros [t Ht]; discriminate].
    + rewrite andb_true_iff, N.eqb_eq, IH. split.
      * intros [-> [t ->]]. exists t. reflexivity.
      * intros [t Ht]. injection Ht as -> ->. split; [reflexivity | exists t; reflexivity].
Qed.

Lemma startsWith_app (p t : jsstring) : startsWith p (p ++ t) = true.
Proof. apply startsWith_spec. exists t. reflexivity. Qed.

Lemma startsWith_shorter (p q s : jsstring) :
  startsWith (p ++ q) s = true -> startsWith p s = true.
Proof.
  rewrite !startsWith_spec. intros [t ->]. exists (q ++ t).
  rewrite <- app_assoc. reflexivity.
Qed.

Lemma includes_spec (p s : jsstring) :
  includes p s = true <-> exists a b, s = a ++ p ++ b.
Proof.
  induction s as [|c s IH].
  - simpl. rewrite orb_false_r, startsWith_spec. split.
    + intros [t Ht]. exists [], t. exact Ht.
    + intros [a [b Hab]]. destruct a; [exists b; exact Hab | discriminate].
  - cbn [includes]. rewrite orb_true_iff, IH, startsWith_spec. split.
    + intros [[t Ht] | [a [b Hab]]].
      * exists [], t. exact Ht.
      * exists (c :: a), b. rewrite Hab. reflexivity.
    + intros [a [b Hab]]. destruct a as [|c' a].
      * left. exists b. exact Hab.
      * right. injection Hab as -> ->. exists a, b. reflexivity.
Qed.

Lemma includes_shorter (p q s : jsstring) :
  includes (p ++ q) s = true -> includes p s = true.
Proof.
  rewrite !includes_spec. intros [a [b ->]]. exists a, (q ++ b).
  rewrite <- app_assoc. reflexivity.
Qed.

Lemma includes_false_app (p a b : jsstring) :
  includes p (a ++ b) = false -> includes p b = false.
Proof.
  intros H. destruct (includes p b) eqn:E; [|reflexivity].
  apply includes_spec in E as [x [y ->]].
  assert (includes p (a ++ x ++ p ++ y) = true) as H'.
  { apply includes_spec. exists (a ++ x), y. rewrite <- app_assoc. reflexivity. }
  congruence.
Qed.

Lemma includes_false_inside (p a w b : jsstring) :
  includes p (a ++ w ++ b) = false -> includes p w = false.
Proof.
  intros H. destruct (includes p w) eqn:E; [|reflexivity].
  apply includes_spec in E as [x [y ->]].
  assert (includes p (a ++ (x ++ p ++ y) ++ b) = true) as H'.
  { apply includes_spec. exists (a ++ x), (y ++ b).
    rewrite <- !app_assoc. reflexivity. }
  congruence.
Qed.

(** Before the first occurrence of [p] no suffix starts with [p]. *)
Lemma indexOf_first (p s : jsstring) (n : nat) :
  indexOf p s = Some n ->
  startsWith p (drop n s) = true /\
  forall i, (i < n)%nat -> startsWith p (drop i s) = false.
Proof.
  revert n. induction s as [|c s IH]; intros n; cbn [indexOf].
  - destruct (startsWith p []) eqn:E; [|discriminate].
    intros [= <-]. split; [exact E | intros i Hi; lia].
  - destruct (startsWith p (c :: s)) eqn:E.
    + intros [= <-]. split; [exact E | intros i Hi; lia].
    + destruct (indexOf p s) as [m|] eqn:Em; [|discriminate].
      intros [= <-]. destruct (IH m eq_refl) as [Hm Hlt]. split; [exact Hm|].
      intros [|i] Hi; [exact E | apply Hlt; lia].
Qed.

Lemma take_consumed {A} (w s' : list A) :
  take (length (w ++ s') - length s') (w ++ s') = w.
Proof.
  rewrite length_app.
  replace (length w + length s' - length s')%nat with (length w) by lia.
  apply take_app_length.
Qed.

End StringFacts.

(** ** Facts about the matcher *)

Section RegexFacts.

Lemma star_sound {A} p s (k : jsstring -> option A) a :
  star p s k = Some a ->
  exists w s', s = w ++ s' /\ forallb p w = true /\ k s' = Some a.
Proof.
  revert a. induction s as [|c s IH]; intros a; simpl.
  - intros H. exists [], []. auto.
  - destruct (p c) eqn:Hc.
    + destruct (star p s k) as [b|] eqn:E.
      * intros [= <-]. destruct (IH b eq_refl) as (w & s' & -> & Hw & Hk).
        exists (c :: w), s'. simpl. rewrite Hc, Hw. auto.
      * intros H. exists [], (c :: s). auto.
    + intros H. exists [], (c :: s). auto.
Qed.

(** Soundness of the matcher: a success consumed a word of the pattern
    and passed the rest to the continuation, with captures only added. *)
Lemma rmatch_sound {A} r :
  forall s cs (k : jsstring -> caps -> option A) a,
    rmatch r s cs k = Some a ->
    exists w s' new,
      s = w ++ s' /\ matches r w /\ k s' (new ++ cs) = Some a /\
      Forall (fun e => In (fst e) (groups r)) new.
Proof.
  induction r as [|p|r1 IH1 r2 IH2|r1 IH1 r2 IH2|r1 IH1|p|i r1 IH1|];
    intros s cs k a; simpl.
  - intros H. exists [], s, []. repeat split; auto using matches.
  - destruct s as [|c s]; [discriminate|].
    destruct (p c) eqn:Hc; [|discriminate].
    intros H. exists [c], s, []. repeat split; auto using matches.
  - intros H. apply IH1 in H as (w1 & s1 & n1 & -> & M1 & H & F1).
    apply IH2 in H as (w2 & s2 & n2 & -> & M2 & H & F2).
    exists (w1 ++ w2), s2, (n2 ++ n1). rewrite <- !app_assoc.
    repeat split; auto using matches.
    apply Forall_app. split; eapply Forall_impl; eauto; simpl;
      intros e He; apply in_or_app; auto.
  - destruct (rmatch r1 s cs k) as [b|] eqn:E.
    + intros [= <-]. apply IH1 in E as (w & s' & n & -> & M & H & F).
      exists w, s', n. repeat split; auto using matches.
      eapply Forall_impl; eauto; simpl; intros e He; apply in_or_app; auto.
    + intros H. apply IH2 in H as (w & s' & n & -> & M & H & F).
      exists w, s', n. repeat split; auto using matches.
      eapply Forall_impl; eauto; simpl; intros e He; apply in_or_app; auto.
  - destruct (rmatch r1 s cs k) as [b|] eqn:E.
    + intros [= <-]. apply IH1 in E as (w & s' & n & -> & M & H & F).
      exists w, s', n. repeat split; auto using matches.
    + intros H. exists [], s, []. repeat split; auto using matches.
  - intros H. apply star_sound in H as (w & s' & -> & Hw & H).
    exists w, s', []. repeat split; auto using matches.
  - intros H. apply IH1 in H as (w & s' & n & -> & M & H & F).
    rewrite take_consumed in H.
    exists w, s', ((i, w) :: n). repeat split; auto using matches.
    constructor; [left; reflexivity|].
    eapply Forall_impl; eauto; simpl; intros e He; right; exact He.
  - destruct s as [|c s]; [|discriminate].
    intros H. exists [], [], []. repeat split; auto using matches.
Qed.

Lemma match_here_sound r s s' cs :
  match_here r s = Some (s', cs) ->
  exists w, s = w ++ s' /\ matches r w /\
            Forall (fun e => In (fst e) (groups r)) cs.
Proof.
  unfold match_here. intros H.
  apply rmatch_sound in H as (w & s1 & n & -> & M & [= <- <-] & F).
  exists w. rewrite app_nil_r. auto.
Qed.

Lemma match_here_text r s s' cs :
  match_here r s = Some (s', cs) ->
  exists w, s = w ++ s' /\ take (length s - length s') s = w /\ matches r w.
Proof.
  intros H. apply match_here_sound in H as (w & -> & M & _).
  exists w. rewrite take_consumed. auto.
Qed.

Lemma search_from_eq i r s :
  search_from i r s =
  match match_here r s with
  | Some (s', cs) => Some (mkMatch i (take (length s - length s') s) cs)
  | None => match s with
            | [] => None
            | _ :: s' => search_from (S i) r s'
            end
  end.
Proof. destruct s; reflexivity. Qed.

(** A successful search found a word of the pattern inside the text. *)
Lemma search_from_sound r s i m :
  search_from i r s = Some m ->
  exists a b, s = a ++ m_text m ++ b /\ matches r (m_text m) /\
              (m_index m = i + length a)%nat.
Proof.
  revert i m. induction s as [|c s IH]; intros i m; rewrite search_from_eq;
    destruct (match_here r _) as [[s' cs]|] eqn:E.
  - apply match_here_text in E as (w & Hw & Ht & M).
    rewrite Ht. intros [= <-]. cbn [m_text m_index]. exists [], s'.
    split; [exact Hw|]. split; [exact M | simpl; lia].
  - discriminate.
  - apply match_here_text in E as (w & Hw & Ht & M).
    rewrite Ht. intros [= <-]. cbn [m_text m_index]. exists [], s'.
    split; [exact Hw|]. split; [exact M | simpl; lia].
  - intros H. apply IH in H as (a & b & -> & M & Hi).
    exists (c :: a), b. simpl. split; [reflexivity|]. split; [exact M | lia].
Qed.

(** The start index does not decide whether a search succeeds. *)
Lemma search_from_None r s i j :
  search_from i r s = None -> search_from j r s = None.
Proof.
  revert i j. induction s as [|c s IH]; intros i j; cbn [search_from];
    destruct (match_here r _) as [[s' cs]|]; try discriminate; eauto.
Qed.

(** Where the pattern matches nowhere, the global replace is the identity. *)
Lemma remove_all_no_match r s :
  regex_match r s = None -> remove_all r s = s.
Proof.
  unfold regex_match, remove_all.
  enough (forall i, search_from i r s = None -> remove_all_aux r O s = s) by eauto.
  induction s as [|c s IH]; intros i; [reflexivity|].
  cbn [search_from remove_all_aux]. unfold match_len.
  destruct (match_here r (c :: s)) as [[s' cs]|]; [discriminate|].
  intros H. f_equal. eapply IH. exact H.
Qed.

End RegexFacts.


Section MoreRegexFacts.



Lemma matches_Seq_inv r1 r2 w :
  matches (Seq r1 r2) w ->
  exists w1 w2, w = w1 ++ w2 /\ matches r1 w1 /\ matches r2 w2.
Proof. inversion 1; subst; eauto. Qed.

Lemma matches_Grp_inv i r w : matches (Grp i r) w -> matches r w.
Proof. inversion 1; subst; assumption. Qed.

Lemma matches_Lit l w : matches (Lit l) w -> w = l.
Proof.
  revert w. induction l as [|c l IH]; intros w; simpl.
  - inversion 1; reflexivity.
  - intros H. apply matches_Seq_inv in H as (w1 & w2 & -> & H1 & H2).
    apply IH in H2 as ->. inversion H1 as [|p d Hd| | | | | | | |]; subst.
    apply N.eqb_eq in Hd as ->. reflexivity.
Qed.







End MoreRegexFacts.

(** ** The classifier without a source path *)




(** ** The output normalizer *)

(** C7, as stated, fails: deleting a bracket group can bring the pieces of
    another one together. *)
Lemma stripAnsi_not_idempotent :
  stripAnsi (stripAnsi (js "[[1m1m")) <> stripAnsi (js "[[1m1m").
Proof. vm_compute. discriminate. Qed.

(** C7 (amended). On text that is already clean, that is text in which
    neither pattern of the normalizer matches, the normalizer changes
    nothing, so applying it again changes nothing either. *)
Theorem stripAnsi_clean_noop (s : jsstring) :
  isClean s = true ->
  stripAnsi s = s /\ stripAnsi (stripAnsi s) = stripAnsi s.
Proof.
  unfold isClean, stripAnsi.
  destruct (regex_match ansiRe s) eqn:Ea; [discriminate|].
  destruct (regex_match bracketRe s) eqn:Eb; [discriminate|].
  intros _.
  rewrite !(remove_all_no_match ansiRe s Ea).
  rewrite !(remove_all_no_match bracketRe s Eb).
  rewrite (remove_all_no_match ansiRe s Ea).
  rewrite (remove_all_no_match bracketRe s Eb).
  split; reflexivity.
Qed.

Lemma stripAnsi_clean_noop_witness :
  stripAnsi (js "[plugin:vite:css] ok") = js "[plugin:vite:css] ok" /\
  stripAnsi (stripAnsi (js "[plugin:vite:css] ok")) = stripAnsi (js "[plugin:vite:css] ok").
Proof.
  apply stripAnsi_clean_noop. vm_compute. reflexivity.
Defined.

(** ** The build-plugin rule of the classifier *)

Section ViteRule.

Lemma rmatch_Lit {A} l s cs (k : jsstring -> caps -> option A) :
  rmatch (Lit l) s cs k =
  if startsWith l s then k (drop (length l) s) cs else None.
Proof.
  revert s. induction l as [|c l IH]; intros s; [reflexivity|].
  cbn [Lit rmatch]. destruct s as [|b s]; [reflexivity|].
  unfold Ch. cbn [rmatch startsWith]. destruct (c =? b); [|reflexivity].
  rewrite IH. reflexivity.
Qed.

Lemma rmatch_Lit_app {A} l t cs (k : jsstring -> caps -> option A) :
  rmatch (Lit l) (l ++ t) cs k = k t cs.
Proof. rewrite rmatch_Lit, startsWith_app, drop_app_length. reflexivity. Qed.

(** A greedy run goes through a prefix of class members whenever the
    match succeeds beyond it. *)
Lemma star_app_run {A} p run s (k : jsstring -> option A) a :
  forallb p run = true -> star p s k = Some a -> star p (run ++ s) k = Some a.
Proof.
  induction run as [|c run IH]; intros Hrun Hs; [exact Hs|].
  simpl in Hrun. apply andb_true_iff in Hrun as [Hc Hrun].
  simpl. rewrite Hc, (IH Hrun Hs). reflexivity.
Qed.

Lemma star_stops {A} p s (k : jsstring -> option A) :
  stops p s -> star p s k = k s.
Proof. destruct s as [|c s]; simpl; [reflexivity|]. intros ->. reflexivity. Qed.

Lemma search_from_skip r n : forall s i,
  (forall j, (j < n)%nat -> match_here r (drop j s) = None) ->
  (n <= length s)%nat ->
  search_from i r s = search_from (i + n) r (drop n s).
Proof.
  induction n as [|n IH]; intros s i Hnone Hlen.
  - rewrite Nat.add_0_r. reflexivity.
  - destruct s as [|c s]; [simpl in Hlen; lia|].
    rewrite search_from_eq. pose proof (Hnone O ltac:(lia)) as H0.
    rewrite drop_0 in H0. rewrite H0.
    rewrite (IH s (S i)).
    + replace (S i + n)%nat with (i + S n)%nat by lia. reflexivity.
    + intros j Hj. apply (Hnone (S j)). lia.
    + simpl in Hlen. lia.
Qed.

Lemma stops_not_head p c s d :
  stops p (c :: s) -> p d = true -> (d =? c) = false.
Proof.
  simpl. intros Hc Hd. apply N.eqb_neq. intros ->. congruence.
Qed.

(** The extension is found by giving back the code units of the run one at
    a time, from the end of the path. *)
Lemma tsExt_unfold {A} s cs (k : jsstring -> caps -> option A) :
  rmatch tsExt s cs k =
  if startsWith [46; 116; 115] s
  then match rmatch (Ch 120) (drop 3 s) cs k with
       | Some a => Some a
       | None => k (drop 3 s) cs
       end
  else None.
Proof.
  unfold tsExt. cbn [Cat fold_right rmatch]. rewrite rmatch_Lit.
  change (js ".ts") with [46; 116; 115]. reflexivity.
Qed.

Lemma star_ext {A} ext rest cs (k2 : jsstring -> caps -> option A) a :
  ext = js ".ts" \/ ext = js ".tsx" ->
  stops path_char rest ->
  k2 rest cs = Some a ->
  star path_char (ext ++ rest) (fun s'' => rmatch tsExt s'' cs k2) = Some a.
Proof.
  intros Hext Hrest Hk.
  assert (rmatch tsExt rest cs k2 = None) as Hend.
  { rewrite tsExt_unfold. destruct rest as [|c rest]; [reflexivity|].
    cbn [startsWith]. rewrite (stops_not_head _ _ _ 46 Hrest eq_refl). reflexivity. }
  assert (rmatch (Ch 120) rest cs k2 = None) as Hx.
  { destruct rest as [|c rest]; [reflexivity|].
    unfold Ch. cbn [rmatch]. rewrite (stops_not_head _ _ _ 120 Hrest eq_refl). reflexivity. }
  destruct Hext as [-> | ->].
  - change (js ".ts") with [46; 116; 115]. cbn [app star].
    change (path_char 46) with true. change (path_char 116) with true.
    change (path_char 115) with true. cbv iota.
    rewrite (star_stops _ _ _ Hrest), Hend.
    rewrite !tsExt_unfold. cbn [startsWith drop N.eqb Pos.eqb andb].
    rewrite drop_0, Hx. exact Hk.
  - change (js ".tsx") with [46; 116; 115; 120]. cbn [app star].
    change (path_char 46) with true. change (path_char 116) with true.
    change (path_char 115) with true. change (path_char 120) with true. cbv iota.
    rewrite (star_stops _ _ _ Hrest), Hend.
    rewrite !tsExt_unfold. cbn [startsWith drop N.eqb Pos.eqb andb].
    unfold Ch. cbn [rmatch]. rewrite N.eqb_refl, Hk. reflexivity.
Qed.

Lemma take_path (path rest : jsstring) (b : jsstring) :
  b = path ++ rest -> take (length b - length rest) b = path.
Proof. intros ->. apply take_consumed. Qed.

(** The capture group of the [File:] pattern takes the whole path. *)
Lemma group_src {A} body ext rest cs (k : jsstring -> caps -> option A) a :
  body <> [] -> forallb path_char body = true ->
  ext = js ".ts" \/ ext = js ".tsx" ->
  stops path_char rest ->
  k rest ((1%nat, js "src/" ++ body ++ ext) :: cs) = Some a ->
  rmatch (Grp 1 (Cat [Lit (js "src/"); Plus path_char; tsExt]))
         (js "src/" ++ body ++ ext ++ rest) cs k = Some a.
Proof.
  intros Hne Hbody Hext Hrest Hk.
  cbn [rmatch Cat fold_right]. rewrite rmatch_Lit_app.
  destruct body as [|b0 body]; [congruence|].
  simpl in Hbody. apply andb_true_iff in Hbody as [Hb0 Hbody].
  unfold Plus. cbn [rmatch app]. rewrite Hb0.
  apply star_app_run; [exact Hbody|].
  apply (star_ext ext rest cs
           (fun s1 c1 => k s1 ((1%nat,
              take (length (js "src/" ++ b0 :: body ++ ext ++ rest) - length s1)
                   (js "src/" ++ b0 :: body ++ ext ++ rest)) :: c1)));
    [exact Hext | exact Hrest |].
  rewrite (take_path (js "src/" ++ (b0 :: body) ++ ext)).
  - exact Hk.
  - rewrite <- !app_assoc. reflexivity.
Qed.

Lemma rmatch_Cat_cons {A} r l s cs (k : jsstring -> caps -> option A) :
  rmatch (Cat (r :: l)) s cs k = rmatch r s cs (fun s1 c1 => rmatch (Cat l) s1 c1 k).
Proof. reflexivity. Qed.

Lemma rmatch_Cat_nil {A} s cs (k : jsstring -> caps -> option A) :
  rmatch (Cat []) s cs k = k s cs.
Proof. reflexivity. Qed.

(** The optional project root is consumed when it is there. *)
Lemma home_prefix {A} root t cs (k : jsstring -> caps -> option A) a :
  homeRoot root -> startsWith (js "src/") t = true ->
  k t cs = Some a ->
  rmatch homePrefix (root ++ t) cs k = Some a.
Proof.
  intros Hroot Ht Hk. unfold homePrefix. cbn [rmatch].
  destruct Hroot as [-> | (u & Hu & Hall & ->)].
  - rewrite rmatch_Cat_cons, rmatch_Lit.
    apply startsWith_spec in Ht as [t' ->]. simpl app.
    change (startsWith (js "/home/") (js "src/" ++ t')) with false.
    cbv iota. exact Hk.
  - rewrite <- !app_assoc. rewrite rmatch_Cat_cons, rmatch_Lit_app.
    destruct u as [|u0 u]; [congruence|].
    simpl in Hall. apply andb_true_iff in Hall as [Hu0 Hall].
    rewrite rmatch_Cat_cons. unfold Plus. cbn [rmatch app]. rewrite Hu0.
    rewrite (star_app_run _ u _ _ a Hall); [reflexivity|].
    change (js "/") with [47]. cbn [app].
    rewrite star_stops by reflexivity.
    rewrite rmatch_Cat_cons. unfold Ch. cbn [rmatch]. rewrite N.eqb_refl.
    rewrite rmatch_Cat_nil. exact Hk.
Qed.

Lemma cap_get_skip (i : nat) (new cs : caps) :
  Forall (fun e => fst e <> i) new -> cap_get i (new ++ cs) = cap_get i cs.
Proof.
  induction 1 as [|[j v] new Hj _ IH]; [reflexivity|].
  simpl in *. destruct (Nat.eqb_spec i j); [congruence | exact IH].
Qed.

(** The optional line number after the path always lets the match finish,
    and only sets group 2. *)
Lemma line_suffix rest cs :
  exists s' new,
    rmatch (Cat [Opt (Cat [Ch 58; Grp 2 (Plus is_digit)])]) rest cs
           (fun s c => Some (s, c)) = Some (s', new ++ cs) /\
    Forall (fun e => fst e <> 1%nat) new.
Proof.
  rewrite rmatch_Cat_cons. cbn [rmatch].
  destruct (rmatch (Cat [Ch 58; Grp 2 (Plus is_digit)]) rest cs _) as [a|] eqn:E.
  - apply rmatch_sound in E as (w & s' & new & _ & _ & E & F).
    rewrite rmatch_Cat_nil in E. injection E as <-.
    exists s', new. split; [reflexivity|].
    eapply Forall_impl; [exact F|]. simpl. intros e [<- | []]. discriminate.
  - exists rest, []. rewrite rmatch_Cat_nil. split; [reflexivity | constructor].
Qed.

(** At a [File:] annotation the pattern matches and its first group is the
    annotated path, taken relative to [src/]. *)
Lemma fileLineRe_here ws root body ext rest :
  forallb is_space ws = true -> homeRoot root ->
  body <> [] -> forallb path_char body = true ->
  ext = js ".ts" \/ ext = js ".tsx" ->
  stops path_char rest ->
  exists s' cs,
    match_here fileLineRe
      (js "File:" ++ ws ++ root ++ js "src/" ++ body ++ ext ++ rest) = Some (s', cs) /\
    cap_get 1 cs = Some (js "src/" ++ body ++ ext).
Proof.
  intros Hws Hroot Hne Hbody Hext Hrest.
  destruct (line_suffix rest [(1%nat, js "src/" ++ body ++ ext)]) as (s' & new & Htail & Hnew).
  exists s', (new ++ [(1%nat, js "src/" ++ body ++ ext)]). split.
  - unfold match_here, fileLineRe.
    rewrite rmatch_Cat_cons, rmatch_Lit_app, rmatch_Cat_cons. cbn [rmatch].
    apply star_app_run; [exact Hws|].
    rewrite star_stops.
    + rewrite rmatch_Cat_cons. apply home_prefix; [exact Hroot | apply startsWith_app |].
      rewrite rmatch_Cat_cons. apply group_src; assumption.
    + destruct Hroot as [-> | (u & _ & _ & ->)]; reflexivity.
  - rewrite cap_get_skip by exact Hnew. reflexivity.
Qed.

End ViteRule.

Lemma fileLineRe_needs_File s :
  startsWith (js "File:") s = false -> match_here fileLineRe s = None.
Proof.
  intros H. unfold match_here, fileLineRe.
  rewrite rmatch_Cat_cons, rmatch_Lit, H. reflexivity.
Qed.

(** The pattern of the inline path, whose class also leaves out the closing
    parenthesis: the same steps as for the [File:] pattern. *)
Lemma star_ext_inline {A} ext rest cs (k2 : jsstring -> caps -> option A) a :
  ext = js ".ts" \/ ext = js ".tsx" ->
  stops inline_char rest ->
  k2 rest cs = Some a ->
  star inline_char (ext ++ rest) (fun s'' => rmatch tsExt s'' cs k2) = Some a.
Proof.
  intros Hext Hrest Hk.
  assert (rmatch tsExt rest cs k2 = None) as Hend.
  { rewrite tsExt_unfold. destruct rest as [|c rest]; [reflexivity|].
    cbn [startsWith]. rewrite (stops_not_head _ _ _ 46 Hrest eq_refl). reflexivity. }
  assert (rmatch (Ch 120) rest cs k2 = None) as Hx.
  { destruct rest as [|c rest]; [reflexivity|].
    unfold Ch. cbn [rmatch]. rewrite (stops_not_head _ _ _ 120 Hrest eq_refl). reflexivity. }
  destruct Hext as [-> | ->].
  - change (js ".ts") with [46; 116; 115]. cbn [app star].
    change (inline_char 46) with true. change (inline_char 116) with true.
    change (inline_char 115) with true. cbv iota.
    rewrite (star_stops _ _ _ Hrest), Hend.
    rewrite !tsExt_unfold. cbn [startsWith drop N.eqb Pos.eqb andb].
    rewrite drop_0, Hx. exact Hk.
  - change (js ".tsx") with [46; 116; 115; 120]. cbn [app star].
    change (inline_char 46) with true. change (inline_char 116) with true.
    change (inline_char 115) with true. change (inline_char 120) with true. cbv iota.
    rewrite (star_stops _ _ _ Hrest), Hend.
    rewrite !tsExt_unfold. cbn [startsWith drop N.eqb Pos.eqb andb].
    unfold Ch. cbn [rmatch]. rewrite N.eqb_refl, Hk. reflexivity.
Qed.

Lemma group_src_inline {A} body ext rest cs (k : jsstring -> caps -> option A) a :
  body <> [] -> forallb inline_char body = true ->
  ext = js ".ts" \/ ext = js ".tsx" ->
  stops inline_char rest ->
  k rest ((1%nat, js "src/" ++ body ++ ext) :: cs) = Some a ->
  rmatch (Grp 1 (Cat [Lit (js "src/"); Plus inline_char; tsExt]))
         (js "src/" ++ body ++ ext ++ rest) cs k = Some a.
Proof.
  intros Hne Hbody Hext Hrest Hk.
  cbn [rmatch Cat fold_right]. rewrite rmatch_Lit_app.
  destruct body as [|b0 body]; [congruence|].
  simpl in Hbody. apply andb_true_iff in Hbody as [Hb0 Hbody].
  unfold Plus. cbn [rmatch app]. rewrite Hb0.
  apply star_app_run; [exact Hbody|].
  apply (star_ext_inline ext rest cs
           (fun s1 c1 => k s1 ((1%nat,
              take (length (js "src/" ++ b0 :: body ++ ext ++ rest) - length s1)
                   (js "src/" ++ b0 :: body ++ ext ++ rest)) :: c1)));
    [exact Hext | exact Hrest |].
  rewrite (take_path (js "src/" ++ (b0 :: body) ++ ext)).
  - exact Hk.
  - rewrite <- !app_assoc. reflexivity.
Qed.

(** At a path under [src/], with or without its root, the inline pattern
    matches and its group is the path relative to [src/]. *)
Lemma inlineFileRe_here root body ext rest :
  homeRoot root ->
  body <> [] -> forallb inline_char body = true ->
  ext = js ".ts" \/ ext = js ".tsx" ->
  stops inline_char rest ->
  match_here inlineFileRe (root ++ js "src/" ++ body ++ ext ++ rest)
  = Some (rest, [(1%nat, js "src/" ++ body ++ ext)]).
Proof.
  intros Hroot Hne Hbody Hext Hrest.
  unfold match_here, inlineFileRe. rewrite rmatch_Cat_cons.
  apply home_prefix; [exact Hroot | apply startsWith_app |].
  rewrite rmatch_Cat_cons. apply group_src_inline; try assumption.
  rewrite rmatch_Cat_nil. reflexivity.
Qed.

(** A search finds the match at the first position at which the pattern
    matches. *)
Lemma noMatchBefore_spec r text n j :
  noMatchBefore r text n = true -> (j < n)%nat ->
  match_here r (drop j text) = None.
Proof.
  unfold noMatchBefore. intros H Hj.
  rewrite forallb_forall in H. specialize (H j).
  assert (In j (seq 0 n)) as Hin by (apply in_seq; lia).
  apply H in Hin. unfold startsMatch in Hin.
  destruct (match_here r (drop j text)); [discriminate | reflexivity].
Qed.

Lemma regex_match_at r pre here s' cs :
  noMatchBefore r (pre ++ here) (length pre) = true ->
  match_here r here = Some (s', cs) ->
  exists m, regex_match r (pre ++ here) = Some m /\ m_caps m = cs.
Proof.
  intros Hbefore Hm. unfold regex_match.
  rewrite (search_from_skip r (length pre)).
  - rewrite drop_app_length, search_from_eq, Hm. eexists. split; reflexivity.
  - intros j Hj. apply (noMatchBefore_spec r _ (length pre)); assumption.
  - rewrite length_app. lia.
Qed.

(** The rules run on every text that holds the build-plugin marker. *)
Lemma classify_vite text :
  includes (js "[plugin:vite:") text = true ->
  classify text = first_rule [viteRule; importRule; tsRule; syntaxRule; moduleRule] text.
Proof.
  intros Hvite. unfold classify.
  rewrite (includes_shorter (js "[plugin:vite") (js ":") _ Hvite).
  rewrite !andb_false_r. reflexivity.
Qed.

(** C5, as stated, fails: an annotation that has left the window of 80
    lines is not seen, and neither is one whose path holds a space. *)
Lemma vite_annotation_not_seen :
  parseError
    ([js "[plugin:vite:react-babel] ... File: /home/project/src/components/Foo.tsx:12:3"]
       ++ repeat (js "    at transform (node_modules/vite/dist/node/chunks/dep.js)") 80)
  = None /\
  parseError
    [js "[plugin:vite:react-babel] ... File: /home/project/src/my components/Foo.tsx:12:3"]
  = None.
Proof. vm_compute. split; reflexivity. Qed.

(** C5 (amended). The rules see the last 80 lines of the output, joined and
    normalized.  When that text holds the build-plugin marker
    [[plugin:vite:]:
    - if it holds a [File:] annotation of the shape the pattern recognizes
      ([File:], optional white space, an optional [/home/<name>/] root, a
      path under [src/] that runs up to white space, a colon or the end of
      the text and ends in [.ts] or [.tsx]) and the pattern matches at no
      earlier position, [parseError] returns a candidate whose file is that
      path relative to [src/] and whose error text names it;
    - if the [File:] pattern matches nowhere in the text and the text holds
      a path under [src/] (after an optional [/home/<name>/] root, running up
      to white space, a colon, a closing parenthesis or the end of the text,
      ending in [.ts] or [.tsx]) before which the inline pattern does not
      match, the candidate's file is that path relative to [src/]. *)
Theorem parseError_vite_file_annotation :
  (forall (output : list jsstring) (pre ws root body ext rest : jsstring),
      classifierText output =
        pre ++ js "File:" ++ ws ++ root ++ js "src/" ++ body ++ ext ++ rest ->
      includes (js "[plugin:vite:") (classifierText output) = true ->
      noMatchBefore fileLineRe (classifierText output) (length pre) = true ->
      forallb is_space ws = true -> homeRoot root ->
      body <> [] -> forallb path_char body = true ->
      ext = js ".ts" \/ ext = js ".tsx" ->
      stops path_char rest ->
      parseError output =
        Some (mkCandidate (js "src/" ++ body ++ ext)
                (js "Vite Error in " ++ (js "src/" ++ body ++ ext) ++ nl ++ nl ++
                 js "Full error:" ++ nl ++ slice_last 1000 (classifierText output)))) /\
  (forall (output : list jsstring) (pre root body ext rest : jsstring),
      classifierText output = pre ++ root ++ js "src/" ++ body ++ ext ++ rest ->
      includes (js "[plugin:vite:") (classifierText output) = true ->
      regex_match fileLineRe (classifierText output) = None ->
      noMatchBefore inlineFileRe (classifierText output) (length pre) = true ->
      homeRoot root ->
      body <> [] -> forallb inline_char body = true ->
      ext = js ".ts" \/ ext = js ".tsx" ->
      stops inline_char rest ->
      parseError output =
        Some (mkCandidate (js "src/" ++ body ++ ext)
                (js "Vite Error in " ++ (js "src/" ++ body ++ ext) ++ nl ++ nl ++
                 js "Full error:" ++ nl ++ slice_last 1000 (classifierText output)))).
Proof.
  split.
  - intros output pre ws root body ext rest Htext Hvite Hbefore Hws Hroot Hne Hbody
           Hext Hrest.
    destruct (fileLineRe_here ws root body ext rest Hws Hroot Hne Hbody Hext Hrest)
      as (s' & cs & Hm & Hcap).
    rewrite Htext in Hbefore.
    destruct (regex_match_at fileLineRe pre _ s' cs Hbefore Hm) as (m & Em & Ecs).
    rewrite <- Htext in Em.
    unfold parseError. rewrite (classify_vite _ Hvite). cbn [first_rule].
    unfold viteRule. rewrite Hvite, Em. unfold group. rewrite Ecs, Hcap.
    reflexivity.
  - intros output pre root body ext rest Htext Hvite Hnone Hbefore Hroot Hne Hbody
           Hext Hrest.
    pose proof (inlineFileRe_here root body ext rest Hroot Hne Hbody Hext Hrest) as Hm.
    rewrite Htext in Hbefore.
    destruct (regex_match_at inlineFileRe pre _ _ _ Hbefore Hm) as (m & Em & Ecs).
    rewrite <- Htext in Em.
    unfold parseError. rewrite (classify_vite _ Hvite). cbn [first_rule].
    unfold viteRule. rewrite Hvite, Hnone, Em. unfold group. rewrite Ecs.
    reflexivity.
Qed.

(** The scenario of the design document, and an annotation whose root has
    two directories, as instances of the theorem. *)
Lemma parseError_vite_file_annotation_witness :
  parseError
    [js "[plugin:vite:react-babel] ... File: /home/project/src/components/Foo.tsx:12:3"]
  = Some (mkCandidate (js "src/components/Foo.tsx")
            (js "Vite Error in src/components/Foo.tsx" ++ nl ++ nl ++
             js "Full error:" ++ nl ++
             js "[plugin:vite:react-babel] ... File: /home/project/src/components/Foo.tsx:12:3")) /\
  parseError
    [js "[plugin:vite:react-babel] File: x"; js "File: /home/projects/abc/src/Other.tsx:3:1"]
  = Some (mkCandidate (js "src/Other.tsx")
            (js "Vite Error in src/Other.tsx" ++ nl ++ nl ++
             js "Full error:" ++ nl ++
             js "[plugin:vite:react-babel] File: x" ++ nl ++
             js "File: /home/projects/abc/src/Other.tsx:3:1")).
Proof.
  split.
  - apply (proj1 parseError_vite_file_annotation
             [js "[plugin:vite:react-babel] ... File: /home/project/src/components/Foo.tsx:12:3"]
             (js "[plugin:vite:react-babel] ... ") (js " ") (js "/home/project/")
             (js "components/Foo") (js ".tsx") (js ":12:3")).
    + vm_compute. reflexivity.
    + vm_compute. reflexivity.
    + vm_compute. reflexivity.
    + vm_compute. reflexivity.
    + right. exists (js "project"). split; [discriminate|]. split; vm_compute; reflexivity.
    + discriminate.
    + vm_compute. reflexivity.
    + right. reflexivity.
    + vm_compute. reflexivity.
  - apply (proj2 parseError_vite_file_annotation
             [js "[plugin:vite:react-babel] File: x";
              js "File: /home/projects/abc/src/Other.tsx:3:1"]
             (js "[plugin:vite:react-babel] File: x" ++ nl ++
              js "File: /home/projects/abc/")
             [] (js "Other") (js ".tsx") (js ":3:1")).
    + vm_compute. reflexivity.
    + vm_compute. reflexivity.
    + vm_compute. reflexivity.
    + vm_compute. reflexivity.
    + left. reflexivity.
    + discriminate.
    + vm_compute. reflexivity.
    + right. reflexivity.
    + vm_compute. reflexivity.
Defined.

(** ** The stack trace resolver *)

Example parseStackTrace_scenario :
  parseStackTrace (js "at Bar (https://x.io/src/pages/Bar.tsx:10:5)") None
  = mkLocation (Some (js "src/pages/Bar.tsx")) (Some (Num 10)).
Proof. vm_compute. reflexivity. Qed.

Example parseStackTrace_firefox :
  parseStackTrace (js "Bar@https://x.io/src/pages/Bar.tsx:10:5") None
  = mkLocation (Some (js "src/pages/Bar.tsx")) None.
Proof. vm_compute. reflexivity. Qed.

Example parseStackTrace_render :
  parseStackTrace (js "at StatCard (https://abc.webcontainer.io/src/components/features/StatCard.tsx:20:3)")
     (Some (js "Check the render method of `Dashboard`."))
  = mkLocation (Some (js "src/components/features/Dashboard.tsx")) None.
Proof. vm_compute. reflexivity. Qed.

(** ** What each operation of the loop touches *)

Section Effects.

(** The watcher only sets its own timeout and the cooldown map. *)
Lemma watcherEffect_keeps st :
  fixingRef (watcherEffect st) = fixingRef st /\
  inflight (watcherEffect st) = inflight st /\
  fixedFilesRef (watcherEffect st) = fixedFilesRef st /\
  timers (watcherEffect st) = timers st /\
  clock (watcherEffect st) = clock st /\
  fixAttempts (watcherEffect st) = fixAttempts st /\
  requests (watcherEffect st) = requests st /\
  files (watcherEffect st) = files st.
Proof.
  unfold watcherEffect. cbn.
  repeat case_match; cbn; repeat split; reflexivity.
Qed.

Lemma rerender_keeps st :
  fixingRef (rerender st) = fixingRef st /\
  inflight (rerender st) = inflight st /\
  fixedFilesRef (rerender st) = fixedFilesRef st /\
  timers (rerender st) = timers st /\
  clock (rerender st) = clock st /\
  fixAttempts (rerender st) = fixAttempts st /\
  requests (rerender st) = requests st /\
  files (rerender st) = files st.
Proof.
  unfold rerender.
  destruct (watcherEffect_keeps (with_filesRef (files st) st))
    as (-> & -> & -> & -> & -> & -> & -> & ->).
  repeat split; reflexivity.
Qed.

(** The runtime handler only queues a dispatch. *)
Lemma handleRuntimeError_keeps d st :
  fixingRef (handleRuntimeError d st) = fixingRef st /\
  inflight (handleRuntimeError d st) = inflight st /\
  fixedFilesRef (handleRuntimeError d st) = fixedFilesRef st /\
  clock (handleRuntimeError d st) = clock st /\
  lastFixTimeRef (handleRuntimeError d st) = lastFixTimeRef st /\
  fixAttempts (handleRuntimeError d st) = fixAttempts st /\
  requests (handleRuntimeError d st) = requests st /\
  watchTimer (handleRuntimeError d st) = watchTimer st /\
  (timers (handleRuntimeError d st) = timers st \/
   exists t, timers (handleRuntimeError d st) = timers st ++ [t] /\ expiryOf t = None).
Proof.
  unfold handleRuntimeError.
  repeat case_match; cbn; repeat split; try reflexivity; try (left; reflexivity);
    right; eexists; split; reflexivity.
Qed.

(** The synchronous half of a dispatch. *)
Lemma start_returned out st errorFile errorText b st' :
  fixCodeError_start out st errorFile errorText = Returned b st' ->
  b = false /\
  fixingRef st' = fixingRef st /\
  inflight st' = inflight st /\
  fixedFilesRef st' = fixedFilesRef st /\
  timers st' = timers st /\
  clock st' = clock st /\
  lastFixTimeRef st' = lastFixTimeRef st /\
  requests st' = requests st /\
  files st' = files st /\
  watchTimer st' = watchTimer st.
Proof.
  unfold fixCodeError_start.
  destruct (fixingRef st) eqn:Hf.
  - intros [= <- <-]. rewrite Hf. repeat split; reflexivity.
  - repeat case_match; intros [= <- <-]; cbn; rewrite ?Hf; repeat split; reflexivity.
Qed.

Lemma start_awaiting out st errorFile errorText p st' :
  fixCodeError_start out st errorFile errorText = Awaiting p st' ->
  fixingRef st = false /\
  pendingKey p = errorKeyOf errorFile errorText /\
  (pendingKey p ∉ fixedFilesRef st) /\
  fixingRef st' = true /\
  inflight st' = inflight st /\
  fixedFilesRef st' = fixedFilesRef st /\
  timers st' = timers st /\
  clock st' = clock st /\
  lastFixTimeRef st' = lastFixTimeRef st /\
  fixAttempts st' = fixAttempts st + 1 /\
  files st' = files st /\
  watchTimer st' = watchTimer st /\
  exists r, requests st' = requests st ++ [r].
Proof.
  unfold fixCodeError_start.
  destruct (fixingRef st) eqn:Hf; [discriminate|].
  case_bool_decide as Hk; [discriminate|].
  repeat case_match; intros [= <- <-]; cbn;
    (repeat split; try reflexivity; try exact Hk; eexists; reflexivity).
Qed.

(** The second half of a dispatch: the flag is cleared whatever the outcome;
    a failure leaves the fixed keys, the timers and the files alone; a
    success marks the key and appends its timers. *)
Lemma resume_effect st p o :
  let r := fixCodeError_resume st p o in
  fixingRef (snd r) = false /\
  inflight (snd r) = inflight st /\
  clock (snd r) = clock st /\
  lastFixTimeRef (snd r) = lastFixTimeRef st /\
  fixAttempts (snd r) = fixAttempts st /\
  requests (snd r) = requests st /\
  watchTimer (snd r) = watchTimer st /\
  (fst r = false ->
   fixedFilesRef (snd r) = fixedFilesRef st /\ timers (snd r) = timers st /\
   files (snd r) = files st) /\
  (fst r = true ->
   fixedFilesRef (snd r) = {[pendingKey p]} ∪ fixedFilesRef st /\
   exists ex t1 t2,
     timers (snd r) = timers st ++ ex ++ [t1; t2] /\
     expiryOf t1 = None /\ expiryOf t2 = None /\
     (ex = [] \/ ex = [((clock st + 15000)%Z, TaskExpire (pendingKey p))])).
Proof.
  unfold fixCodeError_resume, finish.
  repeat case_match; cbn; split_and!; try reflexivity;
    try (intros H'; discriminate H'); intros _; split_and!; try reflexivity.
  all: first
    [ eexists [], _, _; cbn; rewrite <- ?app_assoc; cbn;
      split_and!; try reflexivity; left; reflexivity
    | eexists [_], _, _; cbn; rewrite <- ?app_assoc; cbn;
      split_and!; try reflexivity; right; reflexivity ].
Qed.

End Effects.

(** ** Invariants of the loop *)

Section Invariants.

Lemma wf_transfer st st' :
  wf st ->
  fixingRef st' = fixingRef st -> inflight st' = inflight st ->
  fixedFilesRef st' = fixedFilesRef st -> timers st' = timers st ->
  (forall t, watchTimer st' = Some t -> expiryOf t = None) ->
  wf st'.
Proof.
  intros [H1 H2 H3 H4 H5] E1 E2 E3 E4 Hw.
  split; rewrite ?E1, ?E2, ?E3, ?E4; assumption.
Qed.

Lemma watcherEffect_watch st t :
  watchTimer (watcherEffect st) = Some t -> expiryOf t = None.
Proof.
  unfold watcherEffect. repeat case_match; cbn; intros [= <-]; reflexivity.
Qed.

Lemma wf_rerender st :
  wf (with_watchTimer None st) -> wf (rerender st).
Proof.
  intros Hwf.
  destruct (rerender_keeps st) as (E1 & E2 & E3 & E4 & _).
  apply (wf_transfer (with_watchTimer None st)); try assumption.
  unfold rerender. apply watcherEffect_watch.
Qed.

Lemma wf_clear_watch st : wf st -> wf (with_watchTimer None st).
Proof.
  intros Hwf. apply (wf_transfer st); try reflexivity; [exact Hwf|].
  cbn. discriminate.
Qed.

Lemma wf_dispatch out st errorFile errorText :
  wf st -> wf (dispatch out st errorFile errorText).
Proof.
  intros Hwf. unfold dispatch.
  destruct (fixCodeError_start out st errorFile errorText) as [b st'|p st'] eqn:E.
  - apply start_returned in E as (_ & E1 & E2 & E3 & E4 & _ & _ & _ & _ & E5).
    apply (wf_transfer st); try assumption.
    rewrite E5. apply Hwf.
  - apply start_awaiting in E
      as (Hf & _ & Hk & E1 & E2 & E3 & E4 & _ & _ & _ & _ & E5 & _).
    apply wf_rerender.
    destruct Hwf as [H1 H2 H3 H4 H5]. rewrite Hf in H1.
    split; cbn; rewrite ?E1, ?E2, ?E3, ?E4, ?H1; cbn.
    + eexists. reflexivity.
    + intros q Hq. apply list_elem_of_singleton in Hq as ->. exact Hk.
    + exact H3.
    + exact H4.
    + discriminate.
Qed.

(** A callback that is not an expiry does nothing or dispatches. *)
Lemma runTask_other due t st :
  expiryOf (due, t) = None ->
  runTask t st = st \/
  exists out errorFile errorText, runTask t st = dispatch out st errorFile errorText.
Proof.
  destruct t; cbn; try discriminate; intros _;
    repeat case_match; eauto.
Qed.

Lemma wf_timers_middle st l1 t l2 :
  wf st -> timers st = l1 ++ t :: l2 -> wf (with_timers (l1 ++ l2) st).
Proof.
  intros [H1 H2 H3 H4 H5] Et. split; cbn; try assumption.
  - intros t' k Ht'. apply H3. rewrite Et.
    apply elem_of_app in Ht' as [?|?]; apply elem_of_app; [left | right; right]; assumption.
  - rewrite Et, omap_app in H4. rewrite omap_app.
    apply NoDup_app in H4 as (N1 & N2 & N3).
    apply NoDup_app. split; [exact N1|]. split.
    + intros x Hx Hx2. apply (N2 x Hx). cbn. destruct (expiryOf t); [right|]; exact Hx2.
    + cbn in N3. destruct (expiryOf t); [apply NoDup_cons in N3 as [_ ?]|]; assumption.
Qed.

(** Firing a pending timer keeps the invariant. *)
Lemma wf_fire st i due t :
  wf st -> timers st !! i = Some (due, t) ->
  wf (runTask t (with_timers (delete i (timers st)) st)).
Proof.
  intros Hwf Hi.
  pose proof (take_drop_middle _ _ _ Hi) as Et. symmetry in Et.
  rewrite delete_take_drop.
  pose proof (wf_timers_middle _ _ _ _ Hwf Et) as Hwf1.
  destruct (expiryOf (due, t)) as [k|] eqn:Ek.
  - destruct t as [| k0 | | |]; try discriminate. cbn in Ek.
    assert (k0 = k) as -> by congruence. clear Ek.
    cbn [runTask]. destruct Hwf as [H1 H2 H3 H4 H5].
    split; cbn; try assumption.
    + intros p Hp Hin. apply elem_of_difference in Hin as [Hin _].
      exact (H2 p Hp Hin).
    + intros t' k' Ht' Hk'.
      apply elem_of_difference. split.
      * apply (H3 t' k'); [|exact Hk']. rewrite Et.
        apply elem_of_app in Ht' as [?|?]; apply elem_of_app; [left | right; right]; assumption.
      * intros Hkk. apply elem_of_singleton in Hkk as ->.
        rewrite Et, omap_app in H4. cbn in H4.
        apply NoDup_app in H4 as (N1 & N2 & N3).
        apply NoDup_cons in N3 as [N3 _].
        apply elem_of_app in Ht' as [Hl|Hr].
        -- apply (N2 k); [|left].
           apply list_elem_of_omap. exists t'. split; assumption.
        -- apply N3. apply list_elem_of_omap. exists t'. split; assumption.
    + apply Hwf1.
  - destruct (runTask_other due t (with_timers (take i (timers st) ++ drop (S i) (timers st)) st) Ek)
      as [-> | (out & f & e & ->)]; [exact Hwf1 | apply wf_dispatch; exact Hwf1].
Qed.

Lemma wf_handleRuntimeError d st : wf st -> wf (handleRuntimeError d st).
Proof.
  intros [H1 H2 H3 H4 H5].
  destruct (handleRuntimeError_keeps d st)
    as (E1 & E2 & E3 & _ & _ & _ & _ & E5 & [E4 | (t & E4 & Ht)]);
    split; rewrite ?E1, ?E2, ?E3, ?E4, ?E5; try assumption.
  - intros t' k Ht'. apply elem_of_app in Ht' as [Ht'|Ht']; [apply H3; exact Ht'|].
    apply list_elem_of_singleton in Ht' as ->. congruence.
  - rewrite omap_app. cbn. rewrite Ht, app_nil_r. exact H4.
Qed.

(** The settling of the request in flight keeps the invariant. *)
Lemma wf_settle st i p o :
  wf st -> inflight st !! i = Some p ->
  wf (rerender (snd (fixCodeError_resume
                       (with_inflight (delete i (inflight st)) st) p o))).
Proof.
  intros Hwf Hi.
  assert (inflight st = [p] /\ i = O) as [Ein ->].
  { destruct Hwf as [H1 _ _ _ _]. destruct (fixingRef st).
    - destruct H1 as [q Hq]. rewrite Hq in Hi.
      destruct i as [|i]; cbn in Hi; [|discriminate].
      injection Hi as ->. auto.
    - rewrite H1 in Hi. discriminate. }
  rewrite Ein. cbn [delete list_delete].
  assert (pendingKey p ∉ fixedFilesRef st) as Hkey.
  { apply Hwf. rewrite Ein. left. }
  set (st1 := with_inflight [] st).
  destruct (resume_effect st1 p o) as (E1 & E2 & _ & _ & _ & _ & E7 & Hfail & Hok).
  apply wf_rerender.
  destruct Hwf as [H1 H2 H3 H4 H5].
  destruct (fst (fixCodeError_resume st1 p o)) eqn:Eb.
  - destruct (Hok eq_refl) as (Ef & ex & t1 & t2 & Et & Ht1 & Ht2 & Hex).
    split; cbn; rewrite ?E1, ?E2, ?Ef, ?Et; cbn.
    + reflexivity.
    + intros q Hq. inversion Hq.
    + intros t k Ht Hk. apply elem_of_app in Ht as [Ht|Ht].
      * apply elem_of_union_r. apply (H3 t k Ht Hk).
      * apply elem_of_app in Ht as [Ht|Ht].
        -- destruct Hex as [-> | ->]; [inversion Ht|].
           apply list_elem_of_singleton in Ht as ->. cbn in Hk. injection Hk as <-.
           apply elem_of_union_l, elem_of_singleton. reflexivity.
        -- apply elem_of_cons in Ht as [-> | Ht]; [congruence|].
           apply list_elem_of_singleton in Ht as ->. congruence.
    + rewrite !omap_app. cbn. rewrite Ht1, Ht2, app_nil_r.
      destruct Hex as [-> | ->]; cbn; [rewrite app_nil_r; exact H4|].
      apply NoDup_app. split; [exact H4|]. split; [|apply NoDup_singleton].
      intros k Hk Hk'. apply list_elem_of_singleton in Hk' as ->.
      apply list_elem_of_omap in Hk as (t & Ht & Hk).
      apply Hkey. apply (H3 t _ Ht Hk).
    + discriminate.
  - destruct (Hfail eq_refl) as (Ef & Et & _).
    split; cbn; rewrite ?E1, ?E2, ?Ef, ?Et; cbn; try assumption.
    + reflexivity.
    + intros q Hq. inversion Hq.
    + discriminate.
Qed.

(** Every step of the loop keeps the invariant. *)
Lemma wf_step st ev : wf st -> wf (step st ev).
Proof.
  intros Hwf. destruct ev as [out|b|d|t| |i|i o]; cbn [step].
  - apply wf_rerender.
    apply (wf_transfer st); try reflexivity; [exact Hwf | cbn; discriminate].
  - apply wf_rerender.
    apply (wf_transfer st); try reflexivity; [exact Hwf | cbn; discriminate].
  - apply wf_handleRuntimeError. exact Hwf.
  - destruct (clock st <=? t)%Z; [|exact Hwf].
    apply (wf_transfer st); try reflexivity; [exact Hwf | apply Hwf].
  - destruct (watchTimer st) as [[due t]|] eqn:Ew; [|exact Hwf].
    destruct (due <=? clock st)%Z; [|exact Hwf].
    pose proof (wf_clear_watch st Hwf) as Hwf1.
    assert (expiryOf (due, t) = None) as Ht by (apply Hwf; exact Ew).
    destruct (runTask_other due t (with_watchTimer None st) Ht)
      as [-> | (out & f & e & ->)]; [exact Hwf1 | apply wf_dispatch; exact Hwf1].
  - destruct (timers st !! i) as [[due t]|] eqn:Ei; [|exact Hwf].
    destruct (due <=? clock st)%Z; [|exact Hwf].
    apply (wf_fire st i due t Hwf Ei).
  - destruct (inflight st !! i) as [p|] eqn:Ei; [|exact Hwf].
    apply wf_settle; assumption.
Qed.

Lemma wf_run evs : forall st, wf st -> wf (run st evs).
Proof.
  induction evs as [|ev evs IH]; intros st Hwf; [exact Hwf|].
  cbn. apply IH, wf_step, Hwf.
Qed.

Lemma wf_initial running out fs now : wf (initial running out fs now).
Proof.
  split; cbn; try reflexivity.
  - intros p Hp. inversion Hp.
  - intros t k Ht. inversion Ht.
  - constructor.
  - discriminate.
Qed.

End Invariants.

(** ** One fix in flight *)

Lemma start_guard_in_flight out st errorFile errorText :
  fixingRef st = true ->
  fixCodeError_start out st errorFile errorText = Returned false st.
Proof. intros H. unfold fixCodeError_start. rewrite H. reflexivity. Qed.

Lemma inflight_at_most_one st : wf st -> (length (inflight st) <= 1)%nat.
Proof.
  intros [H1 _ _ _ _]. destruct (fixingRef st).
  - destruct H1 as [p ->]. cbn. lia.
  - rewrite H1. cbn. lia.
Qed.

(** C1. While the in-flight flag is set, a call of [fixCodeError] returns
    false at once and leaves the whole state as it is: no request is sent
    and no guard state changes.  A call that returns without sending a
    request leaves the flag clear, and the flag is clear after every way the
    second half of a dispatch can end, whatever the service answered.  Over
    any run of the loop from the start of a session at most one request is
    in flight, and the flag is set exactly while one is. *)
Theorem single_fix_in_flight :
  (forall out st errorFile errorText,
      fixingRef st = true ->
      fixCodeError_start out st errorFile errorText = Returned false st) /\
  (forall out st errorFile errorText b st',
      fixingRef st = false ->
      fixCodeError_start out st errorFile errorText = Returned b st' ->
      fixingRef st' = false) /\
  (forall st p o, fixingRef (snd (fixCodeError_resume st p o)) = false) /\
  (forall running out fs now evs,
      let st := run (initial running out fs now) evs in
      (length (inflight st) <= 1)%nat /\
      (fixingRef st = true <-> inflight st <> [])).
Proof.
  split_and!.
  - apply start_guard_in_flight.
  - intros out st errorFile errorText b st' Hf E.
    apply start_returned in E as (_ & E & _). congruence.
  - intros st p o. apply (resume_effect st p o).
  - intros running out fs now evs st.
    pose proof (wf_run evs _ (wf_initial running out fs now)) as Hwf.
    fold st in Hwf. split; [apply inflight_at_most_one; exact Hwf|].
    destruct Hwf as [H1 _ _ _ _]. destruct (fixingRef st).
    + destruct H1 as [p ->]. split; [discriminate | reflexivity].
    + rewrite H1. split; [discriminate | congruence].
Qed.

(** ** The fixed keys and their expiry *)

Section FixedKeys.

Lemma dispatch_keeps out st errorFile errorText :
  fixedFilesRef (dispatch out st errorFile errorText) = fixedFilesRef st /\
  timers (dispatch out st errorFile errorText) = timers st /\
  clock (dispatch out st errorFile errorText) = clock st.
Proof.
  unfold dispatch.
  destruct (fixCodeError_start out st errorFile errorText) as [b st'|p st'] eqn:E.
  - apply start_returned in E as (_ & _ & _ & E3 & E4 & E5 & _). auto.
  - apply start_awaiting in E as (_ & _ & _ & _ & _ & E3 & E4 & E5 & _).
    destruct (rerender_keeps (with_inflight (inflight st' ++ [p]) st'))
      as (_ & _ & -> & -> & -> & _).
    auto.
Qed.

Lemma runTask_other_keeps due t st :
  expiryOf (due, t) = None ->
  fixedFilesRef (runTask t st) = fixedFilesRef st /\
  timers (runTask t st) = timers st /\
  clock (runTask t st) = clock st.
Proof.
  intros Ht. destruct (runTask_other due t st Ht) as [-> | (out & f & e & ->)];
    [auto | apply dispatch_keeps].
Qed.

Lemma runTask_clock t st : clock (runTask t st) = clock st.
Proof.
  destruct (expiryOf (0%Z, t)) eqn:E.
  - destruct t; try discriminate. reflexivity.
  - apply (runTask_other_keeps 0%Z t st E).
Qed.

(** The clock never goes back. *)
Lemma clock_step st ev : (clock st <= clock (step st ev))%Z.
Proof.
  destruct ev as [out|b|d|t| |i|i o]; cbn [step].
  - destruct (rerender_keeps (with_terminalOutput out st)) as (_ & _ & _ & _ & -> & _).
    reflexivity.
  - destruct (rerender_keeps (with_isRunning b st)) as (_ & _ & _ & _ & -> & _).
    reflexivity.
  - destruct (handleRuntimeError_keeps d st) as (_ & _ & _ & -> & _). reflexivity.
  - destruct (Z.leb_spec (clock st) t); cbn; lia.
  - destruct (watchTimer st) as [[due t]|]; [|reflexivity].
    destruct (due <=? clock st)%Z; [|reflexivity].
    rewrite runTask_clock. reflexivity.
  - destruct (timers st !! i) as [[due t]|]; [|reflexivity].
    destruct (due <=? clock st)%Z; [|reflexivity].
    rewrite runTask_clock. reflexivity.
  - destruct (inflight st !! i) as [p|]; [|reflexivity].
    destruct (rerender_keeps (snd (fixCodeError_resume
                (with_inflight (delete i (inflight st)) st) p o)))
      as (_ & _ & _ & _ & -> & _).
    destruct (resume_effect (with_inflight (delete i (inflight st)) st) p o)
      as (_ & _ & -> & _).
    reflexivity.
Qed.

Lemma clock_run evs : forall st, (clock st <= clock (run st evs))%Z.
Proof.
  induction evs as [|ev evs IH]; intros st; cbn; [reflexivity|].
  etransitivity; [apply clock_step | apply IH].
Qed.

Lemma held_transfer k bound st st' :
  held k bound st ->
  fixedFilesRef st' = fixedFilesRef st -> timers st' = timers st ->
  clock st' = clock st -> held k bound st'.
Proof. intros (H1 & H2 & H3) E1 E2 E3. unfold held. rewrite E1, E2, E3. auto. Qed.

(** Before the bound, no step of the loop lets go of a held key. *)
Lemma held_step k bound st ev :
  wf st -> held k bound st -> (clock st < bound)%Z -> held k bound (step st ev).
Proof.
  intros Hwf Hheld Hlt. destruct ev as [out|b|d|t| |i|i o]; cbn [step].
  - destruct (rerender_keeps (with_terminalOutput out st)) as (_ & _ & E1 & E2 & E3 & _).
    apply (held_transfer _ _ st); assumption.
  - destruct (rerender_keeps (with_isRunning b st)) as (_ & _ & E1 & E2 & E3 & _).
    apply (held_transfer _ _ st); assumption.
  - destruct Hheld as (H1 & H2 & H3).
    destruct (handleRuntimeError_keeps d st)
      as (_ & _ & E1 & E3 & _ & _ & _ & _ & [E2 | (t & E2 & Ht)]);
      unfold held; rewrite E1, E2, E3; split_and!; try assumption.
    intros t' Ht' Hk. apply elem_of_app in Ht' as [Ht'|Ht']; [apply H2; assumption|].
    apply list_elem_of_singleton in Ht' as ->. congruence.
  - destruct Hheld as (H1 & H2 & H3).
    destruct (Z.leb_spec (clock st) t); unfold held; cbn; split_and!;
      try assumption; lia.
  - destruct (watchTimer st) as [[due t]|] eqn:Ew; [|exact Hheld].
    destruct (due <=? clock st)%Z; [|exact Hheld].
    assert (expiryOf (due, t) = None) as Ht by (apply Hwf; exact Ew).
    destruct (runTask_other_keeps due t (with_watchTimer None st) Ht) as (E1 & E2 & E3).
    apply (held_transfer _ _ st); assumption.
  - destruct (timers st !! i) as [[due t]|] eqn:Ei; [|exact Hheld].
    destruct (Z.leb_spec due (clock st)) as [Hdue|]; [|exact Hheld].
    destruct Hheld as (H1 & H2 & H3).
    assert (forall t', t' ∈ delete i (timers st) -> t' ∈ timers st) as Hsub.
    { intros t'. apply list_elem_of_delete_inv. }
    destruct (expiryOf (due, t)) as [k'|] eqn:Ek.
    + destruct t as [| k0 | | |]; try discriminate. cbn in Ek.
      assert (k0 = k') as -> by congruence. clear Ek.
      assert (k' <> k) as Hne.
      { intros ->. apply list_elem_of_lookup_2 in Ei.
        specialize (H2 _ Ei eq_refl). cbn in H2. lia. }
      cbn [runTask]. unfold held. cbn. split_and!.
      * apply elem_of_difference. split; [exact H1|].
        intros Hk. apply elem_of_singleton in Hk. congruence.
      * intros t' Ht'. apply H2, Hsub, Ht'.
      * exact H3.
    + destruct (runTask_other_keeps due t (with_timers (delete i (timers st)) st) Ek)
        as (E1 & E2 & E3).
      unfold held. rewrite E1, E2, E3. cbn. split_and!; try assumption.
      intros t' Ht'. apply H2, Hsub, Ht'.
  - destruct (inflight st !! i) as [p|] eqn:Ei; [|exact Hheld].
    set (st1 := with_inflight (delete i (inflight st)) st).
    destruct (rerender_keeps (snd (fixCodeError_resume st1 p o)))
      as (_ & _ & E1 & E2 & E3 & _).
    destruct (resume_effect st1 p o) as (_ & _ & Ec & _ & _ & _ & _ & Hfail & Hok).
    destruct Hheld as (H1 & H2 & H3).
    unfold held. rewrite E1, E2, E3, Ec. cbn.
    destruct (fst (fixCodeError_resume st1 p o)).
    + destruct (Hok eq_refl) as (Ef & ex & t1 & t2 & Et & Ht1 & Ht2 & Hex).
      rewrite Ef, Et. cbn. split_and!; [apply elem_of_union_r; exact H1 | | exact H3].
      intros t Ht Hk. apply elem_of_app in Ht as [Ht|Ht]; [apply H2; assumption|].
      apply elem_of_app in Ht as [Ht|Ht].
      * destruct Hex as [-> | ->]; [inversion Ht|].
        apply list_elem_of_singleton in Ht as ->. cbn. lia.
      * apply elem_of_cons in Ht as [-> | Ht]; [congruence|].
        apply list_elem_of_singleton in Ht as ->. congruence.
    + destruct (Hfail eq_refl) as (Ef & Et & _). rewrite Ef, Et. cbn. auto.
Qed.

Lemma held_run k bound evs : forall st,
  wf st -> held k bound st -> (clock (run st evs) < bound)%Z ->
  held k bound (run st evs).
Proof.
  induction evs as [|ev evs IH]; intros st Hwf Hheld Hlt; [exact Hheld|].
  change (run st (ev :: evs)) with (run (step st ev) evs) in *.
  apply IH; [apply wf_step, Hwf | | exact Hlt].
  apply held_step; [exact Hwf | exact Hheld|].
  pose proof (clock_step st ev). pose proof (clock_run evs (step st ev)). lia.
Qed.

(** A successful fix holds its key for the next 15 seconds; a created
    file holds it for good. *)
Lemma held_after_success st i p o :
  wf st -> inflight st !! i = Some p ->
  fst (fixCodeError_resume (with_inflight (delete i (inflight st)) st) p o) = true ->
  held (pendingKey p) (clock st + 15000) (step st (Settle i o)).
Proof.
  intros Hwf Hi Hb. cbn [step]. rewrite Hi.
  set (st1 := with_inflight (delete i (inflight st)) st) in *.
  destruct (rerender_keeps (snd (fixCodeError_resume st1 p o)))
    as (_ & _ & E1 & E2 & E3 & _).
  destruct (resume_effect st1 p o) as (_ & _ & Ec & _ & _ & _ & _ & _ & Hok).
  destruct (Hok Hb) as (Ef & ex & t1 & t2 & Et & Ht1 & Ht2 & Hex).
  unfold held. rewrite E1, E2, E3, Ec, Ef, Et. cbn. split_and!.
  - apply elem_of_union_l, elem_of_singleton. reflexivity.
  - intros t Ht Hk. apply elem_of_app in Ht as [Ht|Ht].
    + exfalso. apply (wf_keys st Hwf p).
      * apply list_elem_of_lookup_2 in Hi. exact Hi.
      * apply (wf_expiry st Hwf t _ Ht Hk).
    + apply elem_of_app in Ht as [Ht|Ht].
      * destruct Hex as [-> | ->]; [inversion Ht|].
        apply list_elem_of_singleton in Ht as ->. cbn. lia.
      * apply elem_of_cons in Ht as [-> | Ht]; [congruence|].
        apply list_elem_of_singleton in Ht as ->. congruence.
  - lia.
Qed.

End FixedKeys.

Lemma start_guard_fixed out st errorFile errorText :
  errorKeyOf errorFile errorText ∈ fixedFilesRef st ->
  fixCodeError_start out st errorFile errorText = Returned false st.
Proof.
  intros H. unfold fixCodeError_start.
  destruct (fixingRef st); [reflexivity|].
  rewrite bool_decide_eq_true_2 by exact H. reflexivity.
Qed.

(** C2. A dispatch of a candidate whose key is in the fixed set returns
    false at once and leaves the state as it is, so no request is sent.
    And in any session, once a dispatch has succeeded at time [t], its key
    stays in the fixed set through every later run of the loop that ends
    before [t + 15000] ms, so that every dispatch of a candidate with that
    key in that window is suppressed. *)
Theorem fixed_key_suppresses_redispatch :
  (forall out st errorFile errorText,
      errorKeyOf errorFile errorText ∈ fixedFilesRef st ->
      fixCodeError_start out st errorFile errorText = Returned false st) /\
  (forall running out0 fs now evs0 i p o evs,
      inflight (run (initial running out0 fs now) evs0) !! i = Some p ->
      fst (fixCodeError_resume
             (with_inflight
                (delete i (inflight (run (initial running out0 fs now) evs0)))
                (run (initial running out0 fs now) evs0)) p o) = true ->
      (clock (run (step (run (initial running out0 fs now) evs0) (Settle i o)) evs)
       < clock (run (initial running out0 fs now) evs0) + 15000)%Z ->
      pendingKey p ∈
        fixedFilesRef (run (step (run (initial running out0 fs now) evs0) (Settle i o)) evs) /\
      forall out errorFile errorText,
        errorKeyOf errorFile errorText = pendingKey p ->
        fixCodeError_start out
          (run (step (run (initial running out0 fs now) evs0) (Settle i o)) evs)
          errorFile errorText
        = Returned false
            (run (step (run (initial running out0 fs now) evs0) (Settle i o)) evs)).
Proof.
  split; [apply start_guard_fixed|].
  intros running out0 fs now evs0 i p o evs Hi Hb Hlt.
  set (st := run (initial running out0 fs now) evs0) in *.
  assert (wf st) as Hwf by apply wf_run, wf_initial.
  pose proof (held_after_success st i p o Hwf Hi Hb) as Hheld.
  apply (held_run _ _ evs) in Hheld; [|apply wf_step, Hwf | exact Hlt].
  destruct Hheld as (Hin & _).
  split; [exact Hin|].
  intros out errorFile errorText Hk. apply start_guard_fixed. rewrite Hk. exact Hin.
Qed.

Lemma fixed_key_suppresses_redispatch_witness :
  pendingKey watcherPending ∈
    fixedFilesRef
      (run (step (run (initial true [] [barFile] 100000) watcherDispatch)
                 (Settle 0 (okFix "export const Bar = 2")))
           runtimeFollowUp).
Proof.
  apply (proj2 fixed_key_suppresses_redispatch
           true [] [barFile] 100000%Z watcherDispatch O watcherPending
           (okFix "export const Bar = 2") runtimeFollowUp).
  - vm_compute. reflexivity.
  - vm_compute. reflexivity.
  - vm_compute. reflexivity.
Defined.

Lemma single_fix_in_flight_witness :
  fixCodeError_start [] (with_fixingRef true (initial true [] [barFile] 100000))
                     (js "src/pages/Bar.tsx") (js "Unexpected token")
  = Returned false (with_fixingRef true (initial true [] [barFile] 100000)).
Proof.
  apply (proj1 single_fix_in_flight). reflexivity.
Defined.

(** ** The per-file cooldown *)

Section Cooldown.

(** Inside the cooldown window of a file the watcher schedules nothing for
    a candidate on that file, whatever its error text. *)
Lemma watcher_in_cooldown st c t :
  parseError (terminalOutput st) = Some c ->
  lastFixTimeRef st !! file c = Some t ->
  (clock st - t < FIX_COOLDOWN_MS)%Z ->
  watcherEffect st = with_watchTimer None st.
Proof.
  intros Hc Ht Hlt. unfold watcherEffect. cbn.
  destruct (negb (isRunning st) || fixingRef st || isFixing st); [reflexivity|].
  destruct (MAX_FIX_ATTEMPTS <=? fixAttempts st); [reflexivity|].
  rewrite Hc. destruct (file c) as [|x f] eqn:Ef; [reflexivity|].
  rewrite Ht. cbn.
  destruct (Z.ltb_spec (clock st - t) FIX_COOLDOWN_MS); [reflexivity | lia].
Qed.

(** Inside the window the watcher does not touch the cooldown entry. *)
Lemma watcherEffect_lastFix st f t :
  lastFixTimeRef st !! f = Some t ->
  (clock st < t + FIX_COOLDOWN_MS)%Z ->
  lastFixTimeRef (watcherEffect st) !! f = Some t.
Proof.
  intros Ht Hlt. unfold watcherEffect. cbn.
  repeat case_match; cbn; try exact Ht.
  destruct (decide (file e = f)) as [Heq|Hne].
  - exfalso.
    match goal with
    | H2 : file e = _ :: _, H3 : (_ <? _)%Z = false |- _ =>
        rewrite <- H2, Heq, Ht in H3; cbn in H3; apply Z.ltb_ge in H3
    end.
    lia.
  - rewrite lookup_insert_ne by congruence. exact Ht.
Qed.

Lemma rerender_lastFix st f t :
  lastFixTimeRef st !! f = Some t ->
  (clock st < t + FIX_COOLDOWN_MS)%Z ->
  lastFixTimeRef (rerender st) !! f = Some t.
Proof. intros Ht Hlt. unfold rerender. apply watcherEffect_lastFix; assumption. Qed.

Lemma dispatch_lastFix out st errorFile errorText f t :
  lastFixTimeRef st !! f = Some t ->
  (clock st < t + FIX_COOLDOWN_MS)%Z ->
  lastFixTimeRef (dispatch out st errorFile errorText) !! f = Some t.
Proof.
  intros Ht Hlt. unfold dispatch.
  destruct (fixCodeError_start out st errorFile errorText) as [b st'|p st'] eqn:E.
  - apply start_returned in E as (_ & _ & _ & _ & _ & _ & -> & _). exact Ht.
  - apply start_awaiting in E as (_ & _ & _ & _ & _ & _ & _ & Ec & El & _).
    apply rerender_lastFix; cbn; rewrite ?El, ?Ec; assumption.
Qed.

Lemma runTask_lastFix task st f t :
  lastFixTimeRef st !! f = Some t ->
  (clock st < t + FIX_COOLDOWN_MS)%Z ->
  lastFixTimeRef (runTask task st) !! f = Some t.
Proof.
  intros Ht Hlt. destruct (expiryOf (0%Z, task)) eqn:E.
  - destruct task; try discriminate. exact Ht.
  - destruct (runTask_other 0%Z task st E) as [-> | (out & ef & et & ->)];
      [exact Ht | apply dispatch_lastFix; assumption].
Qed.

Lemma step_lastFix st ev f t :
  lastFixTimeRef st !! f = Some t ->
  (clock (step st ev) < t + FIX_COOLDOWN_MS)%Z ->
  lastFixTimeRef (step st ev) !! f = Some t.
Proof.
  intros Ht Hlt. pose proof (clock_step st ev) as Hmono.
  assert (clock st < t + FIX_COOLDOWN_MS)%Z as Hst by lia. clear Hlt Hmono.
  destruct ev as [out|b|d|t'| |i|i o]; cbn [step].
  - apply rerender_lastFix; assumption.
  - apply rerender_lastFix; assumption.
  - destruct (handleRuntimeError_keeps d st) as (_ & _ & _ & _ & -> & _). exact Ht.
  - destruct (clock st <=? t')%Z; exact Ht.
  - destruct (watchTimer st) as [[due task]|]; [|exact Ht].
    destruct (due <=? clock st)%Z; [|exact Ht].
    apply runTask_lastFix; assumption.
  - destruct (timers st !! i) as [[due task]|]; [|exact Ht].
    destruct (due <=? clock st)%Z; [|exact Ht].
    apply runTask_lastFix; assumption.
  - destruct (inflight st !! i) as [p|]; [|exact Ht].
    destruct (resume_effect (with_inflight (delete i (inflight st)) st) p o)
      as (_ & _ & Ec & El & _).
    apply rerender_lastFix; rewrite ?El, ?Ec; assumption.
Qed.

Lemma run_lastFix evs : forall st f t,
  lastFixTimeRef st !! f = Some t ->
  (clock (run st evs) < t + FIX_COOLDOWN_MS)%Z ->
  lastFixTimeRef (run st evs) !! f = Some t.
Proof.
  induction evs as [|ev evs IH]; intros st f t Ht Hlt; [exact Ht|].
  change (run st (ev :: evs)) with (run (step st ev) evs) in *.
  apply IH; [|exact Hlt]. apply step_lastFix; [exact Ht|].
  pose proof (clock_run evs (step st ev)). lia.
Qed.

(** When the watcher triggers, it records the time for the file. *)
Lemma watcher_trigger_records st due out errorFile errorText :
  watchTimer (watcherEffect st) = Some (due, TaskFix out errorFile errorText) ->
  lastFixTimeRef (watcherEffect st) !! errorFile = Some (clock st) /\
  due = (clock st + 1500)%Z.
Proof.
  unfold watcherEffect. cbn. repeat case_match; cbn; try discriminate.
  intros [= <- <- <- <-]. rewrite lookup_insert_eq. auto.
Qed.

End Cooldown.

(** C3, as stated, fails: the cooldown belongs to the build-output watcher.
    In this session the watcher reports a build error in [Bar.tsx] at
    100000 ms and the preview frame reports a runtime error in the same file
    at 104000 ms, inside the 10 s window; both reports reach the repair
    service. *)
Lemma runtime_report_ignores_cooldown :
  map req_filePath (requests (run (initial true [] [barFile] 100000) sameFileSession))
  = [js "/src/pages/Bar.tsx"; js "/src/pages/Bar.tsx"] /\
  lastFixTimeRef (run (initial true [] [barFile] 100000) sameFileSession)
    !! js "src/pages/Bar.tsx" = Some 100000%Z /\
  (clock (run (initial true [] [barFile] 100000) sameFileSession) - 100000
   < FIX_COOLDOWN_MS)%Z.
Proof. vm_compute. repeat split; reflexivity. Qed.

(** C3 (amended). The cooldown is kept by the build-output watcher: when
    the watcher has recorded time [t] for a file, then through every run of
    the loop that ends before [t + 10000] ms the record stays as it is, and
    the watcher, run on a candidate for that file, schedules no dispatch,
    whatever the error text. *)
Theorem watcher_cooldown (st : State) (f : jsstring) (t : Z) (evs : list Event) :
  lastFixTimeRef st !! f = Some t ->
  (clock (run st evs) < t + FIX_COOLDOWN_MS)%Z ->
  lastFixTimeRef (run st evs) !! f = Some t /\
  forall c, parseError (terminalOutput (run st evs)) = Some c ->
            file c = f ->
            watcherEffect (run st evs) = with_watchTimer None (run st evs).
Proof.
  intros Ht Hlt. pose proof (run_lastFix evs st f t Ht Hlt) as Hrec.
  split; [exact Hrec|].
  intros c Hc Hf. apply (watcher_in_cooldown _ c t); [exact Hc | | lia].
  rewrite Hf. exact Hrec.
Qed.

Lemma watcher_cooldown_witness :
  lastFixTimeRef (run (run (initial true [] [barFile] 100000) watcherDispatch)
                      [Tick 103000; Settle 0 (okFix "export const Bar = 2")])
    !! js "src/pages/Bar.tsx" = Some 100000%Z.
Proof.
  apply (watcher_cooldown (run (initial true [] [barFile] 100000) watcherDispatch)
           (js "src/pages/Bar.tsx") 100000%Z
           [Tick 103000; Settle 0 (okFix "export const Bar = 2")]).
  - vm_compute. reflexivity.
  - vm_compute. reflexivity.
Defined.

(** ** The attempt budget *)

Lemma watcher_respects_budget st :
  MAX_FIX_ATTEMPTS <= fixAttempts st ->
  watcherEffect st = with_watchTimer None st.
Proof.
  intros H. unfold watcherEffect. cbn.
  destruct (negb (isRunning st) || fixingRef st || isFixing st); [reflexivity|].
  apply N.leb_le in H. rewrite H. reflexivity.
Qed.

Lemma runtime_respects_budget d st :
  MAX_FIX_ATTEMPTS <= fixAttempts st -> handleRuntimeError d st = st.
Proof.
  intros H. unfold handleRuntimeError.
  destruct (negb (isRunning st)); [reflexivity|].
  apply N.leb_le in H. rewrite H. reflexivity.
Qed.

(** [fixCodeError] itself never reads the budget: whenever it sends a
    request it has raised the attempt counter, whatever its value was. *)
Lemma dispatcher_ignores_budget out st errorFile errorText p st' :
  fixCodeError_start out st errorFile errorText = Awaiting p st' ->
  fixAttempts st' = fixAttempts st + 1.
Proof. intros E. apply start_awaiting in E. apply E. Qed.

(** C4: the code breaks the claim.  The session starts with 49 of the 50
    attempts used.  A runtime report is dispatched (attempt 50) and fixed.
    Three seconds later the re-check calls [fixCodeError] for the build
    error of another file: the budget is exhausted, but the call is not
    refused; a second request is sent and the counter reaches 51. *)
Theorem recheck_exceeds_budget :
  fixAttempts (run nearBudget (take 5 overBudget)) = MAX_FIX_ATTEMPTS /\
  length (requests (run nearBudget (take 5 overBudget))) = 1%nat /\
  fixAttempts (run nearBudget overBudget) = 51 /\
  map req_filePath (requests (run nearBudget overBudget))
  = [js "/src/pages/Bar.tsx"; js "/src/App.tsx"].
Proof. vm_compute. repeat split; reflexivity. Qed.

(** ** Failure of a dispatch *)

(** C9, as stated, fails: a response without [fixedCode] is not reported.
    In this session the only message is the one that announced the fix. *)
Lemma missing_fixedCode_is_silent :
  map mtype (messages (run (initial true [] [barFile] 100000) silentSession))
  = [MsgThinking].
Proof. vm_compute. reflexivity. Qed.

(** C9 (amended). When the service produces no fix, [fixCodeError] returns
    false, the in-flight flag is cleared, and the fixed keys, the files and
    the timers are as before, so the key is as eligible for a retry as it
    was.  When an exception was raised it is caught and reported in an error
    message; a response that only lacks [fixedCode] adds no message. *)
Theorem dispatch_failure_is_atomic (st : State) (p : Pending) (o : FetchOutcome) :
  noFixProduced o = true ->
  fst (fixCodeError_resume st p o) = false /\
  fixingRef (snd (fixCodeError_resume st p o)) = false /\
  fixedFilesRef (snd (fixCodeError_resume st p o)) = fixedFilesRef st /\
  files (snd (fixCodeError_resume st p o)) = files st /\
  timers (snd (fixCodeError_resume st p o)) = timers st /\
  (raises p o = true ->
   exists text, messages (snd (fixCodeError_resume st p o))
                = messages st ++ [mkMessage MsgError text]) /\
  (lacksFixedCode o = true ->
   messages (snd (fixCodeError_resume st p o)) = messages st).
Proof.
  intros Hfail.
  destruct p as [out ef ek cn fp | out ef ek tf];
    destruct o as [err | [|] [err | [[|c code]|]]]; try discriminate Hfail;
    cbn; split_and!; try reflexivity; try (intros H'; discriminate H');
    intros _; eexists; reflexivity.
Qed.

Lemma dispatch_failure_is_atomic_witness :
  fst (fixCodeError_resume (run (initial true [] [barFile] 100000) watcherDispatch)
         watcherPending (FetchRejected (js "TypeError: Failed to fetch"))) = false.
Proof.
  apply (dispatch_failure_is_atomic
           (run (initial true [] [barFile] 100000) watcherDispatch)
           watcherPending (FetchRejected (js "TypeError: Failed to fetch"))).
  reflexivity.
Defined.

(** ** The frame of a fix *)

(** C10. A dispatch changes the files only when its request settles.  In
    the repair flow the list keeps its length and every entry its path, and
    an entry whose path is not the target's keeps its content; in the
    missing-module flow a success appends exactly one entry, with the path
    of the new file, and leaves the entries before it as they were, and a
    failure changes nothing. *)
Theorem fix_frame :
  (forall out st errorFile errorText b st',
      fixCodeError_start out st errorFile errorText = Returned b st' ->
      files st' = files st) /\
  (forall out st errorFile errorText p st',
      fixCodeError_start out st errorFile errorText = Awaiting p st' ->
      files st' = files st) /\
  (forall st out errorFile errorKey targetFile o,
      let st' := snd (fixCodeError_resume st
                        (PendingRepair out errorFile errorKey targetFile) o) in
      length (files st') = length (files st) /\
      map path (files st') = map path (files st) /\
      forall i f, files st !! i = Some f -> path f <> path targetFile ->
                  files st' !! i = Some f) /\
  (forall st out errorFile errorKey componentName filePath o,
      let r := fixCodeError_resume st
                 (PendingCreate out errorFile errorKey componentName filePath) o in
      (fst r = true ->
       exists code, files (snd r) = files st ++ [mkFile ([47] ++ filePath) code]) /\
      (fst r = false -> files (snd r) = files st)).
Proof.
  split_and!.
  - intros out st errorFile errorText b st' E.
    apply start_returned in E. apply E.
  - intros out st errorFile errorText p st' E.
    apply start_awaiting in E. apply E.
  - intros st out errorFile errorKey targetFile o st'. subst st'.
    assert (forall code,
      let fs' := map (fun f => if str_eqb (path f) (path targetFile)
                               then mkFile (path f) code else f) (files st) in
      length fs' = length (files st) /\
      map path fs' = map path (files st) /\
      forall i f, files st !! i = Some f -> path f <> path targetFile ->
                  fs' !! i = Some f) as Hmap.
    { intros code fs'. subst fs'. split_and!.
      - apply length_map.
      - rewrite map_map. apply map_ext. intros f.
        destruct (str_eqb (path f) (path targetFile)); reflexivity.
      - intros i f Hi Hne. rewrite list_lookup_fmap, Hi. cbn.
        unfold str_eqb. rewrite bool_decide_eq_false_2 by exact Hne. reflexivity. }
    destruct o as [err | [|] [err | [[|c code]|]]]; cbn; auto.
    destruct (str_eqb (c :: code) (content targetFile)); cbn; auto; apply Hmap.
  - intros st out errorFile errorKey componentName filePath o r. subst r.
    destruct o as [err | [|] [err | [[|c code]|]]]; cbn;
      split; try reflexivity; try (intros H'; discriminate H').
    intros _. eexists. reflexivity.
Qed.

Lemma fix_frame_witness :
  exists code,
    files (snd (fixCodeError_resume (initial true [] [barFile] 100000)
                  (PendingCreate [] (js "src/App.tsx") (js "src/App.tsx:boom")
                                 (js "Widget") (js "src/Widget.tsx"))
                  (okFix "export const Widget = 1")))
    = files (initial true [] [barFile] 100000) ++
      [mkFile ([47] ++ js "src/Widget.tsx") code].
Proof.
  apply (proj2 (proj2 (proj2 fix_frame))
           (initial true [] [barFile] 100000%Z) [] (js "src/App.tsx")
           (js "src/App.tsx:boom") (js "Widget") (js "src/Widget.tsx")
           (okFix "export const Widget = 1")).
  reflexivity.
Defined.

(** ** The first rule of the stack trace resolver *)

(** The first pattern asks for a backslash and letters d after the colon,
    so it matches no text without a backslash. *)
Lemma srcPathRe_needs_backslash text :
  includes [92] text = false -> regex_match srcPathRe text = None.
Proof.
  intros Hno. destruct (regex_match srcPathRe text) as [m|] eqn:E; [|reflexivity].
  apply search_from_sound in E as (a & b & Ht & M & _).
  unfold srcPathRe in M.
  apply matches_Seq_inv in M as (w1 & u1 & Hw & _ & M).
  apply matches_Seq_inv in M as (w2 & u2 & -> & _ & M).
  apply matches_Seq_inv in M as (w3 & u3 & -> & _ & M).
  apply matches_Seq_inv in M as (w4 & u4 & -> & M & _).
  apply matches_Grp_inv in M.
  apply matches_Seq_inv in M as (w5 & u5 & -> & M & _).
  rewrite Ht, Hw in Hno. clear Ht Hw.
  apply includes_false_inside in Hno.
  do 3 apply includes_false_app in Hno.
  inversion M as [|q c Hc Hq Hw5| | | | | | | |].
  apply N.eqb_eq in Hc. rewrite <- Hw5, <- Hc in Hno.
  assert (includes [92] (([92] ++ u5) ++ u4) = true) as Hyes.
  { apply includes_spec. exists [], (u5 ++ u4). rewrite <- app_assoc. reflexivity. }
  congruence.
Qed.

(** C6: the code breaks the claim.  A frame in the notation of Firefox and
    Safari embeds the sandbox URL of [src/pages/Bar.tsx] with line 10, and
    the resolver returns the path without the line: the first rule cannot
    match, and the rule that answers is the last one, which reads no line.
    The scenario of the design document has the [at Name (url)] shape and is
    answered, path and line, by the third rule. *)
Theorem parseStackTrace_loses_line :
  parseStackTrace (js "Bar@https://x.io/src/pages/Bar.tsx:10:5") None
  = mkLocation (Some (js "src/pages/Bar.tsx")) None /\
  regex_match srcPathRe
    ([10] ++ js "at Bar (https://x.io/src/pages/Bar.tsx:10:5)") = None /\
  parseStackTrace (js "at Bar (https://x.io/src/pages/Bar.tsx:10:5)") None
  = mkLocation (Some (js "src/pages/Bar.tsx")) (Some (Num 10)).
Proof. vm_compute. repeat split; reflexivity. Qed.

(** ** The rolling output log *)

Section OutputLog.

Lemma slice_last_length {A} (n : nat) (l : list A) :
  length (slice_last n l) = Nat.min n (length l).
Proof. unfold slice_last. rewrite length_drop. lia. Qed.

Lemma slice_last_app_ge {A} (n : nat) (l t : list A) :
  (n <= length t)%nat -> slice_last n (l ++ t) = slice_last n t.
Proof.
  intros H. unfold slice_last. rewrite length_app.
  replace (length l + length t - n)%nat with (length l + (length t - n))%nat by lia.
  rewrite drop_app_add. reflexivity.
Qed.

Lemma slice_last_all {A} (n : nat) (l : list A) :
  (length l <= n)%nat -> slice_last n l = l.
Proof.
  intros H. unfold slice_last.
  replace (length l - n)%nat with O by lia. reflexivity.
Qed.

(** The last [n] of [l ++ [x]] are the last [n - 1] of [l], and [x]. *)
Lemma slice_last_snoc {A} (n : nat) (l : list A) (x : A) :
  slice_last (S n) (l ++ [x]) = slice_last n l ++ [x].
Proof.
  unfold slice_last. rewrite length_app. cbn [length].
  replace (length l + 1 - S n)%nat with (length l - n)%nat by lia.
  rewrite drop_app_le by lia. reflexivity.
Qed.

Lemma slice_last_slice_last {A} (n m : nat) (l : list A) :
  (n <= m)%nat -> slice_last n (slice_last m l) = slice_last n l.
Proof.
  intros H. unfold slice_last. rewrite length_drop, drop_drop. f_equal. lia.
Qed.

Lemma appendOutput_length line prev :
  (length (appendOutput line prev) <= Nat.max (length prev) 101)%nat /\
  (filtered line = false -> length (appendOutput line prev) <= 101)%nat.
Proof.
  unfold appendOutput. destruct (filtered line).
  - split; [lia | discriminate].
  - rewrite length_app, slice_last_length. cbn [length]. split; [lia | intros _; lia].
Qed.

Lemma appendLines_length lines : forall prev,
  (length prev <= 101)%nat -> (length (appendLines lines prev) <= 101)%nat.
Proof.
  induction lines as [|line lines IH]; intros prev H; [exact H|].
  cbn. apply IH. pose proof (appendOutput_length line prev) as [H1 _]. lia.
Qed.

Lemma writeChunks_length (chunks : list jsstring) (prev : list jsstring) :
  (length prev <= 101)%nat ->
  (length (fold_left (fun log data => writeChunk data log) chunks prev) <= 101)%nat.
Proof.
  revert prev. induction chunks as [|data chunks IH]; intros prev H; [exact H|].
  cbn. apply IH. unfold writeChunk. apply appendLines_length, H.
Qed.

(** X1. The output log is bounded: starting from a log of at most 101
    lines, whatever chunks the processes write, the log never has more than
    101 lines. *)
Theorem output_log_bounded (chunks : list jsstring) (prev : list jsstring) :
  (length prev <= 101)%nat ->
  (length (fold_left (fun log data => writeChunk data log) chunks prev) <= 101)%nat.
Proof. apply writeChunks_length. Qed.

Lemma output_log_bounded_witness :
  (length (fold_left (fun log data => writeChunk data log)
                     [js "ready in 300 ms"; nl ++ js "Local: http://localhost:5173/"]
                     [js "booting"]) <= 101)%nat.
Proof.
  apply (output_log_bounded
           [js "ready in 300 ms"; nl ++ js "Local: http://localhost:5173/"]
           [js "booting"]).
  cbn. lia.
Defined.

(** X2. The capacity of the log never cuts into the window of the
    classifier: after a line is accepted, [parseError] sees exactly what it
    would see had the log kept every earlier line. *)
Theorem log_capacity_invisible_to_classifier (line : jsstring) (prev : list jsstring) :
  filtered line = false ->
  parseError (appendOutput line prev) = parseError (prev ++ [line]).
Proof.
  intros H. unfold appendOutput. rewrite H.
  unfold parseError, classifierText. do 3 f_equal.
  change 80%nat with (S 79). rewrite !slice_last_snoc.
  rewrite slice_last_slice_last by lia. reflexivity.
Qed.

Lemma log_capacity_invisible_to_classifier_witness :
  parseError (appendOutput (js "File: /home/project/src/App.tsx:1:1")
                           [js "[plugin:vite:react-babel] Unexpected token"])
  = parseError ([js "[plugin:vite:react-babel] Unexpected token"] ++
                [js "File: /home/project/src/App.tsx:1:1"]).
Proof.
  apply log_capacity_invisible_to_classifier. vm_compute. reflexivity.
Defined.

Lemma appendLines_Forall (P : jsstring -> Prop) lines : forall prev,
  (forall l, filtered l = false -> In l lines -> P l) ->
  Forall P prev -> Forall P (appendLines lines prev).
Proof.
  induction lines as [|line lines IH]; intros prev Hl Hp; [exact Hp|].
  cbn. apply IH; [intros l Hf Hin; apply Hl; [exact Hf | right; exact Hin]|].
  unfold appendOutput. destruct (filtered line) eqn:Hf; [exact Hp|].
  apply Forall_app. split.
  - unfold slice_last. apply Forall_drop, Hp.
  - constructor; [apply Hl; [exact Hf | left; reflexivity] | constructor].
Qed.

(** The lines a log may hold. *)
Lemma writeChunks_accepted (chunks : list jsstring) : forall prev,
  Forall (fun l => filtered l = false) prev ->
  Forall (fun l => filtered l = false)
         (fold_left (fun log data => writeChunk data log) chunks prev).
Proof.
  induction chunks as [|data chunks IH]; intros prev Hp; [exact Hp|].
  cbn. apply IH. unfold writeChunk. apply appendLines_Forall; [|exact Hp].
  intros l Hf _. exact Hf.
Qed.

(** X3. What the log never holds: starting empty, after any chunks, no line
    of the log contains a line-erase sequence ([[0K] or [[1G]]), and every
    line has at least two code units once trimmed. *)
Theorem output_log_lines_accepted (chunks : list jsstring) :
  Forall (fun l => includes (js "[0K") l = false /\
                   includes (js "[1G") l = false /\
                   (2 <= length (trim l))%nat)
         (fold_left (fun log data => writeChunk data log) chunks []).
Proof.
  eapply Forall_impl; [apply writeChunks_accepted; constructor|].
  intros l. cbn. unfold filtered. rewrite !orb_false_iff.
  intros [[H1 H2] H3]. apply Nat.ltb_ge in H3. auto.
Qed.

End OutputLog.

(** ** The terminal widget and the log *)

(** X4. Once the widget has written a full log (its index has reached the
    capacity of 101 lines), no later line of output is written to the
    terminal: the log never grows beyond the index, so the widget finds
    nothing new. *)
Theorem terminal_stops_at_capacity
        (t : TermState) (chunks : list jsstring) (prev : list jsstring) :
  (101 <= lastOutputIndex t)%nat ->
  (length prev <= 101)%nat ->
  writeOutput t (fold_left (fun log data => writeChunk data log) chunks prev) = t.
Proof.
  intros Hidx Hlen.
  pose proof (writeChunks_length chunks prev Hlen) as Hb.
  unfold writeOutput.
  destruct (Nat.eqb_spec (lastOutputIndex t) 0) as [H0|_]; [lia|].
  cbn [andb]. rewrite drop_ge by lia. reflexivity.
Qed.

Lemma terminal_stops_at_capacity_witness :
  writeOutput (mkTerm 101 [])
    (fold_left (fun log data => writeChunk data log)
               [js "page reload src/App.tsx"] (repeat (js "line") 101))
  = mkTerm 101 [].
Proof.
  apply (terminal_stops_at_capacity (mkTerm 101 []) [js "page reload src/App.tsx"]
           (repeat (js "line") 101)).
  - cbn. lia.
  - rewrite repeat_length. lia.
Defined.

(** X5. Below the capacity the widget follows the log: when it has written
    the whole log and the log has at most 100 lines, an accepted line is
    written to the terminal, once and coloured, and the index moves on. *)
Theorem terminal_follows_log (t : TermState) (line : jsstring) (prev : list jsstring) :
  lastOutputIndex t = length prev ->
  (0 < length prev <= 100)%nat ->
  filtered line = false ->
  writeOutput t (appendOutput line prev)
  = mkTerm (S (length prev)) (screen t ++ [colorLine line]).
Proof.
  intros Hidx Hlen Hacc. unfold appendOutput. rewrite Hacc.
  rewrite slice_last_all by lia. unfold writeOutput. rewrite Hidx.
  destruct (Nat.eqb_spec (length prev) 0) as [H0|_]; [lia|].
  cbn [andb]. rewrite drop_app_length, length_app. cbn.
  f_equal. lia.
Qed.

Lemma terminal_follows_log_witness :
  writeOutput (mkTerm 1 [js "booting"]) (appendOutput (js "ready in 300 ms") [js "booting"])
  = mkTerm 2 ([js "booting"] ++ [colorLine (js "ready in 300 ms")]).
Proof.
  apply (terminal_follows_log (mkTerm 1 [js "booting"]) (js "ready in 300 ms") [js "booting"]).
  - reflexivity.
  - cbn. lia.
  - vm_compute. reflexivity.
Defined.

(** ** Splitting output into lines *)

Section Split.

Lemma split_aux_nonempty sep n s acc : split_aux sep n s acc <> [].
Proof.
  revert n acc. induction s as [|c s IH]; intros n acc; cbn; [discriminate|].
  destruct n; [|apply IH]. destruct (startsWith sep (c :: s)); [discriminate | apply IH].
Qed.

Lemma join_cons sep x l : l <> [] -> join sep (x :: l) = x ++ sep ++ join sep l.
Proof. destruct l; [congruence | reflexivity]. Qed.

Lemma split_char_join c s : forall acc,
  join [c] (split_aux [c] O s acc) = rev acc ++ s.
Proof.
  induction s as [|d s IH]; intros acc; cbn [split_aux].
  - cbn. rewrite app_nil_r. reflexivity.
  - cbn [startsWith length Nat.sub]. rewrite andb_true_r.
    destruct (N.eqb_spec c d) as [->|Hne].
    + rewrite join_cons by apply split_aux_nonempty. rewrite IH. reflexivity.
    + rewrite IH. cbn [rev]. rewrite <- app_assoc. reflexivity.
Qed.

Lemma split_char_pieces c s : forall acc,
  ~ In c acc -> Forall (fun piece => ~ In c piece) (split_aux [c] O s acc).
Proof.
  induction s as [|d s IH]; intros acc Hacc; cbn [split_aux].
  - constructor; [|constructor]. rewrite <- in_rev. exact Hacc.
  - cbn [startsWith length Nat.sub]. rewrite andb_true_r.
    destruct (N.eqb_spec c d) as [->|Hne].
    + constructor; [rewrite <- in_rev; exact Hacc | apply IH; intros []].
    + apply IH. intros [H|H]; [congruence | exact (Hacc H)].
Qed.

(** Splitting a chunk at the line feeds and joining the pieces with line
    feeds gives the chunk back, and no piece contains a line feed. *)
Lemma split_join_lines (data : jsstring) :
  join nl (split nl data) = data /\
  Forall (fun piece => ~ In 10 piece) (split nl data).
Proof.
  split.
  - apply (split_char_join 10 data []).
  - apply (split_char_pieces 10 data []). intros [].
Qed.

(** X6. Process output enters the log line by line.  When no line of the
    log holds a line feed, none does after any chunks have been written,
    however the chunks cut the output: each chunk is split at its line
    feeds before its lines are appended. *)
Theorem chunks_enter_line_by_line (chunks : list jsstring) (prev : list jsstring) :
  Forall (fun l => ~ In 10 l) prev ->
  Forall (fun l => ~ In 10 l)
         (fold_left (fun log data => writeChunk data log) chunks prev).
Proof.
  revert prev. induction chunks as [|data chunks IH]; intros prev Hp; [exact Hp|].
  cbn [fold_left]. apply IH. unfold writeChunk.
  apply appendLines_Forall; [|exact Hp].
  intros l _ Hin. apply list_elem_of_In, list_elem_of_filter in Hin as [_ Hin].
  apply list_elem_of_In in Hin.
  pose proof (split_char_pieces 10 data [] (fun H => H)) as Hs.
  rewrite List.Forall_forall in Hs. apply Hs, Hin.
Qed.

Lemma chunks_enter_line_by_line_witness :
  Forall (fun l => ~ In 10 l)
         (fold_left (fun log data => writeChunk data log)
                    [js "ready in 300 ms" ++ nl ++ js "Local: http"; js "://localhost"]
                    [js "$ npm run dev"]).
Proof.
  apply (chunks_enter_line_by_line
           [js "ready in 300 ms" ++ nl ++ js "Local: http"; js "://localhost"]
           [js "$ npm run dev"]).
  constructor; [|constructor].
  vm_compute. intros H. repeat (destruct H as [H|H]; [discriminate H|]). exact H.
Defined.

End Split.

(** ** What the captures of a match hold *)

Section CaptureFacts.

Lemma sound_capture_weaken (r r0 : regex) (new : caps) :
  (forall g, In g (subgroups r) -> In g (subgroups r0)) ->
  Forall (sound_capture r) new -> Forall (sound_capture r0) new.
Proof.
  intros Hsub F. eapply Forall_impl; [exact F|]. intros e (r' & Hin & M).
  exists r'. split; [apply Hsub; exact Hin | exact M].
Qed.

(** Soundness of the matcher with its captures: besides consuming a word
    of the pattern, a success only adds captures that are words of their
    groups, and it adds one for every group that takes part in every
    match. *)
Lemma rmatch_sound_caps {A} r :
  forall s cs (k : jsstring -> caps -> option A) a,
    rmatch r s cs k = Some a ->
    exists w s' new,
      s = w ++ s' /\ matches r w /\ k s' (new ++ cs) = Some a /\
      Forall (sound_capture r) new /\
      (forall i, sets i r = true -> exists v, In (i, v) new).
Proof.
  induction r as [|p|r1 IH1 r2 IH2|r1 IH1 r2 IH2|r1 IH1|p|i r1 IH1|];
    intros s cs k a; cbn [rmatch].
  - intros H. exists [], s, []. split_and!; auto using matches; discriminate.
  - destruct s as [|c s]; [discriminate|].
    destruct (p c) eqn:Hc; [|discriminate].
    intros H. exists [c], s, []. split_and!; auto using matches; discriminate.
  - intros H. apply IH1 in H as (w1 & s1 & n1 & -> & M1 & H & F1 & S1).
    apply IH2 in H as (w2 & s2 & n2 & -> & M2 & H & F2 & S2).
    exists (w1 ++ w2), s2, (n2 ++ n1). rewrite <- !app_assoc.
    split_and!; auto using matches.
    + apply Forall_app. split.
      * eapply sound_capture_weaken; [|exact F2]. cbn. intros g Hg. apply in_or_app. auto.
      * eapply sound_capture_weaken; [|exact F1]. cbn. intros g Hg. apply in_or_app. auto.
    + intros i Hi. cbn in Hi. apply orb_true_iff in Hi as [Hi|Hi].
      * destruct (S1 i Hi) as [v Hv]. exists v. apply in_or_app. auto.
      * destruct (S2 i Hi) as [v Hv]. exists v. apply in_or_app. auto.
  - destruct (rmatch r1 s cs k) as [b|] eqn:E.
    + intros [= <-]. apply IH1 in E as (w & s' & n & -> & M & H & F & S1).
      exists w, s', n. split_and!; auto using matches.
      * eapply sound_capture_weaken; [|exact F]. cbn. intros g Hg. apply in_or_app. auto.
      * intros i Hi. cbn in Hi. apply andb_true_iff in Hi as [Hi _]. auto.
    + intros H. apply IH2 in H as (w & s' & n & -> & M & H & F & S2).
      exists w, s', n. split_and!; auto using matches.
      * eapply sound_capture_weaken; [|exact F]. cbn. intros g Hg. apply in_or_app. auto.
      * intros i Hi. cbn in Hi. apply andb_true_iff in Hi as [_ Hi]. auto.
  - destruct (rmatch r1 s cs k) as [b|] eqn:E.
    + intros [= <-]. apply IH1 in E as (w & s' & n & -> & M & H & F & S1).
      exists w, s', n. split_and!; auto using matches. discriminate.
    + intros H. exists [], s, []. split_and!; auto using matches. discriminate.
  - intros H. apply star_sound in H as (w & s' & -> & Hw & H).
    exists w, s', []. split_and!; auto using matches. discriminate.
  - intros H. apply IH1 in H as (w & s' & n & -> & M & H & F & S1).
    rewrite take_consumed in H.
    exists w, s', ((i, w) :: n). split_and!; auto using matches.
    + constructor.
      * exists r1. split; [left; reflexivity | exact M].
      * eapply sound_capture_weaken; [|exact F]. cbn. intros g Hg. right. exact Hg.
    + intros j Hj. cbn in Hj. apply orb_true_iff in Hj as [Hj|Hj].
      * apply Nat.eqb_eq in Hj as ->. exists w. left. reflexivity.
      * destruct (S1 j Hj) as [v Hv]. exists v. right. exact Hv.
  - destruct s as [|c s]; [|discriminate].
    intros H. exists [], [], []. split_and!; auto using matches. discriminate.
Qed.

Lemma cap_get_In (i : nat) (cs : caps) :
  (exists v, In (i, v) cs) -> exists v, cap_get i cs = Some v /\ In (i, v) cs.
Proof.
  induction cs as [|[j u] cs IH]; intros [v Hv]; [destruct Hv|].
  cbn. destruct (Nat.eqb_spec i j) as [->|Hne].
  - exists u. split; [reflexivity | left; reflexivity].
  - destruct Hv as [Hv|Hv]; [congruence|].
    destruct (IH (ex_intro _ v Hv)) as (v' & Hg & Hin).
    exists v'. split; [exact Hg | right; exact Hin].
Qed.

(** A group that takes part in every match reads, after a successful
    search, as a word of the body of a group with its number. *)
Lemma regex_match_group r s m i :
  regex_match r s = Some m -> sets i r = true ->
  exists r', In (i, r') (subgroups r) /\ matches r' (group m i).
Proof.
  unfold regex_match. generalize O as n. revert m.
  induction s as [|c s IH]; intros m n; rewrite search_from_eq.
  - destruct (match_here r []) as [[s' cs]|] eqn:E; [|discriminate].
    intros [= <-] Hi. unfold match_here in E.
    apply rmatch_sound_caps in E as (w & s1 & new & _ & _ & [= <- <-] & F & S1).
    rewrite app_nil_r. unfold group. cbn [m_caps].
    destruct (cap_get_In i new (S1 i Hi)) as (v & -> & Hin).
    apply (proj1 (List.Forall_forall _ _) F) in Hin. exact Hin.
  - destruct (match_here r (c :: s)) as [[s' cs]|] eqn:E.
    + intros [= <-] Hi. unfold match_here in E.
      apply rmatch_sound_caps in E as (w & s1 & new & _ & _ & [= <- <-] & F & S1).
      rewrite app_nil_r. unfold group. cbn [m_caps].
      destruct (cap_get_In i new (S1 i Hi)) as (v & -> & Hin).
      apply (proj1 (List.Forall_forall _ _) F) in Hin. exact Hin.
    + apply IH.
Qed.

(** A word of a pattern that opens with a literal starts with it. *)
Lemma matches_Cat_Lit l rest w :
  matches (Cat (Lit l :: rest)) w -> startsWith l w = true.
Proof.
  intros M. apply matches_Seq_inv in M as (w1 & w2 & -> & M1 & _).
  apply matches_Lit in M1 as ->. apply startsWith_app.
Qed.

End CaptureFacts.

(** ** Paths the classifier and the resolver return *)

Section ReturnedPaths.

(** The first group of a match, when its body opens with [src/], reads as
    a path under [src/]. *)
Lemma group1_in_src r text m rest :
  regex_match r text = Some m ->
  sets 1 r = true ->
  (forall r', In (1%nat, r') (subgroups r) -> r' = Cat (Lit (js "src/") :: rest)) ->
  startsWith (js "src/") (group m 1) = true.
Proof.
  intros Hm Hs Hg.
  destruct (regex_match_group r text m 1 Hm Hs) as (r' & Hin & M).
  rewrite (Hg r' Hin) in M.
  apply (matches_Cat_Lit _ _ _ M).
Qed.

Lemma fileLine_group m text :
  regex_match fileLineRe text = Some m -> startsWith (js "src/") (group m 1) = true.
Proof.
  intros Hm. apply (group1_in_src fileLineRe text m [Plus path_char; tsExt] Hm); [reflexivity|].
  intros r' H. cbn in H. destruct H as [H|[H|[]]].
  - injection H as <-. reflexivity.
  - discriminate H.
Qed.

Lemma inlineFile_group m text :
  regex_match inlineFileRe text = Some m -> startsWith (js "src/") (group m 1) = true.
Proof.
  intros Hm. apply (group1_in_src inlineFileRe text m [Plus inline_char; tsExt] Hm); [reflexivity|].
  intros r' H. cbn in H. destruct H as [H|[]].
  injection H as <-. reflexivity.
Qed.

Lemma srcFile_group m text :
  regex_match srcFileRe text = Some m -> startsWith (js "src/") (group m 1) = true.
Proof.
  intros Hm. apply (group1_in_src srcFileRe text m [Plus strict_char; tsExt] Hm); [reflexivity|].
  intros r' H. cbn in H. destruct H as [H|[]].
  injection H as <-. reflexivity.
Qed.

Lemma ts_group m text :
  regex_match tsRe text = Some m -> startsWith (js "src/") (group m 1) = true.
Proof.
  intros Hm. apply (group1_in_src tsRe text m [Plus strict_char; tsExt] Hm); [reflexivity|].
  intros r' H. cbn in H. destruct H as [H|[H|[H|[H|[H|[]]]]]]; try discriminate H.
  injection H as <-. reflexivity.
Qed.

Lemma candidate_file (o : option ErrorCandidate) f e c :
  o = Some (mkCandidate f e) -> o = Some c -> file c = f.
Proof. intros -> H. apply (f_equal (fun x => match x with Some y => file y | None => f end)) in H. symmetry. exact H. Qed.

Lemma viteRule_in_src text c :
  viteRule text = Some c -> startsWith (js "src/") (file c) = true.
Proof.
  unfold viteRule. destruct (includes _ text); [|discriminate].
  destruct (regex_match fileLineRe text) as [m|] eqn:E1.
  { intros H. rewrite (candidate_file _ _ _ _ eq_refl H). apply (fileLine_group m text E1). }
  destruct (regex_match inlineFileRe text) as [m|] eqn:E2; [|discriminate].
  intros H. rewrite (candidate_file _ _ _ _ eq_refl H). apply (inlineFile_group m text E2).
Qed.

Lemma importRule_in_src text c :
  importRule text = Some c -> startsWith (js "src/") (file c) = true.
Proof.
  unfold importRule. destruct (regex_match importRe text) as [m|]; [|discriminate].
  intros H. rewrite (candidate_file _ _ _ _ eq_refl H).
  destruct (startsWith (js "src/") (strip_leading_slash (group m 2))) eqn:Es;
    [exact Es | apply startsWith_app].
Qed.

Lemma tsRule_in_src text c :
  tsRule text = Some c -> startsWith (js "src/") (file c) = true.
Proof.
  unfold tsRule. destruct (regex_match tsRe text) as [m|] eqn:E; [|discriminate].
  intros H. rewrite (candidate_file _ _ _ _ eq_refl H). apply (ts_group m text E).
Qed.

Lemma syntaxRule_in_src text c :
  syntaxRule text = Some c -> startsWith (js "src/") (file c) = true.
Proof.
  unfold syntaxRule. destruct (_ || _); [|discriminate].
  destruct (regex_match srcFileRe text) as [m|] eqn:E; [|discriminate].
  intros H. rewrite (candidate_file _ _ _ _ eq_refl H). apply (srcFile_group m text E).
Qed.

Lemma moduleRule_in_src text c :
  moduleRule text = Some c -> startsWith (js "src/") (file c) = true.
Proof.
  unfold moduleRule. destruct (regex_match moduleRe text) as [mm|]; [|discriminate].
  destruct (regex_match srcFileRe text) as [m|] eqn:E; [|discriminate].
  intros H. rewrite (candidate_file _ _ _ _ eq_refl H). apply (srcFile_group m text E).
Qed.

Lemma first_rule_all (P : ErrorCandidate -> Prop) rules text c :
  Forall (fun rule => forall c', rule text = Some c' -> P c') rules ->
  first_rule rules text = Some c -> P c.
Proof.
  induction 1 as [|rule rules Hr _ IH]; cbn [first_rule]; [discriminate|].
  destruct (rule text) as [c'|] eqn:E; [|exact IH].
  intros H. assert (c' = c) as <- by congruence. apply Hr. reflexivity.
Qed.

(** X7. Every candidate of the classifier names a file under [src/]: the
    file of a candidate starts with [src/], whichever rule produced it; in
    particular it is never empty. *)
Theorem parseError_file_in_src (output : list jsstring) (c : ErrorCandidate) :
  parseError output = Some c ->
  startsWith (js "src/") (file c) = true.
Proof.
  unfold parseError, classify. set (text := classifierText output).
  destruct (_ && _); [discriminate|]. destruct (_ && _); [discriminate|].
  apply (first_rule_all (fun c => startsWith (js "src/") (file c) = true)).
  repeat constructor.
  - apply viteRule_in_src.
  - apply importRule_in_src.
  - apply tsRule_in_src.
  - apply syntaxRule_in_src.
  - apply moduleRule_in_src.
Qed.

Lemma parseError_file_in_src_witness :
  startsWith (js "src/")
    (file (mkCandidate (js "src/pages/Bar.tsx") (viteErrorText "src/pages/Bar.tsx"))) = true.
Proof.
  apply (parseError_file_in_src (viteOut "src/pages/Bar.tsx")).
  vm_compute. reflexivity.
Defined.

End ReturnedPaths.

(** ** What the stack trace resolver returns *)

Section ResolverFacts.

Lemma trimStart_spaces s : forallb is_space s = true -> trimStart s = [].
Proof.
  induction s as [|c s IH]; [reflexivity|]. cbn.
  intros H. apply andb_true_iff in H as [-> H]. apply IH, H.
Qed.

Lemma trim_spaces s : forallb is_space s = true -> trim s = [].
Proof. intros H. unfold trim. rewrite (trimStart_spaces s H). reflexivity. Qed.

(** X8. The resolver tolerates blank input: when the stack and the message
    (absent or not) hold nothing but white space, it returns no file and no
    line. *)
Theorem parseStackTrace_blank (stack : jsstring) (message : option jsstring) :
  forallb is_space stack = true ->
  forallb is_space (default [] message) = true ->
  parseStackTrace stack message = mkLocation None None.
Proof.
  intros Hs Hm. unfold parseStackTrace.
  rewrite trim_spaces; [reflexivity|].
  rewrite !forallb_app, Hs, Hm. reflexivity.
Qed.

Lemma parseStackTrace_blank_witness :
  parseStackTrace (js "   ") None = mkLocation None None.
Proof. apply parseStackTrace_blank; reflexivity. Defined.

Lemma react_group m text :
  regex_match reactRe text = Some m -> startsWith (js "src/") (group m 1) = true.
Proof.
  intros Hm.
  apply (group1_in_src reactRe text m [Plus (none_of (js ":)"))] Hm); [reflexivity|].
  intros r' H. cbn in H. destruct H as [H|[H|[]]]; [|discriminate H].
  injection H as <-. reflexivity.
Qed.

Lemma url_group m text :
  regex_match urlRe text = Some m -> startsWith (js "src/") (group m 1) = true.
Proof.
  intros Hm.
  apply (group1_in_src urlRe text m [Plus (none_of (js ":)"))] Hm); [reflexivity|].
  intros r' H. cbn in H. destruct H as [H|[H|[]]]; [|discriminate H].
  injection H as <-. reflexivity.
Qed.

Lemma simple_group m text :
  regex_match simpleRe text = Some m -> startsWith (js "src/") (group m 1) = true.
Proof.
  intros Hm.
  apply (group1_in_src simpleRe text m
           [Plus simple_char; Ch 46;
            Alt (Cat [Lit (js "ts"); Opt (Ch 120)]) (Cat [Lit (js "js"); Opt (Ch 120)])] Hm);
    [reflexivity|].
  intros r' H. cbn in H. destruct H as [H|[]].
  injection H as <-. reflexivity.
Qed.

Lemma some_in_src (x : jsstring) :
  startsWith (js "src/") x = true ->
  forall p, Some x = Some p -> startsWith (js "src/") p = true.
Proof. intros H p Hp. assert (x = p) as <- by congruence. exact H. Qed.

Lemma resolver_paths (stack : jsstring) (message : option jsstring) :
  (forall p, Resolver.filePath (parseStackTrace stack message) = Some p ->
             startsWith (js "src/") p = true) /\
  (Resolver.filePath (parseStackTrace stack message) = None ->
   lineNumber (parseStackTrace stack message) = None).
Proof.
  unfold parseStackTrace.
  set (text := default [] message ++ [10] ++ stack).
  destruct (trim text); [split; [discriminate | reflexivity]|].
  destruct (regex_match srcPathRe text) as [m1|].
  { cbn [Resolver.filePath lineNumber]. split; [|discriminate].
    apply some_in_src, startsWith_app. }
  destruct (regex_match renderMethodRe text) as [m2|].
  { destruct (regex_match (componentFilePattern (group m2 1)) text) as [m3|];
      cbn [Resolver.filePath lineNumber]; (split; [|discriminate]).
    - apply some_in_src, startsWith_app.
    - apply some_in_src.
      apply (startsWith_app (js "src/") (js "components/features/" ++ group m2 1 ++ js ".tsx")). }
  destruct (regex_match reactRe text) as [m4|] eqn:E4.
  { cbn [Resolver.filePath lineNumber]. split; [|discriminate].
    apply some_in_src, (react_group m4 text E4). }
  destruct (regex_match urlRe text) as [m5|] eqn:E5.
  { cbn [Resolver.filePath lineNumber]. split; [|discriminate].
    apply some_in_src, (url_group m5 text E5). }
  destruct (regex_match simpleRe text) as [m6|] eqn:E6.
  { cbn [Resolver.filePath lineNumber]. split; [|discriminate].
    apply some_in_src, (simple_group m6 text E6). }
  cbn [Resolver.filePath lineNumber]. split; [discriminate | reflexivity].
Qed.

(** X9. Whatever the input, a file the resolver returns is a path under
    [src/], and the resolver returns a line only together with a file. *)
Theorem parseStackTrace_in_src (stack : jsstring) (message : option jsstring) :
  (forall p, Resolver.filePath (parseStackTrace stack message) = Some p ->
             startsWith (js "src/") p = true) /\
  (Resolver.filePath (parseStackTrace stack message) = None ->
   lineNumber (parseStackTrace stack message) = None).
Proof. apply resolver_paths. Qed.

Lemma parseStackTrace_in_src_witness :
  startsWith (js "src/") (js "src/pages/Bar.tsx") = true.
Proof.
  apply (proj1 (parseStackTrace_in_src
                  (js "at Bar (https://x.io/src/pages/Bar.tsx:10:5)")
                  (Some (js "x is not defined")))).
  vm_compute. reflexivity.
Defined.

Lemma matches_Plus p w :
  matches (Plus p) w -> w <> [] /\ forallb p w = true.
Proof.
  intros M. apply matches_Seq_inv in M as (w1 & w2 & -> & M1 & M2).
  inversion M1 as [|q c Hc| | | | | | | |]; subst.
  inversion M2 as [| | | | | | |q u Hu| |]; subst.
  split; [discriminate|]. cbn. rewrite Hc, Hu. reflexivity.
Qed.

(** X10. The session id read off a preview URL is never empty and is made
    of word characters only, whether it comes from the URL or is the
    default. *)
Theorem sessionIdOf_word (url : jsstring) :
  sessionIdOf url <> [] /\ forallb is_word (sessionIdOf url) = true.
Proof.
  unfold sessionIdOf. destruct (regex_match sessionRe url) as [m|] eqn:E.
  - destruct (regex_match_group sessionRe url m 1 E eq_refl) as (r' & Hin & M).
    cbn in Hin. destruct Hin as [Hin|[]]. injection Hin as <-.
    apply matches_Plus, M.
  - split; [discriminate | reflexivity].
Qed.

End ResolverFacts.

(** ** The failed-import rule of the classifier *)

Section ImportRule.

Lemma quote_not_space c : quote c = true -> is_space c = false.
Proof.
  unfold quote. intros H. apply orb_true_iff in H as [H|H];
    apply N.eqb_eq in H as ->; reflexivity.
Qed.

(** A quoted, non-empty, quote-free string is captured whole. *)
Lemma quoted_group {A} i q1 body q2 rest tail cs
      (k : jsstring -> caps -> option A) a :
  quote q1 = true -> quote q2 = true ->
  body <> [] -> forallb not_quote body = true ->
  rmatch (Cat tail) rest ((i, body) :: cs) k = Some a ->
  rmatch (Cat (Chr quote :: Grp i (Plus not_quote) :: Chr quote :: tail))
         (q1 :: body ++ q2 :: rest) cs k = Some a.
Proof.
  intros Hq1 Hq2 Hne Hbody Hk.
  rewrite rmatch_Cat_cons. cbn [rmatch]. rewrite Hq1.
  rewrite rmatch_Cat_cons. cbn [rmatch].
  destruct body as [|b0 body]; [congruence|].
  simpl in Hbody. apply andb_true_iff in Hbody as [Hb0 Hbody].
  unfold Plus. cbn [rmatch app]. rewrite Hb0.
  apply star_app_run; [exact Hbody|].
  rewrite star_stops by (cbn; unfold not_quote; rewrite Hq2; reflexivity).
  rewrite (take_path (b0 :: body) (q2 :: rest)) by reflexivity.
  rewrite rmatch_Cat_cons. cbn [rmatch]. rewrite Hq2. exact Hk.
Qed.

Lemma spaces_then {A} ws t tail cs (k : jsstring -> caps -> option A) a :
  forallb is_space ws = true -> stops is_space t ->
  rmatch (Cat tail) t cs k = Some a ->
  rmatch (Cat (Star is_space :: tail)) (ws ++ t) cs k = Some a.
Proof.
  intros Hws Ht Hk. rewrite rmatch_Cat_cons. cbn [rmatch].
  apply star_app_run; [exact Hws|]. rewrite star_stops by exact Ht. exact Hk.
Qed.

(** At a failed-import diagnostic the pattern matches; its groups are the
    specifier and the importing file. *)
Lemma importRe_here ws1 q1 spec q2 ws2 ws3 q3 src q4 rest :
  forallb is_space ws1 = true -> forallb is_space ws2 = true ->
  forallb is_space ws3 = true ->
  quote q1 = true -> quote q2 = true -> quote q3 = true -> quote q4 = true ->
  spec <> [] -> forallb not_quote spec = true ->
  src <> [] -> forallb not_quote src = true ->
  match_here importRe
    (js "Failed to resolve import" ++ ws1 ++ q1 :: spec ++ q2 :: ws2 ++
     js "from" ++ ws3 ++ q3 :: src ++ q4 :: rest)
  = Some (rest, [(2%nat, src); (1%nat, spec)]).
Proof.
  intros Hw1 Hw2 Hw3 Hq1 Hq2 Hq3 Hq4 Hs1 Hs2 Hf1 Hf2.
  unfold match_here, importRe.
  rewrite rmatch_Cat_cons, rmatch_Lit_app.
  apply spaces_then; [exact Hw1 | cbn; apply quote_not_space, Hq1 |].
  apply quoted_group; try assumption.
  apply spaces_then; [exact Hw2 | reflexivity |].
  rewrite rmatch_Cat_cons, rmatch_Lit_app.
  apply spaces_then; [exact Hw3 | cbn; apply quote_not_space, Hq3 |].
  apply quoted_group; try assumption.
  reflexivity.
Qed.

Lemma importRe_needs_phrase s :
  startsWith (js "Failed to resolve import") s = false -> match_here importRe s = None.
Proof.
  intros H. unfold match_here, importRe.
  rewrite rmatch_Cat_cons, rmatch_Lit, H. reflexivity.
Qed.

(** X11. A failed import is attributed to the importing file.  When the
    normalized output has no build-plugin marker and no success marker, and
    its first [Failed to resolve import] is followed by a quoted specifier,
    [from], and a quoted importing file given relative to [src/], the
    candidate's file is the importing file and its error text names the
    specifier. *)
Theorem parseError_failed_import
        (output : list jsstring)
        (pre ws1 spec ws2 ws3 src rest : jsstring) (q1 q2 q3 q4 : N) :
  classifierText output =
    pre ++ js "Failed to resolve import" ++ ws1 ++ q1 :: spec ++ q2 :: ws2 ++
    js "from" ++ ws3 ++ q3 :: src ++ q4 :: rest ->
  indexOf (js "Failed to resolve import") (classifierText output) = Some (length pre) ->
  includes (js "[plugin:vite:") (classifierText output) = false ->
  includes (js "hmr update") (classifierText output) = false ->
  includes doneMarker (classifierText output) = false ->
  forallb is_space ws1 = true -> forallb is_space ws2 = true ->
  forallb is_space ws3 = true ->
  quote q1 = true -> quote q2 = true -> quote q3 = true -> quote q4 = true ->
  spec <> [] -> forallb not_quote spec = true ->
  forallb not_quote src = true -> startsWith (js "src/") src = true ->
  parseError output =
    Some (mkCandidate src
            (js "Import Error: Cannot find " ++ [34] ++ spec ++ [34] ++ js " in " ++
             src ++ nl ++ nl ++ js "Full error:" ++ nl ++
             slice_last 800 (classifierText output))).
Proof.
  intros Htext Hidx Hvite Hhmr Hdone Hw1 Hw2 Hw3 Hq1 Hq2 Hq3 Hq4 Hs1 Hs2 Hf2 Hsrc.
  assert (src <> []) as Hf1.
  { intros ->. discriminate Hsrc. }
  assert (regex_match importRe (classifierText output)
          = Some (mkMatch (length pre)
                    (js "Failed to resolve import" ++ ws1 ++ q1 :: spec ++ q2 :: ws2 ++
                     js "from" ++ ws3 ++ q3 :: src ++ [q4])
                    [(2%nat, src); (1%nat, spec)])) as Hm.
  { destruct (indexOf_first _ _ _ Hidx) as [_ Hbefore].
    unfold regex_match. rewrite (search_from_skip importRe (length pre)).
    - rewrite Htext, drop_app_length, search_from_eq.
      rewrite (importRe_here ws1 q1 spec q2 ws2 ws3 q3 src q4 rest) by assumption.
      cbn [Nat.add]. f_equal. f_equal.
      apply take_path. rewrite <- !app_assoc. cbn [app].
      repeat first [progress rewrite <- app_assoc | progress cbn [app] | progress f_equal].
    - intros j Hj. apply importRe_needs_phrase, Hbefore, Hj.
    - rewrite Htext, length_app. lia. }
  unfold parseError, classify. rewrite Hhmr, Hdone. cbn [andb first_rule].
  unfold viteRule. rewrite Hvite. unfold importRule. rewrite Hm.
  unfold group. cbn [m_caps cap_get Nat.eqb default]. unfold id.
  assert (strip_leading_slash src = src) as ->.
  { apply startsWith_spec in Hsrc as [t ->]. reflexivity. }
  rewrite Hsrc. reflexivity.
Qed.

(** The scenario of the design document. *)
Lemma parseError_failed_import_witness :
  parseError [js "Failed to resolve import './Widget' from 'src/App.tsx'"]
  = Some (mkCandidate (js "src/App.tsx")
            (js "Import Error: Cannot find " ++ [34] ++ js "./Widget" ++ [34] ++
             js " in " ++ js "src/App.tsx" ++ nl ++ nl ++ js "Full error:" ++ nl ++
             slice_last 800
               (classifierText [js "Failed to resolve import './Widget' from 'src/App.tsx'"]))).
Proof.
  apply (parseError_failed_import
           [js "Failed to resolve import './Widget' from 'src/App.tsx'"]
           [] (js " ") (js "./Widget") (js " ") (js " ") (js "src/App.tsx") []
           39 39 39 39); try (vm_compute; reflexivity); discriminate.
Defined.

End ImportRule.

(** ** The path and the name of a missing module *)

Section MissingModule.

Lemma endsWith_app a p : endsWith p (a ++ p) = true.
Proof. unfold endsWith. rewrite rev_app_distr. apply startsWith_app. Qed.

Lemma endsWith_prepend a p s : endsWith p s = true -> endsWith p (a ++ s) = true.
Proof.
  unfold endsWith. rewrite rev_app_distr, !startsWith_spec.
  intros [t ->]. exists (t ++ rev a). rewrite <- app_assoc. reflexivity.
Qed.

(** X12. The path made up for a missing module always lies under [src/] and
    always ends in [.ts] or [.tsx]; making it up again from the result
    changes nothing. *)
Theorem missingFilePath_shape (missingPath : jsstring) :
  startsWith (js "src/") (missingFilePath missingPath) = true /\
  (endsWith (js ".tsx") (missingFilePath missingPath) ||
   endsWith (js ".ts") (missingFilePath missingPath)) = true /\
  missingFilePath (missingFilePath missingPath) = missingFilePath missingPath.
Proof.
  assert (forall p, startsWith (js "src/") (missingFilePath p) = true /\
                    (endsWith (js ".tsx") (missingFilePath p) ||
                     endsWith (js ".ts") (missingFilePath p)) = true) as Hshape.
  { intros p. unfold missingFilePath.
    set (p1 := if startsWith (js "@/") p then replace_first (js "@/") (js "src/") p else p).
    set (p2 := if negb (endsWith (js ".tsx") p1) && negb (endsWith (js ".ts") p1)
               then p1 ++ js ".tsx" else p1).
    assert ((endsWith (js ".tsx") p2 || endsWith (js ".ts") p2) = true) as Hext.
    { subst p2. destruct (endsWith (js ".tsx") p1) eqn:E1; cbn [negb andb].
      - rewrite E1. reflexivity.
      - destruct (endsWith (js ".ts") p1) eqn:E2; cbn [negb].
        + rewrite E1, E2. reflexivity.
        + rewrite endsWith_app. reflexivity. }
    destruct (startsWith (js "src/") p2) eqn:Es; cbn [negb].
    - split; [exact Es | exact Hext].
    - split; [apply startsWith_app|].
      apply orb_true_iff in Hext as [H|H]; apply orb_true_iff;
        [left | right]; apply endsWith_prepend, H. }
  destruct (Hshape missingPath) as [Hs He]. split_and!; [exact Hs | exact He |].
  set (r := missingFilePath missingPath) in *.
  unfold missingFilePath.
  assert (startsWith (js "@/") r = false) as ->.
  { apply startsWith_spec in Hs as [t ->]. reflexivity. }
  apply orb_true_iff in He. destruct (endsWith (js ".tsx") r) eqn:E1; cbn [negb andb].
  - rewrite Hs. reflexivity.
  - destruct He as [He|He]; [discriminate|]. rewrite He. cbn [negb]. rewrite Hs. reflexivity.
Qed.

Lemma split_pop_slash s : forall acc,
  ~ In 47 acc -> ~ In 47 (split_pop_aux [47] O s acc).
Proof.
  induction s as [|c s IH]; intros acc Hacc; cbn [split_pop_aux].
  - rewrite <- in_rev. exact Hacc.
  - cbn [startsWith length Nat.sub]. rewrite andb_true_r.
    destruct (N.eqb_spec 47 c) as [<-|Hne].
    + apply IH. intros [].
    + apply IH. intros [H|H]; [congruence | exact (Hacc H)].
Qed.

Lemma remove_first_In r s x : In x (remove_first r s) -> In x s.
Proof.
  induction s as [|c s IH]; cbn [remove_first].
  - destruct (match_len r []) as [n|]; [|intros []].
    destruct n; cbn; intros [].
  - destruct (match_len r (c :: s)) as [n|].
    + intros H. apply list_elem_of_In. apply list_elem_of_In in H.
      eapply elem_of_sublist; [exact H | apply sublist_drop].
    + intros [H|H]; [left; exact H | right; apply IH, H].
Qed.

(** X13. The component name read off a missing module is never empty and
    never contains a slash. *)
Theorem componentNameOf_simple (missingPath : jsstring) :
  componentNameOf missingPath <> [] /\ ~ In 47 (componentNameOf missingPath).
Proof.
  unfold componentNameOf, or_else.
  destruct (remove_first sourceExtRe (split_pop (js "/") missingPath)) as [|c n] eqn:E.
  - split; [discriminate|]. cbn.
    intros H. repeat (destruct H as [H|H]; [discriminate H|]). exact H.
  - split; [discriminate|]. rewrite <- E. intros H.
    apply remove_first_In in H. revert H.
    apply (split_pop_slash missingPath []). intros [].
Qed.

End MissingModule.

(** ** The target of a repair *)

Lemma usable_content f : unusable (Some f) = false -> content f <> [].
Proof. cbn. destruct (content f); [discriminate | discriminate]. Qed.

Lemma findTarget_usable fs errorFile targetFile :
  findTarget fs errorFile = Some targetFile ->
  In targetFile fs /\ content targetFile <> [].
Proof.
  unfold findTarget.
  destruct (find _ fs) as [f1|] eqn:E1.
  - destruct (unusable (Some f1)) eqn:U1.
    + destruct (split_pop (js "/") errorFile) as [|c n].
      * rewrite U1. discriminate.
      * destruct (find (fun f => endsWith (c :: n) (path f)) fs) as [f2|] eqn:E2;
          [|cbn; discriminate].
        destruct (unusable (Some f2)) eqn:U2; [discriminate|].
        intros H. assert (f2 = targetFile) as <- by congruence.
        split; [apply (find_some _ _ E2) | apply usable_content, U2].
    + rewrite U1. intros H. assert (f1 = targetFile) as <- by congruence.
      split; [apply (find_some _ _ E1) | apply usable_content, U1].
  - cbn [unusable]. destruct (split_pop (js "/") errorFile) as [|c n]; [discriminate|].
    destruct (find (fun f => endsWith (c :: n) (path f)) fs) as [f2|] eqn:E2;
          [|cbn; discriminate].
    destruct (unusable (Some f2)) eqn:U2; [discriminate|].
    intros H. assert (f2 = targetFile) as <- by congruence.
    split; [apply (find_some _ _ E2) | apply usable_content, U2].
Qed.

(** X14. The repair flow only ever sends a file of the project, and never an
    empty one: when a dispatch goes to the service with a repair request,
    the target is one of the files the page holds, its content is not empty,
    and the request carries the error text with the path and the content of
    that file. *)
Theorem repair_request_is_a_project_file
        (out : list jsstring) (st st' : State) (errorFile errorText : jsstring)
        (out' : list jsstring) (ef ek : jsstring) (targetFile : SourceFile) :
  fixCodeError_start out st errorFile errorText
  = Awaiting (PendingRepair out' ef ek targetFile) st' ->
  In targetFile (filesRef st) /\
  content targetFile <> [] /\
  requests st' = requests st ++
                 [mkRequest errorText (path targetFile) (content targetFile)].
Proof.
  unfold fixCodeError_start.
  destruct (fixingRef st); [discriminate|].
  case_bool_decide; [discriminate|].
  destruct (regex_match missingImportRe errorText); [discriminate|].
  cbn [filesRef with_fixAttempts setFixing with_isFixing with_fixingRef].
  destruct (findTarget (filesRef st) errorFile) as [tf|] eqn:Ef; [|discriminate].
  intros Hst. assert (tf = targetFile) as <- by congruence.
  apply findTarget_usable in Ef as [Hin Hne].
  split_and!; [exact Hin | exact Hne |].
  assert (st' = post (mkRequest errorText (path tf) (content tf))
                  (addMessage MsgThinking
                     (wrenchMark ++ js " Auto-fixing error in " ++ path tf ++ js "...")
                     (with_fixAttempts (fixAttempts st + 1) (setFixing true st))))
    as -> by congruence.
  reflexivity.
Qed.

Lemma repair_request_is_a_project_file_witness :
  In barFile (filesRef (initial true [] [barFile] 100000)) /\
  content barFile <> [] /\
  requests (stateOf (fixCodeError_start [] (initial true [] [barFile] 100000)
                       (js "src/pages/Bar.tsx") (js "Unexpected token")))
  = requests (initial true [] [barFile] 100000) ++
    [mkRequest (js "Unexpected token") (path barFile) (content barFile)].
Proof.
  apply (repair_request_is_a_project_file
           [] (initial true [] [barFile] 100000)
           (stateOf (fixCodeError_start [] (initial true [] [barFile] 100000)
                       (js "src/pages/Bar.tsx") (js "Unexpected token")))
           (js "src/pages/Bar.tsx") (js "Unexpected token")
           [] (js "src/pages/Bar.tsx")
           (errorKeyOf (js "src/pages/Bar.tsx") (js "Unexpected token")) barFile).
  vm_compute. reflexivity.
Defined.

(** ** The shape of each operation of the loop *)

Section Shapes.

Lemma watcherEffect_shape st :
  watcherEffect st = with_watchTimer None st \/
  exists c,
    parseError (terminalOutput st) = Some c /\
    watcherEffect st =
    with_watchTimer
      (Some ((clock st + 1500)%Z,
             TaskFix (terminalOutput st) (file c) (error c)))
      (with_lastFixTimeRef (<[file c := clock st]> (lastFixTimeRef st))
         (with_watchTimer None st)).
Proof.
  unfold watcherEffect. cbn.
  destruct (negb (isRunning st) || fixingRef st || isFixing st); [left; reflexivity|].
  destruct (MAX_FIX_ATTEMPTS <=? fixAttempts st); [left; reflexivity|].
  destruct (parseError (terminalOutput st)) as [c|] eqn:Ec; [|left; reflexivity].
  destruct (file c) as [|x f] eqn:Ef; [left; reflexivity|].
  destruct (_ <? _)%Z; [left; reflexivity|].
  case_bool_decide; [left; reflexivity|].
  right. exists c. rewrite Ef. split; reflexivity.
Qed.

Lemma handleRuntimeError_shape d st :
  handleRuntimeError d st = st \/
  exists t, handleRuntimeError d st = with_timers (timers st ++ [t]) st /\
            expiryOf t = None.
Proof.
  unfold handleRuntimeError.
  repeat case_match; try (left; reflexivity); right; eexists; split; reflexivity.
Qed.

Lemma start_returned_shape out st errorFile errorText b st' :
  fixCodeError_start out st errorFile errorText = Returned b st' ->
  st' = st \/
  (fixingRef st = false /\
   st' = setFixing false (with_fixAttempts (fixAttempts st + 1) (setFixing true st))).
Proof.
  unfold fixCodeError_start.
  destruct (fixingRef st) eqn:Hf; [intros [= _ <-]; left; reflexivity|].
  case_bool_decide; [intros [= _ <-]; left; reflexivity|].
  destruct (regex_match missingImportRe errorText); [discriminate|].
  destruct (findTarget _ errorFile); [discriminate|].
  intros [= _ <-]. right. split; reflexivity.
Qed.

Lemma start_awaiting_shape out st errorFile errorText p st' :
  fixCodeError_start out st errorFile errorText = Awaiting p st' ->
  exists r text,
    st' = post r (addMessage MsgThinking text
                    (with_fixAttempts (fixAttempts st + 1) (setFixing true st))).
Proof.
  unfold fixCodeError_start.
  destruct (fixingRef st); [discriminate|].
  case_bool_decide; [discriminate|].
  destruct (regex_match missingImportRe errorText).
  - intros [= _ <-]. eexists _, _. reflexivity.
  - destruct (findTarget _ errorFile); [|discriminate].
    intros [= _ <-]. eexists _, _. reflexivity.
Qed.

(** What the second half of a dispatch does to the counters, the output log
    and the paths of the files. *)
Lemma resume_counts st p o :
  let st' := snd (fixCodeError_resume st p o) in
  terminalOutput st' = terminalOutput st /\
  isRunning st' = isRunning st /\
  fixAttempts st' = fixAttempts st /\
  requests st' = requests st /\
  inflight st' = inflight st /\
  (fixCount st' = fixCount st \/ fixCount st' = fixCount st + 1) /\
  exists more, map path (files st') = map path (files st) ++ more.
Proof.
  assert (forall code (fs : list SourceFile) tp,
            map path (map (fun f => if str_eqb (path f) tp
                                    then mkFile (path f) code else f) fs)
            = map path fs) as Hmap.
  { intros code fs tp. rewrite map_map. apply map_ext. intros f.
    destruct (str_eqb (path f) tp); reflexivity. }
  unfold fixCodeError_resume, finish.
  repeat case_match; cbn; split_and!; try reflexivity;
    try (left; reflexivity); try (right; reflexivity);
    try (exists []; rewrite app_nil_r; reflexivity).
  - eexists. rewrite map_app. reflexivity.
  - exists []. rewrite app_nil_r. apply Hmap.
Qed.

End Shapes.

(** ** The counters of the loop *)

Section Accounting.

Lemma accounted_same st st' :
  accounted st ->
  fixCount st' = fixCount st -> inflight st' = inflight st ->
  requests st' = requests st -> fixAttempts st' = fixAttempts st ->
  accounted st'.
Proof. unfold accounted. intros H -> -> -> ->. exact H. Qed.

Lemma accounted_watcher st : accounted st -> accounted (watcherEffect st).
Proof.
  intros H. destruct (watcherEffect_shape st) as [-> | (c & _ & ->)];
    apply (accounted_same st); try reflexivity; exact H.
Qed.

Lemma accounted_rerender st : accounted st -> accounted (rerender st).
Proof.
  intros H. unfold rerender. apply accounted_watcher.
  apply (accounted_same st); try reflexivity; exact H.
Qed.

Lemma accounted_dispatch out st errorFile errorText :
  accounted st -> accounted (dispatch out st errorFile errorText).
Proof.
  intros H. unfold dispatch.
  destruct (fixCodeError_start out st errorFile errorText) as [b st'|p st'] eqn:E.
  - apply start_returned_shape in E as [-> | [_ ->]]; [exact H|].
    destruct H as [H1 H2]. unfold accounted. cbn. split; [exact H1 | lia].
  - apply start_awaiting_shape in E as (r & text & ->).
    apply accounted_rerender. destruct H as [H1 H2].
    unfold accounted. cbn. rewrite !length_app. cbn. split; lia.
Qed.

Lemma accounted_runTask t st : accounted st -> accounted (runTask t st).
Proof.
  intros H. destruct (expiryOf (0%Z, t)) eqn:E.
  - destruct t; try discriminate. apply (accounted_same st); try reflexivity; exact H.
  - destruct (runTask_other 0%Z t st E) as [-> | (out & f & e & ->)];
      [exact H | apply accounted_dispatch, H].
Qed.

Lemma accounted_step st ev : accounted st -> accounted (step st ev).
Proof.
  intros H. destruct ev as [out|b|d|t| |i|i o]; cbn [step].
  - apply accounted_rerender. apply (accounted_same st); try reflexivity; exact H.
  - apply accounted_rerender. apply (accounted_same st); try reflexivity; exact H.
  - destruct (handleRuntimeError_shape d st) as [-> | (t & -> & _)]; [exact H|].
    apply (accounted_same st); try reflexivity; exact H.
  - destruct (clock st <=? t)%Z; [|exact H].
    apply (accounted_same st); try reflexivity; exact H.
  - destruct (watchTimer st) as [[due t]|]; [|exact H].
    destruct (due <=? clock st)%Z; [|exact H].
    apply accounted_runTask. apply (accounted_same st); try reflexivity; exact H.
  - destruct (timers st !! i) as [[due t]|]; [|exact H].
    destruct (due <=? clock st)%Z; [|exact H].
    apply accounted_runTask. apply (accounted_same st); try reflexivity; exact H.
  - destruct (inflight st !! i) as [p|] eqn:Ei; [|exact H].
    apply accounted_rerender.
    set (st1 := with_inflight (delete i (inflight st)) st).
    destruct (resume_counts st1 p o) as (_ & _ & Ea & Er & Ein & Ec & _).
    destruct H as [H1 H2]. unfold accounted. rewrite Ea, Er, Ein. cbn.
    assert (length (inflight st) = S (length (delete i (inflight st)))) as Hlen.
    { pose proof (lookup_lt_Some _ _ _ Ei). rewrite length_delete by eauto. lia. }
    split; [|exact H2]. destruct Ec as [-> | ->]; cbn; lia.
Qed.

(** X15. The counters of a session agree.  Over any run of the loop from the
    start of a session, the fixes counted plus the dispatches in flight
    never exceed the requests sent to the repair service, and the requests
    sent never exceed the attempt counter. *)
Theorem counters_agree running out fs now (evs : list Event) :
  fixCount (run (initial running out fs now) evs) +
  N.of_nat (length (inflight (run (initial running out fs now) evs)))
  <= N.of_nat (length (requests (run (initial running out fs now) evs))) /\
  N.of_nat (length (requests (run (initial running out fs now) evs)))
  <= fixAttempts (run (initial running out fs now) evs).
Proof.
  assert (forall evs st, accounted st -> accounted (run st evs)) as Hrun.
  { clear. induction evs as [|ev evs IH]; intros st H; [exact H|].
    apply IH, accounted_step, H. }
  apply (Hrun evs (initial running out fs now)).
  unfold accounted. cbn. lia.
Qed.

End Accounting.

(** ** The project files over a run *)

Section FilesGrow.

Lemma grows_same st st' : files st' = files st -> grows st st'.
Proof. intros E. exists []. rewrite E, app_nil_r. reflexivity. Qed.

Lemma grows_trans st1 st2 st3 : grows st1 st2 -> grows st2 st3 -> grows st1 st3.
Proof.
  intros [m1 E1] [m2 E2]. exists (m1 ++ m2). rewrite E2, E1, app_assoc. reflexivity.
Qed.

Lemma files_watcher st : files (watcherEffect st) = files st.
Proof. destruct (watcherEffect_shape st) as [-> | (c & _ & ->)]; reflexivity. Qed.

Lemma files_rerender st : files (rerender st) = files st.
Proof. unfold rerender. rewrite files_watcher. reflexivity. Qed.

Lemma files_dispatch out st errorFile errorText :
  files (dispatch out st errorFile errorText) = files st.
Proof.
  unfold dispatch.
  destruct (fixCodeError_start out st errorFile errorText) as [b st'|p st'] eqn:E.
  - apply start_returned_shape in E as [-> | [_ ->]]; reflexivity.
  - apply start_awaiting_shape in E as (r & text & ->).
    rewrite files_rerender. reflexivity.
Qed.

Lemma files_runTask t st : files (runTask t st) = files st.
Proof.
  destruct (expiryOf (0%Z, t)) eqn:E.
  - destruct t; try discriminate. reflexivity.
  - destruct (runTask_other 0%Z t st E) as [-> | (out & f & e & ->)];
      [reflexivity | apply files_dispatch].
Qed.

Lemma grows_step st ev : grows st (step st ev).
Proof.
  destruct ev as [out|b|d|t| |i|i o]; cbn [step].
  - apply grows_same. rewrite files_rerender. reflexivity.
  - apply grows_same. rewrite files_rerender. reflexivity.
  - apply grows_same.
    destruct (handleRuntimeError_shape d st) as [-> | (t & -> & _)]; reflexivity.
  - apply grows_same. destruct (clock st <=? t)%Z; reflexivity.
  - apply grows_same. destruct (watchTimer st) as [[due t]|]; [|reflexivity].
    destruct (due <=? clock st)%Z; [|reflexivity].
    rewrite files_runTask. reflexivity.
  - apply grows_same. destruct (timers st !! i) as [[due t]|]; [|reflexivity].
    destruct (due <=? clock st)%Z; [|reflexivity].
    rewrite files_runTask. reflexivity.
  - destruct (inflight st !! i) as [p|] eqn:Ei; [|apply grows_same; reflexivity].
    set (st1 := with_inflight (delete i (inflight st)) st).
    destruct (resume_counts st1 p o) as (_ & _ & _ & _ & _ & _ & more & Em).
    exists more. rewrite files_rerender. exact Em.
Qed.

(** X16. The repair loop never removes or reorders a project file.  After any
    run of the loop the list of project paths is the list before the run,
    in the same order, followed by the paths the repairs have added. *)
Theorem loop_keeps_project_paths st (evs : list Event) :
  exists more,
    map path (files (run st evs)) = map path (files st) ++ more.
Proof.
  revert st. induction evs as [|ev evs IH]; intros st.
  - exists []. rewrite app_nil_r. reflexivity.
  - change (run st (ev :: evs)) with (run (step st ev) evs).
    exact (grows_trans _ _ _ (grows_step st ev) (IH (step st ev))).
Qed.

End FilesGrow.

(** ** Keys that are never released *)

Section KeptKeys.

Import Sessions.

Lemma kept_transfer k st st' :
  fixedFilesRef st' = fixedFilesRef st -> timers st' = timers st ->
  kept k st -> kept k st'.
Proof. unfold kept. intros -> ->. auto. Qed.

Lemma kept_step k st ev : wf st -> kept k st -> kept k (step st ev).
Proof.
  intros Hwf Hk. destruct ev as [out|b|d|t| |i|i o]; cbn [step].
  - destruct (rerender_keeps (with_terminalOutput out st)) as (_ & _ & E1 & E2 & _).
    apply (kept_transfer _ st); assumption.
  - destruct (rerender_keeps (with_isRunning b st)) as (_ & _ & E1 & E2 & _).
    apply (kept_transfer _ st); assumption.
  - destruct Hk as [H1 H2].
    destruct (handleRuntimeError_keeps d st)
      as (_ & _ & E1 & _ & _ & _ & _ & _ & [E2 | (t & E2 & Ht)]);
      unfold kept; rewrite E1, E2; split; try assumption.
    intros t' Ht'. apply elem_of_app in Ht' as [Ht'|Ht']; [apply H2; assumption|].
    apply list_elem_of_singleton in Ht' as ->. congruence.
  - destruct (clock st <=? t)%Z; exact Hk.
  - destruct (watchTimer st) as [[due t]|] eqn:Ew; [|exact Hk].
    destruct (due <=? clock st)%Z; [|exact Hk].
    assert (expiryOf (due, t) = None) as Ht by (apply Hwf; exact Ew).
    destruct (runTask_other_keeps due t (with_watchTimer None st) Ht) as (E1 & E2 & _).
    apply (kept_transfer _ st); assumption.
  - destruct (timers st !! i) as [[due t]|] eqn:Ei; [|exact Hk].
    destruct (due <=? clock st)%Z; [|exact Hk].
    destruct Hk as [H1 H2].
    assert (forall t', t' ∈ delete i (timers st) -> t' ∈ timers st) as Hsub.
    { intros t'. apply list_elem_of_delete_inv. }
    destruct (expiryOf (due, t)) as [k'|] eqn:Ek.
    + destruct t as [| k0 | | |]; try discriminate. cbn in Ek.
      assert (k0 = k') as -> by congruence. clear Ek.
      assert (k' <> k) as Hne.
      { intros ->. apply list_elem_of_lookup_2 in Ei.
        apply (H2 _ Ei). reflexivity. }
      cbn [runTask]. unfold kept. cbn. split.
      * apply elem_of_difference. split; [exact H1|].
        intros Hin. apply elem_of_singleton in Hin. congruence.
      * intros t' Ht'. apply H2, Hsub, Ht'.
    + destruct (runTask_other_keeps due t (with_timers (delete i (timers st)) st) Ek)
        as (E1 & E2 & _).
      unfold kept. rewrite E1, E2. cbn. split; [exact H1|].
      intros t' Ht'. apply H2, Hsub, Ht'.
  - destruct (inflight st !! i) as [p|] eqn:Ei; [|exact Hk].
    set (st1 := with_inflight (delete i (inflight st)) st).
    destruct (rerender_keeps (snd (fixCodeError_resume st1 p o)))
      as (_ & _ & E1 & E2 & _).
    destruct (resume_effect st1 p o) as (_ & _ & _ & _ & _ & _ & _ & Hfail & Hok).
    destruct Hk as [H1 H2].
    assert (pendingKey p <> k) as Hne.
    { intros <-. apply (wf_keys st Hwf p); [|exact H1].
      apply list_elem_of_lookup_2 in Ei. exact Ei. }
    unfold kept. rewrite E1, E2.
    destruct (fst (fixCodeError_resume st1 p o)).
    + destruct (Hok eq_refl) as (Ef & ex & t1 & t2 & Et & Ht1 & Ht2 & Hex).
      rewrite Ef, Et. cbn. split; [apply elem_of_union_r; exact H1|].
      intros t Ht. apply elem_of_app in Ht as [Ht|Ht]; [apply H2; assumption|].
      apply elem_of_app in Ht as [Ht|Ht].
      * destruct Hex as [-> | ->]; [inversion Ht|].
        apply list_elem_of_singleton in Ht as ->. cbn. congruence.
      * apply elem_of_cons in Ht as [-> | Ht]; [congruence|].
        apply list_elem_of_singleton in Ht as ->. congruence.
    + destruct (Hfail eq_refl) as (Ef & Et & _). rewrite Ef, Et. cbn. auto.
Qed.

Lemma kept_run k evs : forall st, wf st -> kept k st -> kept k (run st evs).
Proof.
  induction evs as [|ev evs IH]; intros st Hwf Hk; [exact Hk|].
  change (run st (ev :: evs)) with (run (step st ev) evs).
  apply IH; [apply wf_step, Hwf | apply kept_step; assumption].
Qed.

(** A created component leaves no expiry behind. *)
Lemma create_success_timers st out errorFile errorKey componentName filePath o :
  fst (fixCodeError_resume st
         (PendingCreate out errorFile errorKey componentName filePath) o) = true ->
  exists t1 t2,
    timers (snd (fixCodeError_resume st
                   (PendingCreate out errorFile errorKey componentName filePath) o))
    = timers st ++ [t1; t2] /\
    expiryOf t1 = None /\ expiryOf t2 = None.
Proof.
  unfold fixCodeError_resume, finish.
  repeat case_match; cbn; try (intros H'; discriminate H'); intros _.
  eexists _, _. rewrite <- ?app_assoc. cbn. split_and!; reflexivity.
Qed.

Lemma kept_after_create st i out errorFile errorKey componentName filePath o :
  wf st ->
  inflight st !! i
  = Some (PendingCreate out errorFile errorKey componentName filePath) ->
  fst (fixCodeError_resume (with_inflight (delete i (inflight st)) st)
         (PendingCreate out errorFile errorKey componentName filePath) o) = true ->
  kept errorKey (step st (Settle i o)).
Proof.
  intros Hwf Hi Hb. cbn [step]. rewrite Hi.
  set (p := PendingCreate out errorFile errorKey componentName filePath) in *.
  set (st1 := with_inflight (delete i (inflight st)) st) in *.
  destruct (rerender_keeps (snd (fixCodeError_resume st1 p o)))
    as (_ & _ & E1 & E2 & _).
  destruct (resume_effect st1 p o) as (_ & _ & _ & _ & _ & _ & _ & _ & Hok).
  destruct (Hok Hb) as (Ef & _).
  destruct (create_success_timers st1 out errorFile errorKey componentName filePath o Hb)
    as (t1 & t2 & Et & Ht1 & Ht2).
  fold p in Et. unfold kept. rewrite E1, E2, Ef, Et. cbn. split.
  - apply elem_of_union_l, elem_of_singleton. reflexivity.
  - intros t Ht Hk. apply elem_of_app in Ht as [Ht|Ht].
    + apply (wf_keys st Hwf p).
      * apply list_elem_of_lookup_2 in Hi. exact Hi.
      * apply (wf_expiry st Hwf t _ Ht Hk).
    + apply elem_of_cons in Ht as [-> | Ht]; [congruence|].
      apply list_elem_of_singleton in Ht as ->. congruence.
Qed.

(** X17. The key of a created component is never released.  Once the
    create flow has succeeded for a key, the key stays in the fixed set
    through every later run of the loop, however long: the create flow
    sets no timer that would delete it.  So every later dispatch of a
    candidate with that same key returns false at once and leaves the state
    as it is. *)
Theorem created_key_is_never_released
        running out0 fs now (evs0 : list Event) (i : nat)
        out errorFile errorKey componentName filePath (o : FetchOutcome)
        (evs : list Event) :
  inflight (run (initial running out0 fs now) evs0) !! i
  = Some (PendingCreate out errorFile errorKey componentName filePath) ->
  fst (fixCodeError_resume
         (with_inflight
            (delete i (inflight (run (initial running out0 fs now) evs0)))
            (run (initial running out0 fs now) evs0))
         (PendingCreate out errorFile errorKey componentName filePath) o) = true ->
  errorKey ∈
    fixedFilesRef (run (step (run (initial running out0 fs now) evs0) (Settle i o)) evs) /\
  forall out' errorFile' errorText',
    errorKeyOf errorFile' errorText' = errorKey ->
    fixCodeError_start out'
      (run (step (run (initial running out0 fs now) evs0) (Settle i o)) evs)
      errorFile' errorText'
    = Returned false
        (run (step (run (initial running out0 fs now) evs0) (Settle i o)) evs).
Proof.
  intros Hi Hb.
  set (st := run (initial running out0 fs now) evs0) in *.
  assert (wf st) as Hwf by apply wf_run, wf_initial.
  pose proof (kept_after_create st i _ _ _ _ _ o Hwf Hi Hb) as Hk.
  apply (kept_run _ evs) in Hk; [|apply wf_step, Hwf].
  destruct Hk as [Hin _]. split; [exact Hin|].
  intros out' errorFile' errorText' Hkey.
  apply start_guard_fixed. rewrite Hkey. exact Hin.
Qed.

Lemma created_key_is_never_released_witness :
  errorKeyOf (js "src/App.tsx") widgetErrorText ∈
    fixedFilesRef
      (run (step (run (initial true [] [appFile] 100000) widgetDispatch)
                 (Settle 0 (okFix "export const Widget = () => null")))
           nextDay).
Proof.
  apply (created_key_is_never_released
           true [] [appFile] 100000%Z widgetDispatch O
           widgetOut (js "src/App.tsx")
           (errorKeyOf (js "src/App.tsx") widgetErrorText)
           (js "Widget") (js "src/./Widget.tsx")
           (okFix "export const Widget = () => null") nextDay).
  - vm_compute. reflexivity.
  - vm_compute. reflexivity.
Defined.

End KeptKeys.

(** ** The loop after the budget is used up *)

Section Exhausted.

Lemma exhausted_step st ev :
  exhausted st ->
  exhausted (step st ev) /\
  requests (step st ev) = requests st /\
  files (step st ev) = files st /\
  messages (step st ev) = messages st /\
  sandboxWrites (step st ev) = sandboxWrites st.
Proof.
  intros (Hb & Hf & Hi & Hw & Ht).
  destruct ev as [out|b|d|t| |i|i o]; cbn [step].
  - unfold rerender. rewrite watcher_respects_budget by exact Hb.
    unfold exhausted. cbn. auto 10.
  - unfold rerender. rewrite watcher_respects_budget by exact Hb.
    unfold exhausted. cbn. auto 10.
  - rewrite runtime_respects_budget by exact Hb. unfold exhausted. auto 10.
  - destruct (clock st <=? t)%Z; unfold exhausted; cbn; auto 10.
  - rewrite Hw. unfold exhausted. auto 10.
  - destruct (timers st !! i) as [[due t]|] eqn:Ei; [|unfold exhausted; auto 10].
    destruct (due <=? clock st)%Z; [|unfold exhausted; auto 10].
    assert (expiryOf (due, t) <> None) as Hne.
    { apply Ht. apply list_elem_of_lookup_2 in Ei. exact Ei. }
    destruct t as [| k | | |]; try (exfalso; apply Hne; reflexivity).
    cbn [runTask]. unfold exhausted. cbn. split_and!; try assumption; try reflexivity.
    intros t' Ht'. apply Ht. revert Ht'. apply list_elem_of_delete_inv.
  - rewrite Hi. rewrite lookup_nil. unfold exhausted. auto 10.
Qed.

(** X18. A loop that has used up its budget and has nothing pending stays
    silent.  From a state whose attempt counter has reached the cap, with no
    dispatch in flight, no watcher timeout and only expiries among the
    timers, no run of the loop sends a request, changes a project file,
    writes to the sandbox or adds a chat message, whatever the output log
    and the preview frame report. *)
Theorem exhausted_loop_is_silent (st : State) (evs : list Event) :
  MAX_FIX_ATTEMPTS <= fixAttempts st ->
  fixingRef st = false ->
  inflight st = [] ->
  watchTimer st = None ->
  (forall t, t ∈ timers st -> expiryOf t <> None) ->
  requests (run st evs) = requests st /\
  files (run st evs) = files st /\
  messages (run st evs) = messages st /\
  sandboxWrites (run st evs) = sandboxWrites st.
Proof.
  intros H1 H2 H3 H4 H5.
  assert (exhausted st) as He by (unfold exhausted; auto).
  clear H1 H2 H3 H4 H5. revert st He.
  induction evs as [|ev evs IH]; intros st He; [auto|].
  change (run st (ev :: evs)) with (run (step st ev) evs).
  destruct (exhausted_step st ev He) as (He' & E1 & E2 & E3 & E4).
  destruct (IH _ He') as (-> & -> & -> & ->). auto.
Qed.

Lemma exhausted_loop_is_silent_witness :
  requests (run (with_fixAttempts 50 (initial true (viteOut "src/pages/Bar.tsx")
                                        [barFile] 100000))
                [Running true; RuntimeError barReport; Tick 200000; FireWatch; Fire 0])
  = [].
Proof.
  apply (exhausted_loop_is_silent
           (with_fixAttempts 50 (initial true (viteOut "src/pages/Bar.tsx")
                                   [barFile] 100000))
           [Running true; RuntimeError barReport; Tick 200000; FireWatch; Fire 0]).
  - vm_compute. discriminate.
  - reflexivity.
  - reflexivity.
  - reflexivity.
  - intros t Ht. cbn in Ht. inversion Ht.
Defined.

End Exhausted.

(** ** The watcher's timeout *)

Section WatcherTimeout.

Lemma watchCurrent_same st st' :
  watchTimer st' = watchTimer st -> terminalOutput st' = terminalOutput st ->
  lastFixTimeRef st' = lastFixTimeRef st ->
  watchCurrent st -> watchCurrent st'.
Proof. unfold watchCurrent. intros -> -> ->. auto. Qed.

Lemma watchCurrent_none st : watchTimer st = None -> watchCurrent st.
Proof. intros E due t Ht. congruence. Qed.

Lemma watchCurrent_watcher st : watchCurrent (watcherEffect st).
Proof.
  destruct (watcherEffect_shape st) as [-> | (c & Hc & ->)].
  - apply watchCurrent_none. reflexivity.
  - intros due t Ht. cbn in Ht. exists c. cbn.
    assert (due = (clock st + 1500)%Z) as -> by congruence.
    split_and!; [exact Hc | congruence |].
    rewrite lookup_insert_eq. f_equal. lia.
Qed.

Lemma watchCurrent_rerender st : watchCurrent (rerender st).
Proof. unfold rerender. apply watchCurrent_watcher. Qed.

Lemma watchCurrent_dispatch out st errorFile errorText :
  watchCurrent st -> watchCurrent (dispatch out st errorFile errorText).
Proof.
  intros H. unfold dispatch.
  destruct (fixCodeError_start out st errorFile errorText) as [b st'|p st'] eqn:E.
  - apply start_returned_shape in E as [-> | [_ ->]]; [exact H|].
    apply (watchCurrent_same st); try reflexivity; exact H.
  - apply watchCurrent_rerender.
Qed.

Lemma watchCurrent_runTask t st : watchCurrent st -> watchCurrent (runTask t st).
Proof.
  intros H. destruct (expiryOf (0%Z, t)) eqn:E.
  - destruct t; try discriminate. apply (watchCurrent_same st); try reflexivity; exact H.
  - destruct (runTask_other 0%Z t st E) as [-> | (out & f & e & ->)];
      [exact H | apply watchCurrent_dispatch, H].
Qed.

Lemma watchCurrent_step st ev : watchCurrent st -> watchCurrent (step st ev).
Proof.
  intros H. destruct ev as [out|b|d|t| |i|i o]; cbn [step].
  - apply watchCurrent_rerender.
  - apply watchCurrent_rerender.
  - destruct (handleRuntimeError_shape d st) as [-> | (t & -> & _)]; [exact H|].
    apply (watchCurrent_same st); try reflexivity; exact H.
  - destruct (clock st <=? t)%Z; [|exact H].
    apply (watchCurrent_same st); try reflexivity; exact H.
  - destruct (watchTimer st) as [[due t]|]; [|exact H].
    destruct (due <=? clock st)%Z; [|exact H].
    apply watchCurrent_runTask, watchCurrent_none. reflexivity.
  - destruct (timers st !! i) as [[due t]|]; [|exact H].
    destruct (due <=? clock st)%Z; [|exact H].
    apply watchCurrent_runTask. apply (watchCurrent_same st); try reflexivity; exact H.
  - destruct (inflight st !! i) as [p|]; [|exact H].
    apply watchCurrent_rerender.
Qed.

Lemma watchCurrent_reached running out0 fs now evs :
  watchCurrent (run (initial running out0 fs now) evs).
Proof.
  assert (forall evs st, watchCurrent st -> watchCurrent (run st evs)) as Hrun.
  { clear. induction evs as [|ev evs IH]; intros st H; [exact H|].
    apply IH, watchCurrent_step, H. }
  apply Hrun, watchCurrent_none. reflexivity.
Qed.

(** X19. The watcher never dispatches a stale candidate.  In any session,
    whenever the watcher's timeout is pending it is the dispatch of the
    candidate the classifier makes of the output log as it is now, with
    that log, and it is due exactly 1.5 s after the time recorded for the
    candidate's file in the cooldown map. *)
Theorem watcher_timeout_is_current
        running out0 fs now (evs : list Event) (due : Z) (t : Task) :
  watchTimer (run (initial running out0 fs now) evs) = Some (due, t) ->
  exists c,
    parseError (terminalOutput (run (initial running out0 fs now) evs)) = Some c /\
    t = TaskFix (terminalOutput (run (initial running out0 fs now) evs))
                (file c) (error c) /\
    lastFixTimeRef (run (initial running out0 fs now) evs) !! file c
    = Some (due - 1500)%Z.
Proof.
  apply watchCurrent_reached.
Qed.

Lemma watcher_timeout_is_current_witness :
  exists c,
    parseError (terminalOutput
                  (run (initial true [] [barFile] 100000)
                       [Output (viteOut "src/pages/Bar.tsx"); Tick 100700])) = Some c /\
    TaskFix (viteOut "src/pages/Bar.tsx") (js "src/pages/Bar.tsx")
            (viteErrorText "src/pages/Bar.tsx")
    = TaskFix (terminalOutput
                 (run (initial true [] [barFile] 100000)
                      [Output (viteOut "src/pages/Bar.tsx"); Tick 100700]))
              (file c) (error c) /\
    lastFixTimeRef (run (initial true [] [barFile] 100000)
                        [Output (viteOut "src/pages/Bar.tsx"); Tick 100700]) !! file c
    = Some (101500 - 1500)%Z.
Proof.
  apply (watcher_timeout_is_current true [] [barFile] 100000%Z
           [Output (viteOut "src/pages/Bar.tsx"); Tick 100700] 101500%Z
           (TaskFix (viteOut "src/pages/Bar.tsx") (js "src/pages/Bar.tsx")
                    (viteErrorText "src/pages/Bar.tsx"))).
  vm_compute. reflexivity.
Defined.

Lemma str_eqb_refl (a : jsstring) : str_eqb a a = true.
Proof. unfold str_eqb. apply bool_decide_eq_true_2. reflexivity. Qed.

Lemma start_awaiting_pending out st errorFile errorText p st' :
  fixCodeError_start out st errorFile errorText = Awaiting p st' ->
  pendingOut p = out /\ pendingFile p = errorFile /\
  pendingKey p = errorKeyOf errorFile errorText.
Proof.
  unfold fixCodeError_start.
  destruct (fixingRef st); [discriminate|].
  case_bool_decide; [discriminate|].
  repeat case_match; intros [= <- <-]; cbn; auto.
Qed.

Lemma resume_success_timers st p o :
  fst (fixCodeError_resume st p o) = true ->
  exists pre,
    timers (snd (fixCodeError_resume st p o))
    = timers st ++ pre ++
      [((clock st + 3000)%Z, TaskRecheckOther (pendingOut p) (pendingFile p));
       ((clock st + 8000)%Z, TaskRecheckNew (pendingOut p))].
Proof.
  unfold fixCodeError_resume, finish.
  repeat case_match; cbn; try (intros H'; discriminate H'); intros _.
  - exists []. rewrite <- ?app_assoc. reflexivity.
  - eexists [_]. rewrite <- ?app_assoc. reflexivity.
Qed.

Lemma recheckOther_own out c st :
  parseError out = Some c -> runTask (TaskRecheckOther out (file c)) st = st.
Proof.
  intros Hc. cbn [runTask]. rewrite Hc.
  destruct (file c); [reflexivity|]. rewrite str_eqb_refl. reflexivity.
Qed.

Lemma recheckNew_own out c st :
  parseError out = Some c ->
  errorKeyOf (file c) (error c) ∈ fixedFilesRef st ->
  runTask (TaskRecheckNew out) st = st.
Proof.
  intros Hc Hk. cbn [runTask]. rewrite Hc.
  destruct (file c) eqn:Ef; [reflexivity|].
  rewrite bool_decide_eq_true_2 by exact Hk. reflexivity.
Qed.

(** X20. The re-checks that follow a repair the watcher started look at the
    output log from before the repair.  When the dispatch made by the
    watcher's timeout succeeds, the two timers it leaves are the re-checks
    of the log the watcher itself had parsed: the one after 3 s never does
    anything, in whatever state it fires, and the one after 8 s does nothing
    in any state in which the key of the repair is still in the fixed set. *)
Theorem watcher_rechecks_see_old_log
        running out0 fs now (evs : list Event) (due : Z)
        (out : list jsstring) (errorFile errorText : jsstring)
        (p : Pending) (st2 : State) (o : FetchOutcome) :
  watchTimer (run (initial running out0 fs now) evs)
  = Some (due, TaskFix out errorFile errorText) ->
  pendingOf (fixCodeError_start out
               (with_watchTimer None (run (initial running out0 fs now) evs))
               errorFile errorText) = Some p ->
  fst (fixCodeError_resume st2 p o) = true ->
  (exists pre,
      timers (snd (fixCodeError_resume st2 p o))
      = timers st2 ++ pre ++
        [((clock st2 + 3000)%Z, TaskRecheckOther out errorFile);
         ((clock st2 + 8000)%Z, TaskRecheckNew out)]) /\
  forall st3,
    runTask (TaskRecheckOther out errorFile) st3 = st3 /\
    (pendingKey p ∈ fixedFilesRef st3 -> runTask (TaskRecheckNew out) st3 = st3).
Proof.
  intros Hw Hp Hb.
  destruct (watchCurrent_reached running out0 fs now evs _ _ Hw) as (c & Hc & Ht & _).
  set (st := run (initial running out0 fs now) evs) in *.
  assert (out = terminalOutput st /\ errorFile = file c /\ errorText = error c)
    as (Eo & Ef & Ee).
  { split_and!; congruence. }
  destruct (fixCodeError_start out (with_watchTimer None st) errorFile errorText)
    as [b st'|p' st'] eqn:Es; [discriminate|].
  assert (p' = p) as -> by (cbn in Hp; congruence).
  apply start_awaiting_pending in Es as (Epo & Epf & Epk).
  split.
  - destruct (resume_success_timers st2 p o Hb) as (pre & Et).
    exists pre. rewrite Et, Epo, Epf. reflexivity.
  - intros st3. rewrite Eo in *. rewrite Ef, Ee in *. split.
    + apply recheckOther_own, Hc.
    + intros Hk. apply (recheckNew_own _ c); [exact Hc|].
      rewrite <- Epk. exact Hk.
Qed.

Lemma watcher_rechecks_see_old_log_witness :
  runTask (TaskRecheckOther (viteOut "src/pages/Bar.tsx") (js "src/pages/Bar.tsx"))
          (initial true (viteOut "src/App.tsx") [barFile; appFile] 110000)
  = initial true (viteOut "src/App.tsx") [barFile; appFile] 110000.
Proof.
  apply (watcher_rechecks_see_old_log
           true [] [barFile] 100000%Z
           [Output (viteOut "src/pages/Bar.tsx"); Tick 101500] 101500%Z
           (viteOut "src/pages/Bar.tsx") (js "src/pages/Bar.tsx")
           (viteErrorText "src/pages/Bar.tsx")
           watcherPending
           (run (initial true [] [barFile] 100000) (watcherDispatch ++ [Tick 103000]))
           (okFix "export const Bar = 2")).
  - vm_compute. reflexivity.
  - vm_compute. reflexivity.
  - vm_compute. reflexivity.
Defined.

End WatcherTimeout.

(** ** The files of the project under the chat's modifications *)

Section ProjectFiles.

Import Project Samples.

Lemma replace_paths p code (prev : list SourceFile) :
  map path (map (fun f => if str_eqb (path f) p then mkFile (path f) code else f) prev)
  = map path prev.
Proof.
  rewrite map_map. apply map_ext. intros f.
  destruct (str_eqb (path f) p); reflexivity.
Qed.

Lemma find_path_none p (prev : list SourceFile) :
  find (fun f => str_eqb (path f) p) prev = None -> ~ In p (map path prev).
Proof.
  intros Hf Hin. apply in_map_iff in Hin as (f & Hp & Hin).
  pose proof (find_none _ _ Hf f Hin) as Hn. cbn in Hn.
  unfold str_eqb in Hn. rewrite bool_decide_eq_true_2 in Hn by exact Hp.
  discriminate.
Qed.

Lemma find_path_some p (prev : list SourceFile) f :
  find (fun f => str_eqb (path f) p) prev = Some f -> In p (map path prev).
Proof.
  intros Hf. apply find_some in Hf as [Hin Hp].
  unfold str_eqb in Hp. apply bool_decide_eq_true_1 in Hp.
  apply in_map_iff. exists f. auto.
Qed.

Lemma applyModified_paths p code prev :
  (In p (map path prev) /\
   map path (applyModified p code prev) = map path prev) \/
  (~ In p (map path prev) /\
   map path (applyModified p code prev) = map path prev ++ [p]).
Proof.
  unfold applyModified.
  destruct (find (fun f => str_eqb (path f) p) prev) as [f|] eqn:Hf.
  - left. split; [eapply find_path_some, Hf | apply replace_paths].
  - right. split; [apply find_path_none, Hf|].
    rewrite map_app. reflexivity.
Qed.

Lemma applyModified_present p code prev :
  In p (map path (applyModified p code prev)).
Proof.
  destruct (applyModified_paths p code prev) as [[Hin ->] | [_ ->]];
    [exact Hin | apply in_or_app; right; cbn; auto].
Qed.

(** X21. A file changed by the assistant is replaced where its path exists
    and appended where it does not.  After the update the path is in the
    project, every file with that path has the new content, the files with
    other paths are what they were, in the same order, and at most one file
    has been added. *)
Theorem applyModified_upsert (p code : jsstring) (prev : list SourceFile) :
  In p (map path (applyModified p code prev)) /\
  (forall f, In f (applyModified p code prev) -> path f = p -> content f = code) /\
  List.filter (fun f => negb (str_eqb (path f) p)) (applyModified p code prev)
  = List.filter (fun f => negb (str_eqb (path f) p)) prev /\
  (length prev <= length (applyModified p code prev) <= length prev + 1)%nat.
Proof.
  unfold applyModified.
  destruct (find (fun f => str_eqb (path f) p) prev) as [f0|] eqn:Hf.
  - split_and!.
    + rewrite replace_paths. eapply find_path_some, Hf.
    + intros f Hin Hp. apply in_map_iff in Hin as (g & Hg & _).
      destruct (str_eqb (path g) p) eqn:Eg.
      * subst f. reflexivity.
      * subst g. unfold str_eqb in Eg. rewrite bool_decide_eq_true_2 in Eg by exact Hp.
        discriminate.
    + clear Hf. induction prev as [|g prev IH]; [reflexivity|].
      cbn [map List.filter]. destruct (str_eqb (path g) p) eqn:Eg;
        cbn [path]; rewrite ?Eg; cbn [negb]; [exact IH | f_equal; exact IH].
    + rewrite length_map. lia.
    + rewrite length_map. lia.
  - split_and!.
    + rewrite map_app. apply in_or_app. right. cbn. auto.
    + intros f Hin Hp. apply in_app_or in Hin as [Hin | [<- | []]]; [|reflexivity].
      exfalso. apply (find_path_none p prev Hf). apply in_map_iff. exists f. auto.
    + rewrite List.filter_app. cbn [List.filter path]. unfold str_eqb at 2.
      rewrite bool_decide_eq_true_2 by reflexivity. cbn [negb]. apply app_nil_r.
    + rewrite length_app. cbn. lia.
    + rewrite length_app. cbn. lia.
Qed.

Lemma applyModified_upsert_witness :
  content (mkFile (js "/src/App.tsx") (js "export default Home"))
  = js "export default Home".
Proof.
  apply (proj1 (proj2 (applyModified_upsert
                         (js "/src/App.tsx") (js "export default Home")
                         [barFile; appFile]))).
  - vm_compute. right. left. reflexivity.
  - reflexivity.
Defined.

Lemma applyModified_NoDup p code prev :
  NoDup (map path prev) -> NoDup (map path (applyModified p code prev)).
Proof.
  intros Hn. destruct (applyModified_paths p code prev) as [[_ ->] | [Hnot ->]];
    [exact Hn|].
  apply NoDup_app. split_and!; [exact Hn | | apply NoDup_singleton].
  intros q Hq Hq'. apply list_elem_of_singleton in Hq' as ->.
  apply Hnot, list_elem_of_In, Hq.
Qed.

Lemma applyModified_keeps p code prev q :
  In q (map path prev) -> In q (map path (applyModified p code prev)).
Proof.
  intros Hq. destruct (applyModified_paths p code prev) as [[_ ->] | [_ ->]];
    [exact Hq | apply in_or_app; left; exact Hq].
Qed.

(** X22. A [modify] answer of the assistant keeps the project well formed.
    When no two files of the project share a path, the same holds after all
    the modified files of an answer have been applied, no path of the
    project is lost, and the path of every modified file, made absolute, is
    in the project. *)
Theorem modify_keeps_paths_unique (modifiedFiles prev : list SourceFile) :
  NoDup (map path prev) ->
  NoDup (map path (applyModifiedFiles modifiedFiles prev)) /\
  (forall q, In q (map path prev) ->
             In q (map path (applyModifiedFiles modifiedFiles prev))) /\
  (forall m, In m modifiedFiles ->
             In (normalizePath (path m))
                (map path (applyModifiedFiles modifiedFiles prev))).
Proof.
  unfold applyModifiedFiles. revert prev.
  induction modifiedFiles as [|m ms IH]; intros prev Hn.
  - cbn. split_and!; [exact Hn | auto | intros m []].
  - cbn [fold_left].
    destruct (IH (applyModified (normalizePath (path m)) (content m) prev)
                 (applyModified_NoDup _ _ _ Hn)) as (H1 & H2 & H3).
    split_and!; [exact H1 | |].
    + intros q Hq. apply H2, applyModified_keeps, Hq.
    + intros m' [<- | Hm']; [|apply H3, Hm'].
      apply H2, applyModified_present.
Qed.

Lemma modify_keeps_paths_unique_witness :
  NoDup (map path (applyModifiedFiles [cardFile; newBar] [barFile; appFile])).
Proof.
  apply (modify_keeps_paths_unique [cardFile; newBar] [barFile; appFile]).
  apply (bool_decide_unpack _). vm_compute. exact I.
Defined.

End ProjectFiles.

Section LoadedProject.

Import Project.

Lemma normalizePath_slash p : normalizePath p = [47] ++ strip_leading_slash p.
Proof.
  unfold normalizePath. destruct p as [|c p]; [reflexivity|].
  cbn [startsWith strip_leading_slash].
  destruct (N.eqb_spec 47 c) as [<- | Hne]; [reflexivity|].
  cbn [andb]. destruct c as [|c]; [reflexivity|].
  do 6 (destruct c as [c|c|]; try reflexivity); exfalso; apply Hne; reflexivity.
Qed.

(** X23. Every path of a loaded project is absolute, and making it so
    changes neither the content of a file nor the path under which the
    sandbox knows it: the path in the page is a slash followed by the
    sandbox path.  Loading what has been loaded changes nothing. *)
Theorem loaded_paths_absolute (projectFiles : list SourceFile) :
  Forall (fun f => path f = [47] ++ strip_leading_slash (path f))
         (loadedFiles projectFiles) /\
  map content (loadedFiles projectFiles) = map content projectFiles /\
  map (fun f => strip_leading_slash (path f)) (loadedFiles projectFiles)
  = map (fun f => strip_leading_slash (path f)) projectFiles /\
  loadedFiles (loadedFiles projectFiles) = loadedFiles projectFiles.
Proof.
  unfold loadedFiles. split_and!.
  - apply List.Forall_forall. intros f Hin.
    apply in_map_iff in Hin as (g & <- & _). cbn [path].
    rewrite normalizePath_slash. reflexivity.
  - rewrite map_map. reflexivity.
  - rewrite map_map. apply map_ext. intros f. cbn [path].
    rewrite normalizePath_slash. reflexivity.
  - rewrite map_map. apply map_ext. intros f. cbn [path content].
    rewrite (normalizePath_slash (path f)). reflexivity.
Qed.

(** X24. An edit in the editor changes contents only.  The paths of the
    project and their order stay as they are, the edited path holds the new
    content wherever it occurs, the other files are untouched, and a second
    edit of the same path overrides the first. *)
Theorem handleFileChange_edits_content (p code code' : jsstring)
        (prev : list SourceFile) :
  map path (handleFileChange p code prev) = map path prev /\
  (forall f, In f (handleFileChange p code prev) -> path f = p -> content f = code) /\
  (forall f, In f prev -> path f <> p -> In f (handleFileChange p code prev)) /\
  handleFileChange p code' (handleFileChange p code prev)
  = handleFileChange p code' prev.
Proof.
  unfold handleFileChange. split_and!.
  - rewrite map_map. apply map_ext. intros f.
    destruct (str_eqb (path f) p); reflexivity.
  - intros f Hin Hp. apply in_map_iff in Hin as (g & Hg & _).
    destruct (str_eqb (path g) p) eqn:Eg.
    + subst f. reflexivity.
    + subst g. unfold str_eqb in Eg. rewrite bool_decide_eq_true_2 in Eg by exact Hp.
      discriminate.
  - intros f Hin Hp. apply in_map_iff. exists f. split; [|exact Hin].
    unfold str_eqb. rewrite bool_decide_eq_false_2 by exact Hp. reflexivity.
  - rewrite map_map. apply map_ext. intros f.
    destruct (str_eqb (path f) p) eqn:Ef; cbn [path]; rewrite Ef; reflexivity.
Qed.

Lemma handleFileChange_edits_content_witness :
  In barFile (handleFileChange (js "/src/App.tsx") (js "export default Home")
                               [barFile; appFile]).
Proof.
  apply (proj1 (proj2 (proj2 (handleFileChange_edits_content
                                (js "/src/App.tsx") (js "export default Home") []
                                [barFile; appFile])))).
  - left. reflexivity.
  - vm_compute. discriminate.
Defined.

End LoadedProject.

(** ** The throttle of the error reporter *)

Section Throttle.

Import Reporter.

Lemma sentAt_sublist nows : forall last, sublist (sentAt last nows) nows.
Proof.
  induction nows as [|now rest IH]; intros last; cbn [sentAt]; [constructor|].
  unfold canReportError.
  destruct (now - last <? ERROR_THROTTLE_MS)%Z; constructor; apply IH.
Qed.

Lemma sentAt_spaced nows : forall last, spaced last (sentAt last nows).
Proof.
  induction nows as [|now rest IH]; intros last; cbn [sentAt]; [exact I|].
  unfold canReportError.
  destruct (Z.ltb_spec (now - last) ERROR_THROTTLE_MS) as [Hlt|Hge].
  - apply IH.
  - cbn [spaced]. split; [lia | apply IH].
Qed.

(** X25. The preview frame reports at most one error every two seconds.
    Whatever the times at which errors occur, the reports that are posted
    are some of them, in their order, each at least 2000 ms after the one
    posted before it; the errors in between are dropped, and a dropped
    error does not push the next report back. *)
Theorem reports_are_throttled (lastErrorTime : Z) (nows : list Z) :
  sublist (sentAt lastErrorTime nows) nows /\
  spaced lastErrorTime (sentAt lastErrorTime nows) /\
  forall now rest,
    nows = now :: rest ->
    (now - lastErrorTime < ERROR_THROTTLE_MS)%Z ->
    sentAt lastErrorTime nows = sentAt lastErrorTime rest.
Proof.
  split_and!; [apply sentAt_sublist | apply sentAt_spaced |].
  intros now rest -> Hlt. cbn [sentAt]. unfold canReportError.
  apply Z.ltb_lt in Hlt. rewrite Hlt. reflexivity.
Qed.

Lemma reports_are_throttled_witness :
  sentAt 5000 [5500; 7200]%Z = sentAt 5000 [7200]%Z.
Proof.
  apply (proj2 (proj2 (reports_are_throttled 5000 [5500; 7200]%Z)) 5500%Z [7200%Z]).
  - reflexivity.
  - vm_compute. reflexivity.
Defined.

End Throttle.

(** ** The books of the loop *)

Section Ledger.










End Ledger.

(** ** What the normalizer deletes *)

Section Deletions.

Lemma forallb_weaken (p q : N -> bool) (l : jsstring) :
  (forall c, p c = true -> q c = true) -> forallb p l = true -> forallb q l = true.
Proof.
  intros Hpq H. apply forallb_forall. intros c Hc.
  apply Hpq. revert c Hc. apply forallb_forall. exact H.
Qed.

Lemma matches_alphabet r w : matches r w -> forallb (alphabet r) w = true.
Proof.
  induction 1; cbn [alphabet forallb]; try reflexivity.
  - rewrite H. reflexivity.
  - rewrite forallb_app. apply andb_true_iff. split.
    + eapply forallb_weaken; [|exact IHmatches1]. intros c Hc. cbn beta.
      rewrite Hc. reflexivity.
    + eapply forallb_weaken; [|exact IHmatches2]. intros c Hc. cbn beta.
      rewrite Hc. apply orb_true_r.
  - eapply forallb_weaken; [|exact IHmatches]. intros c Hc. cbn beta.
    rewrite Hc. reflexivity.
  - eapply forallb_weaken; [|exact IHmatches]. intros c Hc. cbn beta.
    rewrite Hc. apply orb_true_r.
  - exact IHmatches.
  - exact H.
  - exact IHmatches.
Qed.

Lemma remove_all_aux_sublist r s : forall skip, sublist (remove_all_aux r skip s) s.
Proof.
  induction s as [|c s IH]; intros skip; cbn [remove_all_aux]; [constructor|].
  destruct skip as [|n]; [|constructor; apply IH].
  destruct (match_len r (c :: s)) as [[|n]|]; constructor; apply IH.
Qed.

Lemma remove_all_aux_keeps r (keep : N -> bool) :
  (forall c, alphabet r c = true -> keep c = false) ->
  forall s skip,
    forallb (alphabet r) (take skip s) = true ->
    List.filter keep (remove_all_aux r skip s) = List.filter keep s.
Proof.
  intros Hk. induction s as [|c s IH]; intros skip Hs; [reflexivity|].
  cbn [remove_all_aux]. destruct skip as [|n].
  - unfold match_len.
    destruct (match_here r (c :: s)) as [[s' cs]|] eqn:E.
    + apply match_here_text in E as (w & Hw & Ht & M).
      destruct (length (c :: s) - length s')%nat as [|n] eqn:El.
      * cbn [List.filter]. rewrite (IH O) by reflexivity. reflexivity.
      * apply matches_alphabet in M. rewrite <- Ht in M.
        cbn [take forallb] in M. apply andb_true_iff in M as [Mc Mn].
        cbn [List.filter]. rewrite (Hk c Mc). apply IH. exact Mn.
    + cbn [List.filter]. rewrite (IH O) by reflexivity. reflexivity.
  - cbn [take forallb] in Hs. apply andb_true_iff in Hs as [Hc Hn].
    cbn [List.filter]. rewrite (Hk c Hc). apply IH. exact Hn.
Qed.

Lemma ansi_alphabet c : alphabet ansiRe c = true -> escapeUnit c = true.
Proof.
  unfold ansiRe, escapeUnit. cbn [Cat fold_right alphabet Ch].
  rewrite (N.eqb_sym 27 c), (N.eqb_sym 91 c).
  destruct (c =? 27), (c =? 91), (is_digit c), (c =? 59),
    (one_of (js "mGKHF") c); cbn; congruence.
Qed.

Lemma bracket_alphabet c : alphabet bracketRe c = true -> escapeUnit c = true.
Proof.
  unfold bracketRe, escapeUnit. cbn [Cat fold_right alphabet Ch Plus].
  rewrite (N.eqb_sym 91 c).
  assert ((109 =? c) = true -> one_of (js "mGKHF") c = true) as Hm.
  { intros H. apply N.eqb_eq in H as <-. reflexivity. }
  destruct (c =? 27), (c =? 91), (is_digit c), (c =? 59), (109 =? c),
    (one_of (js "mGKHF") c); cbn; try congruence.
  all: intros _; apply Hm; reflexivity.
Qed.

(** X27. The normalizer only deletes, and only code units of escape
    sequences.  Its result is what is left of the text after some code
    units have been struck out, and none of them is anything but ESC, an
    opening bracket, a digit, a semicolon or one of the letters m, G, K, H
    and F: all the other code units of the text are kept, in their order. *)
Theorem stripAnsi_only_deletes_escapes (rawText : jsstring) :
  sublist (stripAnsi rawText) rawText /\
  List.filter (fun c => negb (escapeUnit c)) (stripAnsi rawText)
  = List.filter (fun c => negb (escapeUnit c)) rawText.
Proof.
  unfold stripAnsi, remove_all. split.
  - etransitivity; apply remove_all_aux_sublist.
  - rewrite (remove_all_aux_keeps bracketRe) by
        first [ intros c Hc; rewrite (bracket_alphabet c Hc); reflexivity
              | reflexivity ].
    apply remove_all_aux_keeps; [|reflexivity].
    intros c Hc. rewrite (ansi_alphabet c Hc). reflexivity.
Qed.

End Deletions.

(** ** The words of a command line *)

Section CommandLine.

Import Hook.

Lemma star_total p s (cs : caps) :
  exists run rest,
    s = run ++ rest /\ forallb p run = true /\ stops p rest /\
    star p s (fun s' => Some (s', cs)) = Some (rest, cs).
Proof.
  induction s as [|c s IH].
  - exists [], []. cbn. auto.
  - destruct (p c) eqn:Hc.
    + destruct IH as (run & rest & -> & Hrun & Hstop & Hs).
      exists (c :: run), rest. cbn [app forallb star]. rewrite Hc, Hrun, Hs. auto.
    + exists [], (c :: s). cbn [app forallb star stops]. rewrite Hc. auto.
Qed.

Lemma plus_len_space c s :
  is_space c = true ->
  exists run rest,
    s = run ++ rest /\ forallb is_space run = true /\ stops is_space rest /\
    match_len spacesRe (c :: s) = Some (S (length run)).
Proof.
  intros Hc. destruct (star_total is_space s []) as (run & rest & Hs & Hrun & Hstop & E).
  exists run, rest. split_and!; try assumption.
  unfold match_len, match_here, spacesRe, Plus. cbn [rmatch]. rewrite Hc, E.
  f_equal. rewrite Hs. cbn [length]. rewrite length_app. lia.
Qed.

Lemma plus_len_other c s :
  is_space c = false -> match_len spacesRe (c :: s) = None.
Proof.
  intros Hc. unfold match_len, match_here, spacesRe, Plus. cbn [rmatch].
  rewrite Hc. reflexivity.
Qed.

Lemma forallb_rev_true (p : N -> bool) (l : jsstring) :
  forallb p l = true -> forallb p (rev l) = true.
Proof.
  intros H. apply forallb_forall. intros c Hc. apply in_rev in Hc.
  revert c Hc. apply forallb_forall. exact H.
Qed.

Lemma split_spaces_free s : forall skip acc,
  forallb (fun c => negb (is_space c)) acc = true ->
  Forall (fun part => forallb (fun c => negb (is_space c)) part = true)
         (split_re_aux spacesRe skip s acc).
Proof.
  induction s as [|c s IH]; intros skip acc Hacc; cbn [split_re_aux].
  - constructor; [|constructor]. apply forallb_rev_true, Hacc.
  - destruct skip as [|n]; [|apply IH, Hacc].
    destruct (is_space c) eqn:Hc.
    + destruct (plus_len_space c s Hc) as (run & rest & _ & _ & _ & ->).
      constructor; [apply forallb_rev_true, Hacc | apply IH; reflexivity].
    + rewrite (plus_len_other c s Hc). apply IH. cbn [forallb]. rewrite Hc. exact Hacc.
Qed.

Lemma wellEnded_tail c s : wellEnded (c :: s) -> wellEnded s.
Proof. intros H a x ->. apply (H (c :: a) x). reflexivity. Qed.

Lemma wellEnded_drop n s : wellEnded s -> wellEnded (drop n s).
Proof.
  revert s. induction n as [|n IH]; intros s H; [exact H|].
  destruct s as [|c s]; [exact H|]. cbn [drop]. apply IH, (wellEnded_tail c), H.
Qed.

Lemma wellEnded_spaces s :
  s <> [] -> forallb is_space s = true -> ~ wellEnded s.
Proof.
  intros Hne Hall Hend. destruct (exists_last Hne) as (a & x & ->).
  rewrite forallb_app in Hall. apply andb_true_iff in Hall as [_ Hx].
  cbn [forallb] in Hx. rewrite (Hend a x eq_refl) in Hx. discriminate.
Qed.

Lemma split_spaces_nonempty s : forall skip acc,
  wellEnded s ->
  match skip with
  | O => acc <> [] \/ exists c s', s = c :: s' /\ is_space c = false
  | S _ => exists c s', drop skip s = c :: s' /\ is_space c = false
  end ->
  Forall (fun part => part <> []) (split_re_aux spacesRe skip s acc).
Proof.
  induction s as [|c s IH]; intros skip acc Hend Hpre; cbn [split_re_aux].
  - destruct skip as [|n].
    + destruct Hpre as [Hacc | (c & s' & [=] & _)].
      constructor; [|constructor]. intros Hr. apply Hacc.
      rewrite <- (rev_involutive acc), Hr. reflexivity.
    + destruct Hpre as (c & s' & Hd & _). rewrite drop_nil in Hd. discriminate.
  - apply wellEnded_tail in Hend as Hend'.
    destruct skip as [|n].
    + destruct (is_space c) eqn:Hc.
      * destruct (plus_len_space c s Hc) as (run & rest & Hs & Hrun & Hstop & ->).
        assert (acc <> []) as Hacc.
        { destruct Hpre as [Hacc | (c' & s' & [= <- <-] & Hc')]; [exact Hacc|congruence]. }
        assert (exists c' s', rest = c' :: s' /\ is_space c' = false) as Hrest.
        { destruct rest as [|c' s'].
          - exfalso. rewrite app_nil_r in Hs. subst s.
            apply (wellEnded_spaces (c :: run)); [discriminate | | exact Hend].
            cbn [forallb]. rewrite Hc. assumption.
          - exists c', s'. split; [reflexivity | exact Hstop]. }
        constructor.
        -- intros Hr. apply Hacc. rewrite <- (rev_involutive acc), Hr. reflexivity.
        -- apply IH; [exact Hend'|].
           destruct Hrest as (c' & s' & -> & Hc').
           destruct (length run) as [|k] eqn:Ek.
           ++ right. destruct run; [|discriminate]. exists c', s'. auto.
           ++ exists c', s'. rewrite Hs, <- Ek, drop_app_length. auto.
      * rewrite (plus_len_other c s Hc). apply IH; [exact Hend'|].
        left. discriminate.
    + destruct Hpre as (c' & s' & Hd & Hc'). cbn [drop] in Hd.
      apply IH; [exact Hend'|]. destruct n as [|n].
      * right. exists c', s'. auto.
      * exists c', s'. auto.
Qed.

Lemma trimStart_head s c t : trimStart s = c :: t -> is_space c = false.
Proof.
  induction s as [|x s IH]; cbn [trimStart]; [discriminate|].
  destruct (is_space x) eqn:Hx; [exact IH|]. intros [= <- <-]. exact Hx.
Qed.

Lemma trimStart_suffix s : exists pre, s = pre ++ trimStart s.
Proof.
  induction s as [|x s IH]; cbn [trimStart]; [exists []; reflexivity|].
  destruct (is_space x); [|exists []; reflexivity].
  destruct IH as (pre & E). exists (x :: pre). cbn [app]. rewrite <- E. reflexivity.
Qed.

Lemma trim_wellEnded s : wellEnded (trim s).
Proof.
  unfold trim. intros a c E.
  apply (f_equal (@rev N)) in E. rewrite rev_involutive, rev_app_distr in E.
  cbn [rev app] in E. apply trimStart_head in E. exact E.
Qed.

Lemma trim_head s c t : trim s = c :: t -> is_space c = false.
Proof.
  unfold trim. intros E.
  destruct (trimStart_suffix (rev (trimStart s))) as (pre & Hpre).
  apply (f_equal (@rev N)) in Hpre. rewrite rev_involutive, rev_app_distr, E in Hpre.
  cbn [app] in Hpre. apply trimStart_head in Hpre. exact Hpre.
Qed.

(** X28. A command line is cut into words.  No part that [runCommand] hands
    to the sandbox contains white space; unless the command is blank, no
    part is empty, so the program is a word and so is every argument; a
    blank command gives the empty string as program and no arguments. *)
Theorem commandParts_words (command : jsstring) :
  Forall (fun part => forallb (fun c => negb (is_space c)) part = true)
         (commandParts command) /\
  (trim command <> [] -> Forall (fun part => part <> []) (commandParts command)) /\
  (trim command = [] ->
   commandParts command = [[]] /\ programOf command = [] /\ argsOf command = []).
Proof.
  unfold programOf, argsOf, commandParts, split_re. split_and!.
  - apply split_spaces_free. reflexivity.
  - intros Hne. apply split_spaces_nonempty; [apply trim_wellEnded|].
    right. destruct (trim command) as [|c t] eqn:E; [congruence|].
    exists c, t. split; [reflexivity | exact (trim_head command c t E)].
  - intros ->. cbn. auto.
Qed.

Lemma commandParts_words_witness :
  Forall (fun part => part <> []) (commandParts (js "  npm   run dev ")).
Proof.
  apply (commandParts_words (js "  npm   run dev ")).
  vm_compute. discriminate.
Defined.

End CommandLine.

(** ** The packages a project adds to the base set *)

Section Packages.

Import Hook.

Lemma split_char_prefix c rest pre : forall acc,
  ~ In c pre ->
  split_aux [c] O (pre ++ c :: rest) acc
  = (rev acc ++ pre) :: split_aux [c] O rest [].
Proof.
  induction pre as [|x pre IH]; intros acc Hnot.
  - cbn [app split_aux startsWith]. rewrite N.eqb_refl. cbn [andb length Nat.sub].
    rewrite app_nil_r. reflexivity.
  - cbn [app split_aux startsWith].
    destruct (N.eqb_spec c x) as [-> | Hne]; [exfalso; apply Hnot; left; reflexivity|].
    cbn [andb]. rewrite IH by (intros H; apply Hnot; right; exact H).
    cbn [rev]. rewrite <- app_assoc. reflexivity.
Qed.

Lemma newOf_spec entries spec :
  In spec (newOf entries) <->
  exists pkg version,
    In (pkg, version) entries /\ isBase pkg = false /\ spec = pkg ++ [64] ++ version.
Proof.
  unfold newOf. rewrite in_map_iff. split.
  - intros ([pkg version] & <- & Hin). apply List.filter_In in Hin as [Hin Hb].
    exists pkg, version. cbn [fst snd] in *. apply negb_true_iff in Hb. auto.
  - intros (pkg & version & Hin & Hb & ->). exists (pkg, version). split; [reflexivity|].
    apply List.filter_In. cbn [fst]. rewrite Hb. auto.
Qed.

(** X29. The packages installed on top of the base set are the entries of
    the two dependency tables whose name is not a base package, each as
    name, at sign, version.  In the log line that announces them a package
    whose name has no at sign is shown by its name, and a scoped package,
    whose name begins with an at sign, is shown as the empty string. *)
Theorem newPackages_and_their_names
        (dependencies devDependencies : list (jsstring * jsstring)) :
  (forall spec,
      In spec (newPackages dependencies devDependencies) <->
      exists pkg version,
        (In (pkg, version) dependencies \/ In (pkg, version) devDependencies) /\
        isBase pkg = false /\ spec = pkg ++ [64] ++ version) /\
  (forall pkg version, ~ In 64 pkg -> shownName (pkg ++ [64] ++ version) = pkg) /\
  (forall scoped version, shownName (([64] ++ scoped) ++ [64] ++ version) = []).
Proof.
  split_and!.
  - intros spec. unfold newPackages. rewrite in_app_iff, !newOf_spec. split.
    + intros [(pkg & version & H1 & H2 & H3) | (pkg & version & H1 & H2 & H3)];
        exists pkg, version; auto.
    + intros (pkg & version & [H1 | H1] & H2 & H3); [left | right];
        exists pkg, version; auto.
  - intros pkg version Hnot. unfold shownName, split.
    cbn [app]. rewrite split_char_prefix by exact Hnot. reflexivity.
  - intros scoped version. unfold shownName, split.
    pose proof (split_char_prefix 64 (scoped ++ 64 :: version) [] [] (fun H => H)) as E.
    cbn [app rev] in *. rewrite E. reflexivity.
Qed.

Lemma newPackages_and_their_names_witness :
  shownName (js "lodash" ++ [64] ++ js "^4.17.21") = js "lodash".
Proof.
  apply (newPackages_and_their_names [] []). vm_compute.
  intros H. repeat (destruct H as [H|H]; [discriminate H|]). exact H.
Defined.

End Packages.

(** ** From a runtime report to the repair service *)

Section RuntimePath.

Lemma handleRuntimeError_idle d st fp :
  isRunning st = true ->
  fixAttempts st < MAX_FIX_ATTEMPTS ->
  fixingRef st = false -> isFixing st = false ->
  runtimeFile d = Some fp ->
  errorKeyOf fp (runtimeContext d) ∉ fixedFilesRef st ->
  handleRuntimeError d st
  = setTimeout 1500 (TaskFix (terminalOutput st) fp (runtimeContext d)) st.
Proof.
  intros Hr Hb Hf Hi Hp Hk. unfold handleRuntimeError.
  rewrite Hr. cbn [negb].
  apply N.leb_gt in Hb. rewrite Hb.
  unfold runtimeFile in Hp. rewrite Hp.
  assert (startsWith (js "src/") fp = true) as Hs.
  { apply (proj1 (resolver_paths _ _) fp Hp). }
  destruct fp as [|c fp]; [discriminate Hs|].
  fold (runtimeContext d).
  rewrite bool_decide_eq_false_2 by exact Hk.
  rewrite Hf, Hi. reflexivity.
Qed.

Lemma start_repair out st errorFile errorText tf :
  fixingRef st = false ->
  errorKeyOf errorFile errorText ∉ fixedFilesRef st ->
  regex_match missingImportRe errorText = None ->
  findTarget (filesRef st) errorFile = Some tf ->
  fixCodeError_start out st errorFile errorText
  = Awaiting (PendingRepair out errorFile (errorKeyOf errorFile errorText) tf)
      (post (mkRequest errorText (path tf) (content tf))
         (addMessage MsgThinking
            (wrenchMark ++ js " Auto-fixing error in " ++ path tf ++ js "...")
            (with_fixAttempts (fixAttempts st + 1) (setFixing true st)))).
Proof.
  intros Hf Hk Hm Ht. unfold fixCodeError_start.
  rewrite Hf, (bool_decide_eq_false_2 _ Hk), Hm.
  cbn [filesRef with_fixAttempts setFixing with_isFixing with_fixingRef].
  rewrite Ht. reflexivity.
Qed.

Lemma fire_runs st i due t :
  timers st !! i = Some (due, t) -> (due <= clock st)%Z ->
  step st (Fire i) = runTask t (with_timers (delete i (timers st)) st).
Proof.
  intros Hi Hdue. cbn [step]. rewrite Hi.
  rewrite (proj2 (Z.leb_le _ _)) by exact Hdue. reflexivity.
Qed.

(** X30. A runtime report is dispatched by a timer, once, and is not tried
    again.  In a running session that is idle and under its budget, a report
    whose stack resolves to a file and whose key is not marked fixed queues
    one timer, due 1.5 s later, and changes nothing else.  Whatever happens
    in between, when that timer fires in a state in which no fix is in
    flight, the key is not marked fixed, the text is not a missing-import
    error and the file is found in the project, exactly one request is
    sent: it carries the error text of the report with the path and the
    content of the project file, the flag is set, the attempt is counted and
    the dispatch is in flight.  When the timer fires while a fix is in
    flight, it is consumed and nothing else changes: the report is lost. *)
Theorem runtime_report_reaches_service
        (d : RuntimeErrorData) (st : State) (fp : jsstring) :
  isRunning st = true ->
  fixAttempts st < MAX_FIX_ATTEMPTS ->
  fixingRef st = false -> isFixing st = false ->
  runtimeFile d = Some fp ->
  errorKeyOf fp (runtimeContext d) ∉ fixedFilesRef st ->
  step st (RuntimeError d)
  = with_timers
      (timers st ++
       [((clock st + 1500)%Z, TaskFix (terminalOutput st) fp (runtimeContext d))])
      st /\
  (forall (st2 : State) (i : nat) (due : Z) (tf : SourceFile),
      timers st2 !! i
      = Some (due, TaskFix (terminalOutput st) fp (runtimeContext d)) ->
      (due <= clock st2)%Z ->
      fixingRef st2 = false ->
      errorKeyOf fp (runtimeContext d) ∉ fixedFilesRef st2 ->
      regex_match missingImportRe (runtimeContext d) = None ->
      findTarget (filesRef st2) fp = Some tf ->
      requests (step st2 (Fire i))
      = requests st2 ++ [mkRequest (runtimeContext d) (path tf) (content tf)] /\
      inflight (step st2 (Fire i))
      = inflight st2 ++
        [PendingRepair (terminalOutput st) fp (errorKeyOf fp (runtimeContext d)) tf] /\
      fixingRef (step st2 (Fire i)) = true /\
      fixAttempts (step st2 (Fire i)) = fixAttempts st2 + 1) /\
  (forall (st2 : State) (i : nat) (due : Z),
      timers st2 !! i
      = Some (due, TaskFix (terminalOutput st) fp (runtimeContext d)) ->
      (due <= clock st2)%Z ->
      fixingRef st2 = true ->
      step st2 (Fire i) = with_timers (delete i (timers st2)) st2).
Proof.
  intros Hr Hb Hf Hi Hp Hk. split_and!.
  - cbn [step]. apply handleRuntimeError_idle; assumption.
  - intros st2 i due tf Ht Hdue Hf2 Hk2 Hm Htf.
    rewrite (fire_runs st2 i due _ Ht Hdue). cbn [runTask]. unfold dispatch.
    rewrite (start_repair (terminalOutput st)
               (with_timers (delete i (timers st2)) st2) fp (runtimeContext d) tf)
      by assumption.
    match goal with
    | |- context [rerender ?s] =>
        destruct (rerender_keeps s) as (E1 & E2 & _ & _ & _ & E6 & E7 & _)
    end.
    rewrite E1, E2, E6, E7. cbn. auto.
  - intros st2 i due Ht Hdue Hf2.
    rewrite (fire_runs st2 i due _ Ht Hdue). cbn [runTask]. unfold dispatch.
    rewrite start_guard_in_flight by exact Hf2. reflexivity.
Qed.

Lemma runtime_report_reaches_service_witness :
  requests (step (step (step (initial true [] [barFile] 100000) (RuntimeError barReport))
                       (Tick 101500))
                 (Fire 0))
  = requests (step (step (initial true [] [barFile] 100000) (RuntimeError barReport))
                   (Tick 101500)) ++
    [mkRequest (runtimeContext barReport) (path barFile) (content barFile)].
Proof.
  apply (proj1 (proj2 (runtime_report_reaches_service
                         barReport (initial true [] [barFile] 100000)
                         (js "src/pages/Bar.tsx")
                         eq_refl eq_refl eq_refl eq_refl eq_refl
                         (not_elem_of_empty _)))
           (step (step (initial true [] [barFile] 100000) (RuntimeError barReport))
                 (Tick 101500))
           O 101500%Z barFile).
  - vm_compute. reflexivity.
  - vm_compute. discriminate.
  - reflexivity.
  - apply not_elem_of_empty.
  - vm_compute. reflexivity.
  - vm_compute. reflexivity.
Defined.

End RuntimePath.
